(** * Minesweeper board engine (minesweeper.c): a shallow embedding

    The engine is the [SBoard] structure of [minesweeper.c].  Cells and all
    counters have the C type [TCell = int8_t]; they are modelled as [Z] with
    the narrowing conversion [wrap8] written at every place where the source
    stores an [int] into a [TCell].  The two heap arrays are lists that are
    read and updated at the flat index [x * height + y].  The calls to
    [rand()] read an explicit oracle (the list of values [rand()] returns);
    loops whose termination is not structural carry fuel and return [None]
    when it runs out.  The field window is modelled by the sequence of
    ncurses calls [update_field] makes on it, the keyboard by the list of
    values [wgetch] returns, and the command line by the values [getopt]
    returns.  The score window and the clock are not part of the model. *)

From stdpp Require Import base tactics option numbers list.
From Stdlib Require Import ZArith Lia.

Local Open Scope Z_scope.

#[local] Arguments Nat.leb : simpl never.

(** ** Cells *)

(** Conversion of an [int] to [int8_t] (two's complement narrowing). *)
Definition wrap8 (z : Z) : Z := (z + 128) `mod` 256 - 128.

Definition int8 (z : Z) : Prop := -128 ≤ z ≤ 127.

(** [typedef int8_t TCell]: a cell value is a [Z] in the [int8] range. *)
Abbreviation TCell := Z (only parsing).

Definition ERROR : TCell := 127.       (* INT8_MAX *)
Definition MINE : TCell := 42.         (* '*' *)
Definition REVEAL : TCell := 82.       (* 'R' *)
Definition FLAGGED : TCell := 70.      (* 'F' *)
Definition WRONG_FLAG : TCell := 88.   (* 'X' *)
Definition BLANK : TCell := 0.
Definition ZERO_CHAR : Z := 48.        (* '0' *)

(** ** The random source *)

(** [random start end_] of the source; [rs] is the oracle of [rand()].
    No value is drawn when the range is rejected. *)
Definition random (start end_ : Z) (rs : list Z) : option (TCell * list Z) :=
  if (start <? 0) || (end_ <? 1) || (start >=? end_) then Some (ERROR, rs)
  else
    match rs with
    | [] => None
    | r0 :: rs' =>
        let range := end_ - start in
        let r := Z.rem r0 range + start in
        if r >? ERROR then Some (ERROR, rs') else Some (wrap8 r, rs')
    end.

(** ** The board *)

Record SBoard := mkSBoard {
  curY : TCell;
  curX : TCell;
  done : bool;
  win : bool;
  lose : bool;
  revealCount : TCell;
  flagCount : TCell;
  height : TCell;
  width : TCell;
  mines : TCell;
  board : list TCell;
  input_board : list TCell
}.

Definition set_cur (s : SBoard) (y x : TCell) : SBoard :=
  mkSBoard y x (done s) (win s) (lose s) (revealCount s) (flagCount s)
           (height s) (width s) (mines s) (board s) (input_board s).

Definition set_outcome (s : SBoard) (d w l : bool) : SBoard :=
  mkSBoard (curY s) (curX s) d w l (revealCount s) (flagCount s)
           (height s) (width s) (mines s) (board s) (input_board s).

Definition set_revealCount (s : SBoard) (n : TCell) : SBoard :=
  mkSBoard (curY s) (curX s) (done s) (win s) (lose s) n (flagCount s)
           (height s) (width s) (mines s) (board s) (input_board s).

Definition set_flagCount (s : SBoard) (n : TCell) : SBoard :=
  mkSBoard (curY s) (curX s) (done s) (win s) (lose s) (revealCount s) n
           (height s) (width s) (mines s) (board s) (input_board s).

Definition set_board (s : SBoard) (b : list TCell) : SBoard :=
  mkSBoard (curY s) (curX s) (done s) (win s) (lose s) (revealCount s)
           (flagCount s) (height s) (width s) (mines s) b (input_board s).

Definition set_input_board (s : SBoard) (b : list TCell) : SBoard :=
  mkSBoard (curY s) (curX s) (done s) (win s) (lose s) (revealCount s)
           (flagCount s) (height s) (width s) (mines s) (board s) b.

(** [is_valid]: the cell location is in range. *)
Definition is_valid (s : SBoard) (y x : TCell) : bool :=
  (0 <=? y) && (y <? height s) && (0 <=? x) && (x <? width s).

(** The flat index [x * height + y], computed in [int]. *)
Definition idx (s : SBoard) (y x : TCell) : nat := Z.to_nat (x * height s + y).

(** An array read.  Under [is_valid] the index is inside the allocation, so
    the default is never returned on a board built by [init]. *)
Definition rd (a : list TCell) (i : nat) : TCell := default BLANK (a !! i).

Definition get (s : SBoard) (y x : TCell) : TCell :=
  if is_valid s y x then rd (board s) (idx s y x) else ERROR.

Definition set (s : SBoard) (y x val : TCell) : SBoard :=
  if is_valid s y x then set_board s (<[idx s y x := val]> (board s)) else s.

Definition geti (s : SBoard) (y x : TCell) : TCell :=
  if is_valid s y x then rd (input_board s) (idx s y x) else ERROR.

Definition seti (s : SBoard) (y x val : TCell) : SBoard :=
  if is_valid s y x then set_input_board s (<[idx s y x := val]> (input_board s))
  else s.

(** ** Loops *)

(** [for (TCell i = start; cond(i); ++i) body]: the counter is narrowed to
    [int8_t] after every increment. *)
Fixpoint for_TCell {St : Type} (fuel : nat) (cond : Z → bool)
    (body : Z → St → option St) (i : TCell) (st : St) : option St :=
  match fuel with
  | O => None
  | S fuel' =>
      if cond i then
        match body i st with
        | Some st' => for_TCell fuel' cond body (wrap8 (i + 1)) st'
        | None => None
        end
      else Some st
  end.

(** The double loop over the 3x3 block around [(y, x)]:
    [for (TCell h = y-1; h <= y+1; ++h) for (TCell w = x-1; w <= x+1; ++w)].
    The bounds [y+1] and [x+1] are [int]s, the counters are [TCell]s. *)
Definition for_block {St : Type} (fuel : nat) (y x : TCell)
    (body : Z → Z → St → option St) (st : St) : option St :=
  for_TCell fuel (λ h, h <=? y + 1)
    (λ h st1,
       for_TCell fuel (λ w, w <=? x + 1) (λ w st2, body h w st2)
         (wrap8 (x - 1)) st1)
    (wrap8 (y - 1)) st.

(** ** Neighbour counts *)

Definition count_cell (s : SBoard) (y x h w : TCell) (count : TCell) : TCell :=
  if is_valid s h w && negb ((h =? y) && (w =? x)) then
    if get s h w =? MINE then wrap8 (count + 1) else count
  else count.

Definition count_neighbors (fuel : nat) (s : SBoard) (y x : TCell) : option TCell :=
  for_block fuel y x (λ h w count, Some (count_cell s y x h w count)) 0.

(** ** Initialisation *)

(** The mine placement loop [while (minesAdded < mines)]. *)
Fixpoint place_mines (fuel : nat) (minesAdded : TCell) (s : SBoard)
    (rs : list Z) : option (SBoard * list Z) :=
  match fuel with
  | O => None
  | S fuel' =>
      if minesAdded <? mines s then
        match random 0 (height s) rs with
        | None => None
        | Some (y, rs1) =>
            match random 0 (width s) rs1 with
            | None => None
            | Some (x, rs2) =>
                if get s y x =? 0
                then place_mines fuel' (wrap8 (minesAdded + 1)) (set s y x MINE) rs2
                else place_mines fuel' minesAdded s rs2
            end
        end
      else Some (s, rs)
  end.

(** One step of the count loop: [if (get(h,w) != MINE) set(h,w,count+'0')]. *)
Definition fill_cell (fuel : nat) (h w : TCell) (s : SBoard) : option SBoard :=
  if negb (get s h w =? MINE) then
    match count_neighbors fuel s h w with
    | Some c => Some (set s h w (wrap8 (c + ZERO_CHAR)))
    | None => None
    end
  else Some s.

Definition fill_counts (fuel : nat) (s : SBoard) : option SBoard :=
  for_TCell fuel (λ h, h <? height s)
    (λ h s', for_TCell fuel (λ w, w <? width s) (fill_cell fuel h) 0 s')
    0 s.

(** The state [init] starts from: flags and counters reset, both arrays
    allocated and zeroed.  The cursor is kept. *)
Definition cleared (s : SBoard) : SBoard :=
  mkSBoard (curY s) (curX s) false false false 0 0
           (height s) (width s) (mines s)
           (replicate (Z.to_nat (width s * height s)) BLANK)
           (replicate (Z.to_nat (width s * height s)) BLANK).

Definition init (fuel : nat) (s : SBoard) (rs : list Z) : option (SBoard * list Z) :=
  match place_mines fuel 0 (cleared s) rs with
  | None => None
  | Some (s1, rs1) =>
      match fill_counts fuel s1 with
      | None => None
      | Some s2 => Some (s2, rs1)
      end
  end.

(** The constructor [SBoard(height, width, mines, ...)]. *)
Definition SBoard_new (fuel : nat) (h w m : TCell) (rs : list Z)
    : option (SBoard * list Z) :=
  init fuel (mkSBoard 0 0 false false false 0 0 h w m [] []) rs.

(** ** Reveal *)

Definition max_reveal (s : SBoard) : TCell :=
  wrap8 (height s * width s - mines s).

Definition is_done (s : SBoard) : bool := done s.

(** The state threaded through the flood fill: the board and the log of
    visited cells.  The log is ghost state: a cell is logged when [r_reveal]
    gets past the [is_done] and [FLAGGED] guards for it. *)
Definition RState : Type := SBoard * list (Z * Z).

(** [if (geti(y,x) != REVEAL) { seti(y,x,REVEAL); ++revealCount; }] *)
Definition mark (s : SBoard) (y x : TCell) : SBoard :=
  if negb (geti s y x =? REVEAL)
  then set_revealCount (seti s y x REVEAL) (wrap8 (revealCount s + 1))
  else s.

Fixpoint r_reveal (fuel : nat) (y x : TCell) (st : RState) : option RState :=
  match fuel with
  | O => None
  | S fuel' =>
      let '(s, log) := st in
      if negb (is_done s) then
        if geti s y x =? FLAGGED then Some st
        else
          let s1 := mark s y x in
          let log1 := log ++ [(y, x)] in
          if get s1 y x =? MINE then Some (set_outcome s1 true false true, log1)
          else if revealCount s1 >=? max_reveal s1
          then Some (set_outcome s1 true true false, log1)
          else if get s1 y x =? ZERO_CHAR then
            for_block fuel' y x
              (λ h w st2,
                 if is_valid (st2.1) h w && negb ((h =? y) && (w =? x))
                    && negb (geti (st2.1) h w =? REVEAL)
                 then r_reveal fuel' h w st2
                 else Some st2)
              (s1, log1)
          else Some (s1, log1)
      else Some st
  end.

(** The loop [while (revealCount == 0 && get(curY, curX) == MINE) init();]. *)
Fixpoint first_safe (fuel : nat) (s : SBoard) (rs : list Z)
    : option (SBoard * list Z) :=
  match fuel with
  | O => None
  | S fuel' =>
      if (revealCount s =? 0) && (get s (curY s) (curX s) =? MINE) then
        match init fuel' s rs with
        | Some (s', rs') => first_safe fuel' s' rs'
        | None => None
        end
      else Some (s, rs)
  end.

Definition reveal (fuel : nat) (s : SBoard) (rs : list Z)
    : option (SBoard * list Z) :=
  match first_safe fuel s rs with
  | None => None
  | Some (s1, rs1) =>
      match r_reveal fuel (curY s1) (curX s1) (s1, []) with
      | Some (s2, _) => Some (s2, rs1)
      | None => None
      end
  end.

(** ** Flag, quit, move *)

Definition flag (s : SBoard) : SBoard :=
  if geti s (curY s) (curX s) =? BLANK then
    set_flagCount (seti s (curY s) (curX s) FLAGGED) (wrap8 (flagCount s + 1))
  else if geti s (curY s) (curX s) =? FLAGGED then
    set_flagCount (seti s (curY s) (curX s) BLANK) (wrap8 (flagCount s - 1))
  else s.

Definition quit (s : SBoard) : SBoard := set_outcome s true (win s) (lose s).

Definition move_cur (dy dx : TCell) (s : SBoard) : SBoard :=
  let newY := wrap8 (dy + curY s) in
  let newX := wrap8 (dx + curX s) in
  if is_valid s newY newX then set_cur s newY newX else s.

(** The outcome shown to the player ([status()]). *)
Inductive Outcome := Playing | Won | Lost | Aborted.

Definition status (s : SBoard) : Outcome :=
  if lose s then Lost else if win s then Won
  else if done s then Aborted else Playing.

(** ** Commands and reachable states *)

(** The engine commands of the main loop's [switch]. *)
Inductive Cmd :=
| CMove (dy dx : TCell)
| CReveal
| CFlag
| CQuit.

Definition exec (fuel : nat) (c : Cmd) (s : SBoard) (rs : list Z)
    : option (SBoard * list Z) :=
  match c with
  | CMove dy dx => Some (move_cur dy dx s, rs)
  | CReveal => reveal fuel s rs
  | CFlag => Some (flag s, rs)
  | CQuit => Some (quit s, rs)
  end.

Fixpoint run (fuel : nat) (cs : list Cmd) (s : SBoard) (rs : list Z)
    : option (SBoard * list Z) :=
  match cs with
  | [] => Some (s, rs)
  | c :: cs' =>
      match exec fuel c s rs with
      | Some (s', rs') => run fuel cs' s' rs'
      | None => None
      end
  end.

(** The configurations the engine is specified for; all three values are
    [TCell]s. *)
Definition valid_config (h w m : Z) : Prop :=
  1 ≤ h ≤ 127 ∧ 1 ≤ w ≤ 127 ∧ 0 ≤ m < h * w ∧ m ≤ 127.

(** States the engine reaches from a constructed board by its commands. *)
Inductive reachable : SBoard → Prop :=
| reach_new fuel h w m rs s rs' :
    valid_config h w m →
    SBoard_new fuel h w m rs = Some (s, rs') →
    reachable s
| reach_exec fuel c s rs s' rs' :
    reachable s →
    (∀ dy dx, c = CMove dy dx → int8 dy ∧ int8 dx) →
    exec fuel c s rs = Some (s', rs') →
    reachable s'.

(** ** Specification-level notions *)

(** The eight cells around [(y, x)]. *)
Definition neighbours (y x : Z) : list (Z * Z) :=
  [(y - 1, x - 1); (y - 1, x); (y - 1, x + 1);
   (y, x - 1); (y, x + 1);
   (y + 1, x - 1); (y + 1, x); (y + 1, x + 1)].

Definition mine_at (s : SBoard) (c : Z * Z) : Z :=
  if is_valid s c.1 c.2 && (get s c.1 c.2 =? MINE) then 1 else 0.

(** The number of in-bounds neighbours of [(y, x)] that hold a mine. *)
Definition true_count (s : SBoard) (y x : Z) : Z :=
  foldr (λ c n, mine_at s c + n) 0 (neighbours y x).

(** The number of array slots that hold [v]. *)
Fixpoint occurrences (v : TCell) (a : list TCell) : Z :=
  match a with
  | [] => 0
  | u :: a' => (if u =? v then 1 else 0) + occurrences v a'
  end.

Definition count_mines (s : SBoard) : Z := occurrences MINE (board s).

(** Well-formed boards: dimensions in the positive [TCell] range and both
    arrays of [width * height] slots. *)
Record wf (s : SBoard) : Prop := mk_wf {
  wf_height : 1 ≤ height s ≤ 127;
  wf_width : 1 ≤ width s ≤ 127;
  wf_board : length (board s) = Z.to_nat (width s * height s);
  wf_input : length (input_board s) = Z.to_nat (width s * height s)
}.

(** ** The field window *)

(** The character literals of [update_field]. *)
Definition CHAR_1 : TCell := 49.
Definition CHAR_8 : TCell := 56.
Definition SPACE : TCell := 32.
Definition DOT : TCell := 46.

(** The ncurses calls [update_field] makes on the field window, with their
    arguments as the source passes them: a character is the [TCell] given to
    [mvwaddch], an attribute is the number [n] of [COLOR_PAIR(n)]. *)
Inductive Call :=
| wattron (pair : Z)
| wattroff (pair : Z)
| mvwaddch (y x ch : Z)
| wmove (y x : Z)
| wrefresh.

(** The body of the first pair of loops: the calls for the cell [(y, x)]. *)
Definition draw_cell (has_colors : bool) (s : SBoard) (y x : TCell)
    : list Call :=
  let val := get s y x in
  let ival := geti s y x in
  if ival =? FLAGGED then [mvwaddch y x FLAGGED]
  else if ival =? REVEAL then
    if (val >=? CHAR_1) && (val <=? CHAR_8) then
      (if has_colors then [wattron (val - ZERO_CHAR)] else [])
      ++ [mvwaddch y x val]
      ++ (if has_colors then [wattroff (val - ZERO_CHAR)] else [])
    else if val =? ZERO_CHAR then [mvwaddch y x SPACE]
    else [mvwaddch y x val]
  else [mvwaddch y x DOT].

(** The body of the second pair of loops, run when the game is lost. *)
Definition draw_lost_cell (has_colors : bool) (s : SBoard) (h w : TCell)
    : list Call :=
  let val := get s h w in
  let ival := geti s h w in
  (if val =? MINE then
     if negb (ival =? FLAGGED) then
       let here := has_colors && (curY s =? h) && (curX s =? w) in
       (if here then [wattron 3] else [])
       ++ [mvwaddch h w MINE]
       ++ (if here then [wattroff 3] else [])
     else []
   else [])
  ++ (if negb (val =? MINE) && (ival =? FLAGGED)
      then [mvwaddch h w WRONG_FLAG] else []).

(** [for (TCell y = 0; y < height; ++y) for (TCell x = 0; x < width; ++x)]
    with a body that makes the calls [body y x]; the calls are appended to
    those made so far. *)
Definition for_grid (fuel : nat) (s : SBoard)
    (body : TCell → TCell → list Call) (out : list Call) : option (list Call) :=
  for_TCell fuel (λ y, y <? height s)
    (λ y out1,
       for_TCell fuel (λ x, x <? width s)
         (λ x out2, Some (out2 ++ body y x)) 0 out1)
    0 out.

(** [update_field()]: the calls it makes, in order. *)
Definition update_field (fuel : nat) (has_colors : bool) (s : SBoard)
    : option (list Call) :=
  match for_grid fuel s (draw_cell has_colors s) [] with
  | None => None
  | Some out1 =>
      match (if lose s
             then for_grid fuel s (draw_lost_cell has_colors s) out1
             else Some out1) with
      | None => None
      | Some out2 => Some (out2 ++ [wmove (curY s) (curX s); wrefresh])
      end
  end.

(** ** The main loop *)

(** The key codes of [<ncurses.h>] and the characters of the [switch]. *)
Definition KEY_DOWN : Z := 258.
Definition KEY_UP : Z := 259.
Definition KEY_LEFT : Z := 260.
Definition KEY_RIGHT : Z := 261.
Definition CHAR_j : Z := 106.
Definition CHAR_k : Z := 107.
Definition CHAR_h : Z := 104.
Definition CHAR_l : Z := 108.
Definition CHAR_f : Z := 102.
Definition CHAR_q : Z := 113.

(** The [switch (key)] of the main loop: the command a key stands for.  Any
    other value of [wgetch], its time-out [ERR] included, stands for none. *)
Definition key_cmd (key : Z) : option Cmd :=
  if (key =? KEY_DOWN) || (key =? CHAR_j) then Some (CMove 1 0)
  else if (key =? KEY_UP) || (key =? CHAR_k) then Some (CMove (-1) 0)
  else if (key =? KEY_LEFT) || (key =? CHAR_h) then Some (CMove 0 (-1))
  else if (key =? KEY_RIGHT) || (key =? CHAR_l) then Some (CMove 0 1)
  else if key =? SPACE then Some CReveal
  else if key =? CHAR_f then Some CFlag
  else if key =? CHAR_q then Some CQuit
  else None.

Definition key_step (fuel : nat) (key : Z) (s : SBoard) (rs : list Z)
    : option (SBoard * list Z) :=
  match key_cmd key with
  | Some c => exec fuel c s rs
  | None => Some (s, rs)
  end.

(** [update()].  [update_score()] prints the help text, the counters and the
    clock on the score window; it reads the board and changes nothing, and
    its output is not recorded.  The calls of [update_field()] are added to
    the frames drawn so far. *)
Definition update (fuel : nat) (has_colors : bool) (s : SBoard)
    (frames : list (list Call)) : option (list (list Call)) :=
  match update_field fuel has_colors s with
  | Some out => Some (frames ++ [out])
  | None => None
  end.

(** The main loop [while (!board.is_done())] on the values [wgetch]
    returns.  The list of keys is finite: the run ends when the game is done
    or the keys are used up, and gives back the keys it has not read. *)
Fixpoint main_loop (fuel : nat) (has_colors : bool) (keys : list Z)
    (s : SBoard) (rs : list Z) (frames : list (list Call))
    : option (SBoard * list Z * list (list Call) * list Z) :=
  match keys with
  | [] => Some (s, rs, frames, [])
  | key :: keys' =>
      if is_done s then Some (s, rs, frames, keys)
      else
        match key_step fuel key s rs with
        | None => None
        | Some (s', rs') =>
            match update fuel has_colors s' frames with
            | None => None
            | Some frames' => main_loop fuel has_colors keys' s' rs' frames'
            end
        end
  end.

(** [minesweeper(height, width, mines)]: the board is constructed and drawn,
    then the main loop runs.  The set-up and tear-down of ncurses ([initscr],
    the colour pairs, the two windows, the time-out of [wgetch], [endwin])
    touch neither the board nor the content of the field window and are
    left out. *)
Definition minesweeper (fuel : nat) (has_colors : bool) (h w m : TCell)
    (rs : list Z) (keys : list Z)
    : option (SBoard * list Z * list (list Call) * list Z) :=
  match SBoard_new fuel h w m rs with
  | None => None
  | Some (s, rs') =>
      match update fuel has_colors s [] with
      | None => None
      | Some frames => main_loop fuel has_colors keys s rs' frames
      end
  end.

(** ** The command line *)

Definition CHAR_b : Z := 98.
Definition CHAR_i : Z := 105.
Definition CHAR_e : Z := 101.
Definition EXIT_SUCCESS : Z := 0.
Definition EXIT_FAILURE : Z := 1.

(** One round of the [getopt] loop of [main] on the value [opt] that
    [getopt(argc, argv, "bie")] returned; the state is [bFlag], [iFlag],
    [eFlag], [flagErr] and the [int flagCount]. *)
Definition parse_opt (st : bool * bool * bool * bool * Z) (opt : Z)
    : bool * bool * bool * bool * Z :=
  let '(bFlag, iFlag, eFlag, flagErr, count) := st in
  if opt =? CHAR_b then (true, iFlag, eFlag, flagErr, count + 1)
  else if opt =? CHAR_i then (bFlag, true, eFlag, flagErr, count + 1)
  else if opt =? CHAR_e then (bFlag, iFlag, true, flagErr, count + 1)
  else (bFlag, iFlag, eFlag, true, count).

(** What [main] goes on to do: print the usage text and fail, play a game,
    or fall through the [if] chain without playing. *)
Inductive Mode :=
| Usage
| Play (h w m : TCell)
| NoGame.

Definition main_mode (opts : list Z) : Mode :=
  let '(bFlag, iFlag, eFlag, flagErr, count) :=
    foldl parse_opt (false, false, false, false, 0) opts in
  if flagErr || (count >? 1) then Usage
  else if bFlag || (count =? 0) then Play 8 8 10
  else if iFlag then Play 16 16 40
  else if eFlag then Play 16 30 99
  else NoGame.

(** [main]: the exit code and the frames drawn, on the options [getopt]
    returns, the oracle of [rand()] after [srand(time(0))] and the keys. *)
Definition main (fuel : nat) (has_colors : bool) (opts : list Z)
    (rs : list Z) (keys : list Z) : option (Z * list (list Call)) :=
  match main_mode opts with
  | Usage => Some (EXIT_FAILURE, [])
  | Play h w m =>
      match minesweeper fuel has_colors h w m rs keys with
      | Some (_, _, frames, _) => Some (EXIT_SUCCESS, frames)
      | None => None
      end
  | NoGame => Some (EXIT_SUCCESS, [])
  end.

(** * Notions used in the statements and proofs *)

(** ** Loops unrolled *)

(** Running a step on each cell of a list, in order. *)
Fixpoint seq_steps {St : Type} (step : Z * Z → St → option St) (cs : list (Z * Z))
    (st : St) : option St :=
  match cs with
  | [] => Some st
  | c :: cs' =>
      match step c st with
      | Some st' => seq_steps step cs' st'
      | None => None
      end
  end.

(** The 3x3 block around [(y, x)] in the order the double loop visits it. *)
Definition block (y x : Z) : list (Z * Z) :=
  [(y - 1, x - 1); (y - 1, x); (y - 1, x + 1);
   (y, x - 1); (y, x); (y, x + 1);
   (y + 1, x - 1); (y + 1, x); (y + 1, x + 1)].

(** ** Initialised boards *)

(** [s'] differs from [s] in the mine layer only. *)
Definition board_frame (s s' : SBoard) : Prop := s' = set_board s (board s').

(** What holds when the count pass has reached cell [(h, w)]: the mines are
    those of the board [s] it started from, and the non-mine cells before
    [(h, w)] hold their digit. *)
Record filled_upto (s : SBoard) (h w : Z) (cur : SBoard) : Prop := mk_filled {
  fu_wf : wf cur;
  fu_frame : board_frame s cur;
  fu_mines : ∀ y x, get cur y x = MINE ↔ get s y x = MINE;
  fu_count : count_mines cur = count_mines s;
  fu_digits : ∀ y x,
    is_valid s y x = true → get s y x ≠ MINE →
    y < h ∨ (y = h ∧ x < w) →
    get cur y x = ZERO_CHAR + true_count s y x ∧ y ≤ 125 ∧ x ≤ 125
}.

(** The mine layer is consistent: [mines] cells are mines and every other
    cell holds the digit of its neighbour count.  A digit cell never lies in
    row or column 126 (the count loop would not have returned for it). *)
Record board_ok (s : SBoard) : Prop := mk_board_ok {
  bo_count : count_mines s = mines s;
  bo_digits : ∀ y x,
    is_valid s y x = true → get s y x ≠ MINE →
    get s y x = ZERO_CHAR + true_count s y x ∧ y ≤ 125 ∧ x ≤ 125
}.

(** A freshly initialised game. *)
Record fresh (s : SBoard) : Prop := mk_fresh {
  fr_done : done s = false;
  fr_win : win s = false;
  fr_lose : lose s = false;
  fr_reveal : revealCount s = 0;
  fr_flag : flagCount s = 0;
  fr_blank : ∀ y x, is_valid s y x = true → geti s y x = BLANK
}.

(** An oracle of [rand()] that places [n] mines column by column on a grid
    of height [h]: the draws for mine [k] are row [k mod h], column
    [k / h]. *)
Definition column_oracle (h : Z) (n : nat) : list Z :=
  flat_map (λ k, [Z.of_nat k `mod` h; Z.of_nat k `div` h]) (seq 0 n).

(** ** The flood fill *)

(** The test that guards the recursive call on a cell of the block. *)
Definition nb_guard (y x : Z) (c : Z * Z) (s : SBoard) : bool :=
  is_valid s c.1 c.2 && negb ((c.1 =? y) && (c.2 =? x))
  && negb (geti s c.1 c.2 =? REVEAL).

(** The step the double loop of [r_reveal] runs on a cell of the block. *)
Definition nb_step (fuel : nat) (y x : Z) (c : Z * Z) (st : RState)
    : option RState :=
  if nb_guard y x c st.1 then r_reveal fuel c.1 c.2 st else Some st.

(** A sequence of related steps over a list of cells. *)
Inductive Steps (R : Z * Z → RState → RState → Prop)
    : list (Z * Z) → RState → RState → Prop :=
| Steps_nil st : Steps R [] st st
| Steps_cons c cs st st1 st2 :
    R c st st1 → Steps R cs st1 st2 → Steps R (c :: cs) st st2.

(** What the double loop does to a cell of the block, given what a call
    does: cells that fail the guard are skipped. *)
Definition nb_rel (P : Z → Z → RState → RState → Prop) (y x : Z)
    (c : Z * Z) (st st' : RState) : Prop :=
  if nb_guard y x c st.1 then P c.1 c.2 st st' else st' = st.

(** [grows s s']: [s'] is [s] after some fill steps.  Only the visibility
    layer, [revealCount] and the outcome change; a cell of the visibility
    layer changes only from unrevealed and unflagged to [REVEAL]; a decided
    game stays decided. *)
Record grows (s s' : SBoard) : Prop := mk_grows {
  g_height : height s' = height s;
  g_width : width s' = width s;
  g_mines : mines s' = mines s;
  g_board : board s' = board s;
  g_curY : curY s' = curY s;
  g_curX : curX s' = curX s;
  g_flag : flagCount s' = flagCount s;
  g_vis : ∀ y x,
    geti s' y x = geti s y x ∨
    (geti s y x ≠ REVEAL ∧ geti s y x ≠ FLAGGED ∧ geti s' y x = REVEAL);
  g_done : done s' = false → done s = false
}.

(** ** Invariants of the reachable states *)

(** [s'] has the mine layer of [s]. *)
Record same_layer (s s' : SBoard) : Prop := mk_same_layer {
  sl_height : height s' = height s;
  sl_width : width s' = width s;
  sl_mines : mines s' = mines s;
  sl_board : board s' = board s
}.

(** The counters and the outcome fit together. *)
Record counters_ok (s : SBoard) : Prop := mk_counters_ok {
  co_range : 0 ≤ revealCount s ≤ 127;
  co_playing : done s = false → revealCount s = 0 ∨ revealCount s < max_reveal s;
  co_none : revealCount s = 0 → ∀ y x, geti s y x ≠ REVEAL;
  co_outcome : win s = true ∨ lose s = true → done s = true ∧ revealCount s ≠ 0
}.

(** The invariant of the reachable states. *)
Record inv (s : SBoard) : Prop := mk_inv {
  inv_wf : wf s;
  inv_mines : 0 ≤ mines s ≤ 127;
  inv_board : board_ok s;
  inv_cursor : is_valid s (curY s) (curX s) = true;
  inv_counters : counters_ok s
}.

(** No mine lies next to a zero cell. *)
Definition safe_zero (s : SBoard) : Prop :=
  ∀ y x c, get s y x = ZERO_CHAR → c ∈ neighbours y x → get s c.1 c.2 ≠ MINE.

(** [s'] has the dimensions, the mine count and the cursor of [s]. *)
Record same_game (s s' : SBoard) : Prop := mk_same_game {
  sg_height : height s' = height s;
  sg_width : width s' = width s;
  sg_mines : mines s' = mines s;
  sg_curY : curY s' = curY s;
  sg_curX : curX s' = curX s
}.

(** A decidable form of the side condition on moves. *)
Definition cmd_ok (c : Cmd) : bool :=
  match c with
  | CMove dy dx => (-128 <=? dy) && (dy <=? 127) && (-128 <=? dx) && (dx <=? 127)
  | _ => true
  end.

(** A walk over a grid of height 16 that flags [n] cells column by column,
    and ends on the cell after the last flagged one. *)
Definition flag_walk (n : nat) : list Cmd :=
  flat_map (λ k, [CFlag;
                  if (k `mod` 16 =? 15)%nat then CMove (-15) 1 else CMove 1 0])
           (seq 0 n).

(** ** Visits and regions of a fill *)

(** The number of revealed slots of the visibility layer. *)
Definition revealed (s : SBoard) : Z := occurrences REVEAL (input_board s).

(** The cells of the grid. *)
Definition cells (s : SBoard) : list (Z * Z) :=
  list_prod (seqZ 0 (height s)) (seqZ 0 (width s)).

(** What the log of a call holds: the cells the call got past its guards
    for.  Each is in the grid and revealed afterwards, and each but the
    cell of the call itself was unrevealed before; no cell occurs twice. *)
Definition log_ok (y x : Z) (st st' : RState) : Prop :=
  ∃ t, st'.2 = st.2 ++ t ∧ NoDup t ∧
       ∀ c, c ∈ t →
            is_valid st.1 c.1 c.2 = true ∧
            geti st'.1 c.1 c.2 = REVEAL ∧
            (c = (y, x) ∨ geti st.1 c.1 c.2 ≠ REVEAL).

(** The log while the double loop runs from the state [s0] with the log
    [base]: the cells logged since were unrevealed in [s0]. *)
Definition log_inv (s0 : SBoard) (base : list (Z * Z)) (st : RState) : Prop :=
  grows s0 st.1 ∧
  ∃ t, st.2 = base ++ t ∧ NoDup t ∧
       ∀ c, c ∈ t →
            is_valid s0 c.1 c.2 = true ∧
            geti st.1 c.1 c.2 = REVEAL ∧
            geti s0 c.1 c.2 ≠ REVEAL.

(** Digit cells lie where the block loops return. *)
Definition zero_in_range (s : SBoard) : Prop :=
  ∀ y x, get s y x = ZERO_CHAR → y ≤ 125 ∧ x ≤ 125.

(** The slots that are not revealed: the measure of the fill. *)
Definition unrevealed (s : SBoard) : Z :=
  Z.of_nat (length (input_board s)) - revealed s.

(** [revealCount] is the number of revealed slots. *)
Definition count_ok (s : SBoard) : Prop :=
  counters_ok s ∧ revealCount s = revealed s.

(** The cells a fill started on [(y0, x0)] reaches in the state [s]: the
    start cell, and every cell of the grid next to a reached zero cell that
    is neither revealed nor flagged in [s]. *)
Inductive fill_reach (s : SBoard) (y0 x0 : Z) : Z * Z → Prop :=
| fill_start : fill_reach s y0 x0 (y0, x0)
| fill_step z c :
    fill_reach s y0 x0 z →
    get s z.1 z.2 = ZERO_CHAR →
    c ∈ neighbours z.1 z.2 →
    is_valid s c.1 c.2 = true →
    geti s c.1 c.2 ≠ REVEAL →
    geti s c.1 c.2 ≠ FLAGGED →
    fill_reach s y0 x0 c.

(** The region of the claim, after the specification's words: the zero
    cells 8-connected to the start through zero cells, with the cells around
    them, flagged cells excepted.  Cells revealed earlier do not stop it. *)
Inductive spec_region (s : SBoard) (y0 x0 : Z) : Z * Z → Prop :=
| spec_start : spec_region s y0 x0 (y0, x0)
| spec_step z c :
    spec_region s y0 x0 z →
    get s z.1 z.2 = ZERO_CHAR →
    c ∈ neighbours z.1 z.2 →
    is_valid s c.1 c.2 = true →
    geti s c.1 c.2 ≠ FLAGGED →
    spec_region s y0 x0 c.

(** Every cell around [z] is revealed or flagged. *)
Definition closed_at (s : SBoard) (z : Z * Z) : Prop :=
  ∀ c, c ∈ neighbours z.1 z.2 → is_valid s c.1 c.2 = true →
       geti s c.1 c.2 = REVEAL ∨ geti s c.1 c.2 = FLAGGED.

(** Soundness: a fill reveals reached cells only. *)
Definition fill_sound (y x : Z) (st st' : RState) : Prop :=
  ∀ c, geti st'.1 c.1 c.2 = REVEAL →
       geti st.1 c.1 c.2 = REVEAL ∨
       (geti st.1 y x ≠ FLAGGED ∧ fill_reach st.1 y x c).

(** Closure: when a call returns with the game undecided, its cell is
    revealed (unless flagged), and around every zero cell it revealed, and
    around its own cell, every cell is revealed or flagged. *)
Definition fill_closed (y x : Z) (st st' : RState) : Prop :=
  done st'.1 = false →
  (is_valid st.1 y x = true → geti st.1 y x ≠ FLAGGED →
   geti st'.1 y x = REVEAL) ∧
  (∀ z, (z = (y, x) ∧ geti st.1 y x ≠ FLAGGED) ∨
        (geti st.1 z.1 z.2 ≠ REVEAL ∧ geti st'.1 z.1 z.2 = REVEAL) →
        get st.1 z.1 z.2 = ZERO_CHAR → closed_at st'.1 z).

(** The closure while the double loop runs from the state [s1]. *)
Definition closed_inv (s1 : SBoard) (st : RState) : Prop :=
  grows s1 st.1 ∧
  (done st.1 = false →
   ∀ z, geti s1 z.1 z.2 ≠ REVEAL → geti st.1 z.1 z.2 = REVEAL →
        get s1 z.1 z.2 = ZERO_CHAR → closed_at st.1 z).

(** ** More invariants of the reachable states *)

(** The number of flagged slots of the visibility layer. *)
Definition flagged (s : SBoard) : Z := occurrences FLAGGED (input_board s).

(** The outcome flags fit the layers: unless the game is lost no revealed
    cell holds a mine, a lost game has a revealed mine, a won game has
    reached the threshold of [max_reveal], and a game neither won nor lost
    has not. *)
Record outcome_ok (s : SBoard) : Prop := mk_outcome_ok {
  oo_safe : lose s = false → ∀ y x, geti s y x = REVEAL → get s y x ≠ MINE;
  oo_lost : lose s = true → ∃ y x, geti s y x = REVEAL ∧ get s y x = MINE;
  oo_win : win s = true → lose s = false ∧ max_reveal s ≤ revealCount s;
  oo_open : win s = false → lose s = false →
            revealCount s = 0 ∨ revealCount s < max_reveal s
}.

(** The second part of the invariant of the reachable states: the values of
    the visibility layer, the flag counter and the outcome. *)
Record inv2 (s : SBoard) : Prop := mk_inv2 {
  i2_vis : ∀ y x, is_valid s y x = true →
                  geti s y x = BLANK ∨ geti s y x = REVEAL ∨ geti s y x = FLAGGED;
  i2_flag : flagCount s = wrap8 (flagged s);
  i2_room : mines s < height s * width s;
  i2_outcome : outcome_ok s
}.

(** ** Games from a constructed board *)

(** The state a constructor call followed by a list of commands leads to. *)
Definition game (fuel : nat) (h w m : Z) (rs : list Z) (cs : list Cmd)
    : option (SBoard * list Z) :=
  match SBoard_new fuel h w m rs with
  | Some (s, rs') => run fuel cs s rs'
  | None => None
  end.

(** ** What the field window shows *)

(** The character a sequence of calls leaves on the cell [(y, x)] of the
    window: that of the last [mvwaddch] there, if any. *)
Fixpoint screen_char (out : list Call) (y x : Z) : option Z :=
  match out with
  | [] => None
  | c :: out' =>
      match screen_char out' y x with
      | Some ch => Some ch
      | None =>
          match c with
          | mvwaddch y' x' ch => if (y' =? y) && (x' =? x) then Some ch else None
          | _ => None
          end
      end
  end.

(** The character of a cell while the game is not lost. *)
Definition shown_playing (s : SBoard) (y x : Z) : Z :=
  if geti s y x =? FLAGGED then FLAGGED
  else if geti s y x =? REVEAL
       then (if get s y x =? ZERO_CHAR then SPACE else get s y x)
  else DOT.

(** The character of a cell: once the game is lost the unflagged mines and
    the flags off the mines are marked. *)
Definition shown (s : SBoard) (y x : Z) : Z :=
  if lose s && (get s y x =? MINE) && negb (geti s y x =? FLAGGED) then MINE
  else if lose s && negb (get s y x =? MINE) && (geti s y x =? FLAGGED)
       then WRONG_FLAG
  else shown_playing s y x.

(** Two states a player cannot tell apart on the field window: the same
    grid, cursor and visibility layer, and the same values on the revealed
    cells. *)
Record same_view (s s' : SBoard) : Prop := mk_same_view {
  sv_height : height s' = height s;
  sv_width : width s' = width s;
  sv_curY : curY s' = curY s;
  sv_curX : curX s' = curX s;
  sv_input : input_board s' = input_board s;
  sv_revealed : ∀ y x, geti s y x = REVEAL → get s' y x = get s y x
}.

(** The calls that put a mine on the window. *)
Definition shows_mine (out : list Call) : Prop :=
  ∃ y x, mvwaddch y x MINE ∈ out.

(** * Basic facts *)

Lemma wrap8_id z : int8 z → wrap8 z = z.
Proof.
  unfold int8, wrap8. intros Hz.
  rewrite Z.mod_small by lia. lia.
Qed.

Lemma wrap8_int8 z : int8 (wrap8 z).
Proof.
  unfold int8, wrap8.
  pose proof (Z.mod_pos_bound (z + 128) 256). lia.
Qed.

Lemma is_valid_spec s y x :
  is_valid s y x = true ↔ 0 ≤ y < height s ∧ 0 ≤ x < width s.
Proof. unfold is_valid. rewrite !andb_true_iff. lia. Qed.

Lemma is_valid_false s y x :
  is_valid s y x = false ↔ ¬ (0 ≤ y < height s ∧ 0 ≤ x < width s).
Proof.
  rewrite <- is_valid_spec. destruct (is_valid s y x); split; congruence.
Qed.

Lemma idx_lt s y x :
  1 ≤ height s → is_valid s y x = true →
  (idx s y x < Z.to_nat (width s * height s))%nat.
Proof.
  intros Hh Hv. apply is_valid_spec in Hv. unfold idx.
  apply Z2Nat.inj_lt; nia.
Qed.

Lemma idx_inj s y x y' x' :
  is_valid s y x = true → is_valid s y' x' = true →
  idx s y x = idx s y' x' → y = y' ∧ x = x'.
Proof.
  intros Hv Hv' He.
  apply is_valid_spec in Hv. apply is_valid_spec in Hv'.
  unfold idx in He. apply Z2Nat.inj in He; [|nia..].
  assert (x = x') as ->.
  { destruct (Z.lt_trichotomy x x') as [Hlt|[Heq|Hgt]]; [|done|].
    - assert ((x + 1) * height s ≤ x' * height s) by nia. lia.
    - assert ((x' + 1) * height s ≤ x * height s) by nia. lia. }
  lia.
Qed.

Lemma rd_insert_eq (a : list TCell) i v :
  (i < length a)%nat → rd (<[i := v]> a) i = v.
Proof. intros. unfold rd. by rewrite list_lookup_insert_eq. Qed.

Lemma rd_insert_ne (a : list TCell) i j v :
  i ≠ j → rd (<[i := v]> a) j = rd a j.
Proof. intros. unfold rd. by rewrite list_lookup_insert_ne. Qed.

Lemma get_set s y x v y' x' :
  wf s →
  get (set s y x v) y' x' =
    if is_valid s y x && (y =? y') && (x =? x') then v else get s y' x'.
Proof.
  intros [Hh Hw Hb Hi]. unfold get, set.
  destruct (is_valid s y x) eqn:Hv; simpl; [|done].
  change (is_valid (set_board s _) y' x') with (is_valid s y' x').
  change (idx (set_board s _) y' x') with (idx s y' x').
  destruct (Z.eqb_spec y y') as [->|Hy]; simpl.
  - destruct (Z.eqb_spec x x') as [->|Hx]; simpl.
    + rewrite Hv. apply rd_insert_eq. rewrite Hb. apply idx_lt; [lia|done].
    + destruct (is_valid s y' x') eqn:Hv'; [|done].
      apply rd_insert_ne. intros He. apply idx_inj in He; [lia|done..].
  - destruct (is_valid s y' x') eqn:Hv'; [|done].
    apply rd_insert_ne. intros He. apply idx_inj in He; [lia|done..].
Qed.

Lemma geti_seti s y x v y' x' :
  wf s →
  geti (seti s y x v) y' x' =
    if is_valid s y x && (y =? y') && (x =? x') then v else geti s y' x'.
Proof.
  intros [Hh Hw Hb Hi]. unfold geti, seti.
  destruct (is_valid s y x) eqn:Hv; simpl; [|done].
  change (is_valid (set_input_board s _) y' x') with (is_valid s y' x').
  change (idx (set_input_board s _) y' x') with (idx s y' x').
  destruct (Z.eqb_spec y y') as [->|Hy]; simpl.
  - destruct (Z.eqb_spec x x') as [->|Hx]; simpl.
    + rewrite Hv. apply rd_insert_eq. rewrite Hi. apply idx_lt; [lia|done].
    + destruct (is_valid s y' x') eqn:Hv'; [|done].
      apply rd_insert_ne. intros He. apply idx_inj in He; [lia|done..].
  - destruct (is_valid s y' x') eqn:Hv'; [|done].
    apply rd_insert_ne. intros He. apply idx_inj in He; [lia|done..].
Qed.

Lemma get_seti s y x v y' x' : get (seti s y x v) y' x' = get s y' x'.
Proof. unfold seti. by destruct (is_valid s y x). Qed.

Lemma geti_set s y x v y' x' : geti (set s y x v) y' x' = geti s y' x'.
Proof. unfold set. by destruct (is_valid s y x). Qed.

Lemma wf_set s y x v : wf s → wf (set s y x v).
Proof.
  intros [Hh Hw Hb Hi]. unfold set. destruct (is_valid s y x); [|done].
  split; simpl; try done. by rewrite length_insert.
Qed.

Lemma wf_seti s y x v : wf s → wf (seti s y x v).
Proof.
  intros [Hh Hw Hb Hi]. unfold seti. destruct (is_valid s y x); [|done].
  split; simpl; try done. by rewrite length_insert.
Qed.

(** * Loops *)

Section Loops.
Context {St : Type}.
Implicit Types (body : Z → St → option St) (st : St).

(** An invariant of the body is an invariant of the loop. *)
Lemma for_TCell_inv (Inv : St → Prop) fuel cond body :
  (∀ j st1 st2, Inv st1 → body j st1 = Some st2 → Inv st2) →
  ∀ i st st', Inv st → for_TCell fuel cond body i st = Some st' → Inv st'.
Proof.
  intros Hbody. induction fuel as [|fuel IH]; intros i st st' Hst; simpl; [done|].
  destruct (cond i); [|by intros [= <-]].
  destruct (body i st) as [st1|] eqn:Hb; [|done].
  apply IH. eauto.
Qed.

(** A counting loop [for (i = a; i < n; ++i)] whose bound is a [TCell]. *)
Lemma for_lt_inv (Inv : Z → St → Prop) fuel n body :
  n ≤ 127 →
  ∀ a st st',
    -128 ≤ a ≤ n →
    Inv a st →
    (∀ j st1 st2, a ≤ j < n → Inv j st1 → body j st1 = Some st2 → Inv (j + 1) st2) →
    for_TCell fuel (λ i, i <? n) body a st = Some st' → Inv n st'.
Proof.
  intros Hn. induction fuel as [|fuel IH]; intros a st st' Ha Hst Hbody; simpl; [done|].
  destruct (Z.ltb_spec a n) as [Hlt|Hge].
  - destruct (body a st) as [st1|] eqn:Hb; [|done].
    rewrite wrap8_id by (unfold int8; lia).
    apply IH; [lia|apply (Hbody a st); [lia|done..]|].
    intros j st2 st3 Hj. apply Hbody. lia.
  - intros [= <-]. by replace n with a by lia.
Qed.

Lemma for_lt_total (Inv : Z → St → Prop) fuel n body :
  n ≤ 127 →
  ∀ a st,
    -128 ≤ a ≤ n →
    (Z.to_nat (n - a) < fuel)%nat →
    Inv a st →
    (∀ j st1, a ≤ j < n → Inv j st1 → ∃ st2, body j st1 = Some st2 ∧ Inv (j + 1) st2) →
    ∃ st', for_TCell fuel (λ i, i <? n) body a st = Some st' ∧ Inv n st'.
Proof.
  intros Hn. induction fuel as [|fuel IH]; intros a st Ha Hf Hst Hbody; simpl; [lia|].
  destruct (Z.ltb_spec a n) as [Hlt|Hge].
  - destruct (Hbody a st) as (st1 & -> & Hst1); [lia|done|].
    rewrite wrap8_id by (unfold int8; lia).
    apply IH; [lia|lia|done|].
    intros j st2 Hj. apply Hbody. lia.
  - exists st. split; [done|]. by replace n with a by lia.
Qed.

(** A counting loop does not return when its body does not return at some
    index on the way. *)
Lemma for_lt_stuck (Inv : Z → St → Prop) fuel n k body :
  n ≤ 127 → k < n →
  (∀ st, Inv k st → body k st = None) →
  ∀ a st,
    -128 ≤ a ≤ k →
    Inv a st →
    (∀ j st1 st2, a ≤ j < k → Inv j st1 → body j st1 = Some st2 → Inv (j + 1) st2) →
    for_TCell fuel (λ i, i <? n) body a st = None.
Proof.
  intros Hn Hk Hstuck.
  induction fuel as [|fuel IH]; intros a st Ha Hst Hbody; simpl; [done|].
  destruct (Z.ltb_spec a n) as [Hlt|Hge]; [|lia].
  destruct (decide (a = k)) as [->|Hne]; [by rewrite Hstuck|].
  destruct (body a st) as [st1|] eqn:Hb; [|done].
  rewrite wrap8_id by (unfold int8; lia).
  apply IH; [lia|apply (Hbody a st); [lia|done..]|].
  intros j st2 st3 Hj. apply Hbody. lia.
Qed.

(** A loop whose condition holds for every [TCell] value never ends. *)
Lemma for_TCell_diverges fuel cond body :
  (∀ i, int8 i → cond i = true) →
  ∀ i st, int8 i → for_TCell fuel cond body i st = None.
Proof.
  intros Hc. induction fuel as [|fuel IH]; intros i st Hi; simpl; [done|].
  rewrite Hc by done. destruct (body i st); [|done].
  apply IH, wrap8_int8.
Qed.

(** The three iterations of [for (w = x-1; w <= x+1; ++w)]. *)
Lemma for_three fuel x body st :
  0 ≤ x ≤ 125 →
  for_TCell fuel (λ w, w <=? x + 1) body (wrap8 (x - 1)) st =
    if (4 <=? fuel)%nat
    then (body (x - 1) st ≫= body x) ≫= body (x + 1)
    else None.
Proof.
  intros Hx. rewrite wrap8_id by (unfold int8; lia).
  assert (∀ k, k ≤ x + 1 → (k <=? x + 1) = true) as Hle by (intros; lia).
  assert (wrap8 (x - 1 + 1) = x) as E1 by (rewrite wrap8_id; unfold int8; lia).
  assert (wrap8 (x + 1) = x + 1) as E2 by (rewrite wrap8_id; unfold int8; lia).
  assert (wrap8 (x + 1 + 1) = x + 2) as E3 by (rewrite wrap8_id; unfold int8; lia).
  assert ((x + 2 <=? x + 1) = false) as E4 by lia.
  destruct fuel as [|fuel]; simpl; [done|].
  rewrite (Hle (x - 1)) by lia.
  destruct (body (x - 1) st) as [st1|]; simpl; [|by case_match].
  rewrite E1.
  destruct fuel as [|fuel]; simpl; [done|].
  rewrite (Hle x) by lia.
  destruct (body x st1) as [st2|]; simpl; [|by case_match].
  rewrite E2.
  destruct fuel as [|fuel]; simpl; [done|].
  rewrite (Hle (x + 1)) by lia.
  destruct (body (x + 1) st2) as [st3|]; simpl; [|by case_match].
  rewrite E3.
  destruct fuel as [|fuel]; simpl; [done|].
  by rewrite E4.
Qed.

(** At index 126 the bound [x + 1] is [INT8_MAX] and the loop never ends. *)
Lemma for_three_diverges fuel body st :
  for_TCell fuel (λ w, w <=? 126 + 1) body (wrap8 (126 - 1)) st = None.
Proof.
  apply for_TCell_diverges; [|apply wrap8_int8].
  unfold int8. intros. lia.
Qed.

Lemma for_block_spec fuel y x (body : Z → Z → St → option St) st :
  0 ≤ y ≤ 126 → 0 ≤ x ≤ 126 →
  for_block fuel y x body st =
    if (y <=? 125) && (x <=? 125) && (4 <=? fuel)%nat
    then seq_steps (λ c, body c.1 c.2) (block y x) st
    else None.
Proof.
  intros Hy Hx. unfold for_block.
  destruct (Z.leb_spec y 125) as [Hy'|Hy']; simpl.
  - rewrite for_three by lia.
    destruct (Z.leb_spec x 125) as [Hx'|Hx']; simpl.
    + destruct (4 <=? fuel)%nat eqn:Hf; [|done].
      rewrite !for_three by lia. rewrite Hf. simpl.
      destruct (body (y - 1) (x - 1) st) as [s1|]; simpl; [|done].
      destruct (body (y - 1) x s1) as [s2|]; simpl; [|done].
      destruct (body (y - 1) (x + 1) s2) as [s3|]; simpl; [|done].
      rewrite !for_three by lia. rewrite Hf. simpl.
      destruct (body y (x - 1) s3) as [s4|]; simpl; [|done].
      destruct (body y x s4) as [s5|]; simpl; [|done].
      destruct (body y (x + 1) s5) as [s6|]; simpl; [|done].
      rewrite !for_three by lia. rewrite Hf. simpl.
      destruct (body (y + 1) (x - 1) s6) as [s7|]; simpl; [|done].
      destruct (body (y + 1) x s7) as [s8|]; simpl; [|done].
      by destruct (body (y + 1) (x + 1) s8) as [s9|].
    + replace x with 126 by lia.
      destruct (4 <=? fuel)%nat; [|done].
      by rewrite for_three_diverges.
  - replace y with 126 by lia. apply for_three_diverges.
Qed.

(** A relation that every step respects is respected by the sequence. *)
Lemma seq_steps_inv (Inv : St → Prop) step cs :
  (∀ c st1 st2, c ∈ cs → Inv st1 → step c st1 = Some st2 → Inv st2) →
  ∀ st st', Inv st → seq_steps step cs st = Some st' → Inv st'.
Proof.
  induction cs as [|c cs IH]; intros Hstep st st' Hst; simpl.
  - by intros [= <-].
  - destruct (step c st) as [st1|] eqn:Hc; [|done].
    apply IH.
    + intros c' st2 st3 Hin. apply Hstep. by right.
    + apply (Hstep c st); [by left|done..].
Qed.
End Loops.

(** * Counting array slots *)

Lemma occurrences_bounds v a : 0 ≤ occurrences v a ≤ Z.of_nat (length a).
Proof. induction a as [|u a IH]; simpl; [lia|]. destruct (u =? v); lia. Qed.

Lemma occurrences_replicate_ne v u n : u ≠ v → occurrences v (replicate n u) = 0.
Proof.
  intros Hne. induction n as [|n IH]; simpl; [done|].
  destruct (Z.eqb_spec u v); [done|lia].
Qed.

Lemma occurrences_insert v u a i :
  (i < length a)%nat →
  occurrences v (<[i := u]> a) =
    occurrences v a - (if rd a i =? v then 1 else 0) + (if u =? v then 1 else 0).
Proof.
  revert i. induction a as [|t a IH]; intros i Hi; simpl in *; [lia|].
  destruct i as [|i]; simpl.
  - unfold rd; simpl. lia.
  - rewrite IH by lia. unfold rd; simpl. lia.
Qed.

Lemma occurrences_full v a i :
  occurrences v a = Z.of_nat (length a) → (i < length a)%nat → rd a i = v.
Proof.
  revert i. induction a as [|t a IH]; intros i Hocc Hi; simpl in *; [lia|].
  pose proof (occurrences_bounds v a).
  destruct (Z.eqb_spec t v) as [->|Hne]; [|lia].
  destruct i as [|i]; [done|].
  unfold rd; simpl. apply IH; lia.
Qed.

(** * Initialisation *)

Lemma board_frame_refl s : board_frame s s.
Proof. unfold board_frame. by destruct s. Qed.

Lemma board_frame_trans s1 s2 s3 :
  board_frame s1 s2 → board_frame s2 s3 → board_frame s1 s3.
Proof. unfold board_frame. intros -> ->. done. Qed.

Lemma board_frame_set s y x v : board_frame s (set s y x v).
Proof.
  unfold set. destruct (is_valid s y x); [done|apply board_frame_refl].
Qed.

Lemma board_frame_valid s s' y x :
  board_frame s s' → is_valid s' y x = is_valid s y x.
Proof. by intros ->. Qed.

Lemma board_frame_geti s s' y x :
  board_frame s s' → geti s' y x = geti s y x.
Proof. by intros ->. Qed.

Lemma get_valid s y x : get s y x ≠ ERROR → is_valid s y x = true.
Proof. unfold get. by destruct (is_valid s y x). Qed.

Lemma count_mines_set s y x v :
  wf s → is_valid s y x = true →
  count_mines (set s y x v) =
    count_mines s - (if get s y x =? MINE then 1 else 0)
                  + (if v =? MINE then 1 else 0).
Proof.
  intros [Hh Hw Hb Hi] Hv. unfold count_mines, set, get. rewrite Hv. simpl.
  apply occurrences_insert. rewrite Hb. apply idx_lt; [lia|done].
Qed.

Lemma mines_set s y x v : mines (set s y x v) = mines s.
Proof. unfold set. by destruct (is_valid s y x). Qed.

Lemma random_range n rs y rs' :
  1 ≤ n ≤ 127 → random 0 n rs = Some (y, rs') → int8 y.
Proof.
  intros Hn. unfold random.
  destruct (Z.ltb_spec 0 0); [lia|]. destruct (Z.ltb_spec n 1); [lia|].
  destruct (Z.geb_spec 0 n); [lia|]. simpl.
  destruct rs as [|r0 rs0]; [done|].
  destruct (_ >? ERROR); intros [= <- <-]; [unfold int8, ERROR; lia|apply wrap8_int8].
Qed.

(** The placement loop keeps the number of mines equal to [minesAdded] and
    writes nothing but mines. *)
Lemma place_mines_spec fuel :
  ∀ minesAdded s rs s' rs',
    wf s →
    minesAdded ≤ mines s ≤ 127 →
    count_mines s = minesAdded →
    (∀ y x, get s y x = BLANK ∨ get s y x = MINE ∨ get s y x = ERROR) →
    place_mines fuel minesAdded s rs = Some (s', rs') →
    wf s' ∧ board_frame s s' ∧ count_mines s' = mines s ∧
    (∀ y x, get s' y x = BLANK ∨ get s' y x = MINE ∨ get s' y x = ERROR).
Proof.
  induction fuel as [|fuel IH]; intros n s rs s' rs' Hwf Hn Hc Hcells; simpl; [done|].
  destruct (Z.ltb_spec n (mines s)) as [Hlt|Hge].
  - destruct (random 0 (height s) rs) as [[y rs1]|] eqn:Hy; [|done].
    destruct (random 0 (width s) rs1) as [[x rs2]|] eqn:Hx; [|done].
    destruct (Z.eqb_spec (get s y x) 0) as [Hz|Hnz].
    + intros Hrec.
      assert (is_valid s y x = true) as Hv.
      { apply get_valid. rewrite Hz. done. }
      apply IH in Hrec.
      * destruct Hrec as (Hwf' & Hfr & Hc' & Hcells').
        rewrite mines_set in Hc'.
        split; [done|]. split; [|done].
        eapply board_frame_trans; [apply board_frame_set|done].
      * by apply wf_set.
      * rewrite mines_set.
        rewrite wrap8_id by (unfold int8; pose proof (occurrences_bounds MINE (board s));
                             unfold count_mines in Hc; lia).
        lia.
      * rewrite count_mines_set by done. rewrite Hz. simpl.
        rewrite wrap8_id; [lia|].
        unfold int8; pose proof (occurrences_bounds MINE (board s));
          unfold count_mines in Hc; lia.
      * intros y' x'. rewrite get_set by done. rewrite Hv. simpl.
        destruct ((y =? y') && (x =? x')); [by right; left|apply Hcells].
    + by apply IH.
  - intros [= <- <-]. split; [done|]. split; [apply board_frame_refl|].
    split; [lia|done].
Qed.

Lemma wf_cleared s :
  1 ≤ height s ≤ 127 → 1 ≤ width s ≤ 127 → wf (cleared s).
Proof. intros. split; simpl; try done; by rewrite length_replicate. Qed.

Lemma rd_replicate n v i : (i < n)%nat → rd (replicate n v) i = v.
Proof. intros. unfold rd. by rewrite lookup_replicate_2. Qed.

Lemma get_cleared s y x :
  1 ≤ height s → get (cleared s) y x = BLANK ∨ get (cleared s) y x = ERROR.
Proof.
  intros Hh. unfold get.
  destruct (is_valid (cleared s) y x) eqn:Hv; [left|by right].
  apply rd_replicate. by apply (idx_lt (cleared s)).
Qed.

Lemma geti_cleared s y x :
  1 ≤ height s → is_valid s y x = true → geti (cleared s) y x = BLANK.
Proof.
  intros Hh Hv. unfold geti.
  change (is_valid (cleared s) y x) with (is_valid s y x). rewrite Hv.
  apply rd_replicate. by apply (idx_lt (cleared s)).
Qed.

Lemma count_mines_cleared s : count_mines (cleared s) = 0.
Proof. unfold count_mines. simpl. by apply occurrences_replicate_ne. Qed.

(** ** Neighbour counts *)

Lemma mine_at_bounds s c : 0 ≤ mine_at s c ≤ 1.
Proof. unfold mine_at. destruct (_ && _); lia. Qed.

Lemma true_count_bounds s y x : 0 ≤ true_count s y x ≤ 8.
Proof.
  unfold true_count, neighbours. simpl.
  pose proof (mine_at_bounds s (y - 1, x - 1)).
  pose proof (mine_at_bounds s (y - 1, x)).
  pose proof (mine_at_bounds s (y - 1, x + 1)).
  pose proof (mine_at_bounds s (y, x - 1)).
  pose proof (mine_at_bounds s (y, x + 1)).
  pose proof (mine_at_bounds s (y + 1, x - 1)).
  pose proof (mine_at_bounds s (y + 1, x)).
  pose proof (mine_at_bounds s (y + 1, x + 1)).
  lia.
Qed.

Lemma mine_at_ext s s' c :
  (∀ y x, is_valid s' y x = is_valid s y x) →
  (∀ y x, get s' y x = MINE ↔ get s y x = MINE) →
  mine_at s' c = mine_at s c.
Proof.
  intros Hv Hm. unfold mine_at. rewrite Hv.
  destruct (is_valid s c.1 c.2); simpl; [|done].
  destruct (Z.eqb_spec (get s' c.1 c.2) MINE) as [He|Hne];
    destruct (Z.eqb_spec (get s c.1 c.2) MINE) as [He'|Hne']; try done.
  - by apply Hm in He.
  - by apply Hm in He'.
Qed.

Lemma true_count_ext s s' y x :
  (∀ y x, is_valid s' y x = is_valid s y x) →
  (∀ y x, get s' y x = MINE ↔ get s y x = MINE) →
  true_count s' y x = true_count s y x.
Proof.
  intros Hv Hm. unfold true_count, neighbours. simpl.
  by rewrite !(mine_at_ext s s').
Qed.

Lemma count_cell_centre s y x count : count_cell s y x y x count = count.
Proof.
  unfold count_cell. rewrite !Z.eqb_refl. simpl. by rewrite andb_false_r.
Qed.

Lemma count_cell_neighbour s y x h w count :
  h ≠ y ∨ w ≠ x → 0 ≤ count ≤ 8 →
  count_cell s y x h w count = count + mine_at s (h, w).
Proof.
  intros Hne Hc. unfold count_cell, mine_at. simpl.
  assert ((h =? y) && (w =? x) = false) as ->.
  { apply andb_false_iff. lia. }
  simpl. rewrite andb_true_r.
  destruct (is_valid s h w); simpl; [|lia].
  destruct (get s h w =? MINE); [|lia].
  rewrite wrap8_id; unfold int8; lia.
Qed.

(** The count loop returns the number of neighbouring mines; it does not
    return for a cell in row or column 126, where a loop bound is
    [INT8_MAX]. *)
Lemma count_neighbors_spec fuel s y x :
  0 ≤ y ≤ 126 → 0 ≤ x ≤ 126 →
  count_neighbors fuel s y x =
    if (y <=? 125) && (x <=? 125) && (4 <=? fuel)%nat
    then Some (true_count s y x) else None.
Proof.
  intros Hy Hx. unfold count_neighbors. rewrite for_block_spec by done.
  destruct (_ && _); [|done]. simpl. f_equal.
  unfold true_count, neighbours. simpl.
  pose proof (mine_at_bounds s (y - 1, x - 1)).
  pose proof (mine_at_bounds s (y - 1, x)).
  pose proof (mine_at_bounds s (y - 1, x + 1)).
  pose proof (mine_at_bounds s (y, x - 1)).
  pose proof (mine_at_bounds s (y, x + 1)).
  pose proof (mine_at_bounds s (y + 1, x - 1)).
  pose proof (mine_at_bounds s (y + 1, x)).
  pose proof (mine_at_bounds s (y + 1, x + 1)).
  rewrite (count_cell_neighbour s y x (y - 1) (x - 1)) by lia.
  rewrite (count_cell_neighbour s y x (y - 1) x) by lia.
  rewrite (count_cell_neighbour s y x (y - 1) (x + 1)) by lia.
  rewrite (count_cell_neighbour s y x y (x - 1)) by lia.
  rewrite count_cell_centre.
  rewrite (count_cell_neighbour s y x y (x + 1)) by lia.
  rewrite (count_cell_neighbour s y x (y + 1) (x - 1)) by lia.
  rewrite (count_cell_neighbour s y x (y + 1) x) by lia.
  rewrite (count_cell_neighbour s y x (y + 1) (x + 1)) by lia.
  lia.
Qed.

(** ** The count pass *)

Lemma fill_cell_spec fuel s h w cur cur' :
  is_valid s h w = true →
  filled_upto s h w cur →
  fill_cell fuel h w cur = Some cur' →
  filled_upto s h (w + 1) cur'.
Proof.
  intros Hv [Hwf Hfr Hm Hc Hd]. unfold fill_cell.
  assert (∀ y x, is_valid cur y x = is_valid s y x) as Hvalid
    by (intros; by apply board_frame_valid).
  destruct (Z.eqb_spec (get cur h w) MINE) as [He|Hne]; simpl.
  - intros [= <-]. split; try done.
    intros y x Hv' Hnm Hlt. apply Hd; [done..|].
    destruct (decide (y = h ∧ x = w)) as [[-> ->]|Hneq]; [|lia].
    by apply Hm in He.
  - pose proof Hv as Hv2. apply is_valid_spec in Hv2.
    pose proof (wf_height _ Hwf). pose proof (wf_width _ Hwf).
    replace (height cur) with (height s) in * by (by rewrite Hfr).
    replace (width cur) with (width s) in * by (by rewrite Hfr).
    rewrite count_neighbors_spec by lia.
    destruct (Z.leb_spec h 125); simpl; [|done].
    destruct (Z.leb_spec w 125); simpl; [|done].
    destruct (4 <=? fuel)%nat; [|done].
    intros [= <-].
    pose proof (true_count_bounds cur h w) as Hb.
    rewrite wrap8_id by (unfold int8, ZERO_CHAR; lia).
    assert (true_count cur h w = true_count s h w) as Htc
      by (by apply true_count_ext).
    split.
    + by apply wf_set.
    + eapply board_frame_trans; [done|apply board_frame_set].
    + intros y x. rewrite get_set by done. rewrite Hvalid, Hv. simpl.
      destruct (Z.eqb_spec h y) as [<-|?]; simpl; [|apply Hm].
      destruct (Z.eqb_spec w x) as [<-|?]; simpl; [|apply Hm].
      split; [unfold ZERO_CHAR, MINE; lia|].
      intros He. by apply Hm in He.
    + rewrite count_mines_set by (by rewrite ?Hvalid).
      destruct (Z.eqb_spec (get cur h w) MINE); [done|].
      destruct (Z.eqb_spec (true_count cur h w + ZERO_CHAR) MINE) as [He|?]; [|lia].
      unfold ZERO_CHAR, MINE in He. lia.
    + intros y x Hv' Hnm Hlt. rewrite get_set by done. rewrite Hvalid, Hv. simpl.
      destruct (Z.eqb_spec h y) as [<-|?]; simpl; [|apply Hd; [done..|lia]].
      destruct (Z.eqb_spec w x) as [<-|?]; simpl; [|apply Hd; [done..|lia]].
      rewrite Htc. lia.
Qed.

Lemma fill_counts_spec fuel s s' :
  wf s →
  fill_counts fuel s = Some s' →
  wf s' ∧ board_frame s s' ∧
  (∀ y x, get s' y x = MINE ↔ get s y x = MINE) ∧
  count_mines s' = count_mines s ∧
  (∀ y x, is_valid s y x = true → get s y x ≠ MINE →
          get s' y x = ZERO_CHAR + true_count s y x ∧ y ≤ 125 ∧ x ≤ 125).
Proof.
  intros Hwf Hfill. unfold fill_counts in Hfill.
  pose proof (wf_height _ Hwf) as Hh. pose proof (wf_width _ Hwf) as Hw.
  apply (for_lt_inv (λ h cur, filled_upto s h 0 cur)) in Hfill; try lia.
  - destruct Hfill as [Hwf' Hfr Hm Hc Hd].
    split; [done|]. split; [done|]. split; [done|]. split; [done|].
    intros y x Hv Hnm. apply Hd; [done..|].
    apply is_valid_spec in Hv. lia.
  - split; [done|apply board_frame_refl|done|done|].
    intros y x Hv. apply is_valid_spec in Hv. lia.
  - intros h st1 st2 Hhr Hst1 Hin.
    apply (for_lt_inv (λ w cur, filled_upto s h w cur)) in Hin; try lia; try done.
    + destruct Hin as [Hwf' Hfr Hm Hc Hd]. split; try done.
      intros y x Hv Hnm Hlt. apply Hd; try done.
      apply is_valid_spec in Hv. lia.
    + intros w st3 st4 Hwr Hst3. apply fill_cell_spec; [|done].
      apply is_valid_spec. lia.
Qed.

(** ** The initialised board *)

Lemma init_spec fuel s rs s' rs' :
  1 ≤ height s ≤ 127 → 1 ≤ width s ≤ 127 → 0 ≤ mines s ≤ 127 →
  init fuel s rs = Some (s', rs') →
  wf s' ∧ board_ok s' ∧ fresh s' ∧
  height s' = height s ∧ width s' = width s ∧ mines s' = mines s ∧
  curY s' = curY s ∧ curX s' = curX s.
Proof.
  intros Hh Hw Hm. unfold init.
  destruct (place_mines fuel 0 (cleared s) rs) as [[s1 rs1]|] eqn:Hp; [|done].
  destruct (fill_counts fuel s1) as [s2|] eqn:Hf; [|done].
  intros [= <- <-].
  apply place_mines_spec in Hp; cycle 1.
  { by apply wf_cleared. }
  { simpl. lia. }
  { apply count_mines_cleared. }
  { intros y x. destruct (get_cleared s y x); [lia|by left|by right; right]. }
  destruct Hp as (Hwf1 & Hfr1 & Hc1 & _).
  apply fill_counts_spec in Hf; [|done].
  destruct Hf as (Hwf2 & Hfr2 & Hm2 & Hc2 & Hd2).
  pose proof (board_frame_trans _ _ _ Hfr1 Hfr2) as Hfr.
  assert (∀ y x, is_valid s2 y x = is_valid s1 y x) as Hv21
    by (intros; by apply board_frame_valid).
  split; [done|]. split; [|split].
  - split.
    + rewrite Hc2, Hc1. by rewrite Hfr.
    + intros y x Hv Hnm. rewrite Hv21 in Hv.
      rewrite (true_count_ext s1 s2) by done.
      apply Hd2; [done|]. intros He. by apply Hm2 in He.
  - rewrite Hfr. split; simpl; try done.
    intros y x Hv.
    change (geti (set_board (cleared s) (board s2)) y x) with (geti (cleared s) y x).
    apply geti_cleared; [lia|done].
  - by rewrite Hfr.
Qed.

Lemma SBoard_new_spec fuel h w m rs s rs' :
  1 ≤ h ≤ 127 → 1 ≤ w ≤ 127 → 0 ≤ m ≤ 127 →
  SBoard_new fuel h w m rs = Some (s, rs') →
  wf s ∧ board_ok s ∧ fresh s ∧
  height s = h ∧ width s = w ∧ mines s = m ∧ curY s = 0 ∧ curX s = 0.
Proof. intros Hh Hw Hm Hnew. by apply init_spec in Hnew. Qed.

(** ** Runs of the initialisation *)

Lemma filled_upto_start s : wf s → filled_upto s 0 0 s.
Proof.
  intros Hwf. split; [done|apply board_frame_refl|done|done|].
  intros y x Hv. apply is_valid_spec in Hv. lia.
Qed.

Lemma filled_upto_next_row s h cur :
  filled_upto s h (width s) cur → filled_upto s (h + 1) 0 cur.
Proof.
  intros [Hwf Hfr Hm Hc Hd]. split; try done.
  intros y x Hv Hnm Hlt. apply Hd; try done.
  apply is_valid_spec in Hv. lia.
Qed.

(** On a grid without a row or column 126 the count pass returns. *)
Lemma fill_counts_total fuel s :
  wf s → height s ≤ 126 → width s ≤ 126 → (128 ≤ fuel)%nat →
  ∃ s', fill_counts fuel s = Some s'.
Proof.
  intros Hwf Hh Hw Hfuel. unfold fill_counts.
  pose proof (wf_height _ Hwf). pose proof (wf_width _ Hwf).
  destruct (for_lt_total (λ h cur, filled_upto s h 0 cur) fuel (height s)
              (λ h s', for_TCell fuel (λ w, w <? width s) (fill_cell fuel h) 0 s'))
    with (a := 0) (st := s) as (s' & Hs' & _); [lia|lia|lia| | |by exists s'].
  { by apply filled_upto_start. }
  intros h cur Hhr Hcur.
  destruct (for_lt_total (λ w cur', filled_upto s h w cur') fuel (width s)
              (fill_cell fuel h))
    with (a := 0) (st := cur) as (cur' & Hcur' & Hinv); [lia|lia|lia|done| |].
  - intros w st1 Hwr Hst1.
    assert (∃ st2, fill_cell fuel h w st1 = Some st2) as [st2 Hst2].
    { unfold fill_cell. destruct (negb _); [|by eexists].
      rewrite count_neighbors_spec by lia.
      destruct (Z.leb_spec h 125); [|lia]. destruct (Z.leb_spec w 125); [|lia].
      destruct (Nat.leb_spec 4 fuel); [|lia]. by eexists. }
    exists st2. split; [done|].
    eapply fill_cell_spec; [|done..]. apply is_valid_spec. lia.
  - exists cur'. split; [done|]. by apply filled_upto_next_row.
Qed.

(** In row 126 the count loop of a digit cell never returns, so with a
    height of 127 and no mine the initialisation never returns. *)
Lemma fill_counts_stuck fuel s :
  wf s → height s = 127 → (∀ y x, get s y x ≠ MINE) →
  fill_counts fuel s = None.
Proof.
  intros Hwf Hh Hnm. unfold fill_counts.
  pose proof (wf_width _ Hwf).
  apply (for_lt_stuck (λ h cur, filled_upto s h 0 cur) fuel (height s) 126);
    [lia|lia| |lia|by apply filled_upto_start|].
  - intros cur [Hwf' Hfr Hm _ _].
    destruct fuel as [|fuel]; [done|]. simpl.
    destruct (Z.ltb_spec 0 (width s)); [|lia].
    unfold fill_cell.
    destruct (Z.eqb_spec (get cur 126 0) MINE) as [He|_];
      [apply Hm in He; by destruct (Hnm 126 0)|]. simpl.
    by rewrite count_neighbors_spec by lia.
  - intros h st1 st2 Hhr Hst1 Hin.
    apply filled_upto_next_row.
    apply (for_lt_inv (λ w cur, filled_upto s h w cur)) in Hin; try lia; try done.
    intros w st3 st4 Hwr Hst3. apply fill_cell_spec; [|done].
    apply is_valid_spec. lia.
Qed.

Lemma init_hangs_at_127 w fuel rs :
  1 ≤ w ≤ 127 → SBoard_new fuel 127 w 0 rs = None.
Proof.
  intros Hw. unfold SBoard_new, init.
  destruct (place_mines _ _ _ _) as [[s1 rs1]|] eqn:Hp; [|done].
  destruct fuel as [|fuel]; [done|]. simpl in Hp. injection Hp as <- <-.
  rewrite fill_counts_stuck; [done|by apply wf_cleared|done|].
  intros y x. by destruct (get_cleared
    {| curY := 0; curX := 0; done := false; win := false; lose := false;
       revealCount := 0; flagCount := 0; height := 127; width := w;
       mines := 0; board := []; input_board := [] |} y x) as [->| ->].
Qed.

Lemma random_draw n r rs :
  1 ≤ n ≤ 127 → 0 ≤ r < n → random 0 n (r :: rs) = Some (r, rs).
Proof.
  intros Hn Hr. unfold random.
  destruct (Z.ltb_spec 0 0); [lia|]. destruct (Z.ltb_spec n 1); [lia|].
  destruct (Z.geb_spec 0 n); [lia|]. simpl.
  rewrite Z.sub_0_r, Z.add_0_r, Z.rem_small by lia.
  destruct (Z.gtb_spec r ERROR) as [Hgt|_]; [unfold ERROR in Hgt; lia|].
  rewrite wrap8_id; [done|unfold int8; lia].
Qed.

Lemma insert_boundary (v u : Z) k n :
  <[k := v]> (replicate k v ++ replicate (S n) u) =
    replicate (S k) v ++ replicate n u.
Proof. induction k as [|k IH]; simpl in *; [done|]. by f_equal. Qed.

Lemma rd_boundary (v u : Z) k n :
  rd (replicate k v ++ replicate (S n) u) k = u.
Proof. unfold rd. induction k as [|k IH]; simpl; [done|]. exact IH. Qed.

(** On the column oracle every draw of the placement loop hits a free cell:
    with [k] mines in the first [k] slots, [n] more draws place [n] more
    mines. *)
Lemma place_mines_column n :
  ∀ fuel k s,
    wf s → (n < fuel)%nat →
    mines s = Z.of_nat (k + n) →
    Z.of_nat (k + n) ≤ width s * height s → Z.of_nat (k + n) ≤ 127 →
    board s = replicate k MINE
              ++ replicate (Z.to_nat (width s * height s) - k) BLANK →
    ∃ s', place_mines fuel (Z.of_nat k) s
            (flat_map (λ j, [Z.of_nat j `mod` height s; Z.of_nat j `div` height s])
                      (seq k n)) = Some (s', []).
Proof.
  induction n as [|n IH]; intros fuel k s Hwf Hfuel Hm Hle Hle' Hb;
    (destruct fuel as [|fuel]; [lia|]); simpl.
  - destruct (Z.ltb_spec (Z.of_nat k) (mines s)); [lia|]. by eexists.
  - pose proof (wf_height _ Hwf) as Hh. pose proof (wf_width _ Hwf) as Hw.
    destruct (Z.ltb_spec (Z.of_nat k) (mines s)); [|lia].
    pose proof (Z.mod_pos_bound (Z.of_nat k) (height s)) as Hmod.
    assert (0 ≤ Z.of_nat k `div` height s < width s) as Hdiv.
    { split; [apply Z.div_pos; lia|apply Z.div_lt_upper_bound; nia]. }
    rewrite random_draw by lia. rewrite random_draw by lia.
    assert (is_valid s (Z.of_nat k `mod` height s) (Z.of_nat k `div` height s)
            = true) as Hv by (apply is_valid_spec; lia).
    assert (idx s (Z.of_nat k `mod` height s) (Z.of_nat k `div` height s) = k)
      as Hidx.
    { unfold idx. rewrite (Z.mul_comm _ (height s)), <- Z.div_mod by lia. lia. }
    assert (∃ r, (Z.to_nat (width s * height s) - k = S r)%nat) as [r Hr].
    { exists (Z.to_nat (width s * height s) - k - 1)%nat. lia. }
    rewrite Hr in Hb.
    assert (get s (Z.of_nat k `mod` height s) (Z.of_nat k `div` height s) = 0)
      as Hget.
    { unfold get. rewrite Hv, Hidx, Hb. apply rd_boundary. }
    rewrite Hget. simpl.
    rewrite wrap8_id by (unfold int8; lia).
    replace (Z.of_nat k + 1) with (Z.of_nat (S k)) by lia.
    assert (set s (Z.of_nat k `mod` height s) (Z.of_nat k `div` height s) MINE
            = set_board s (replicate (S k) MINE ++ replicate r BLANK)) as Hset.
    { unfold set. rewrite Hv, Hidx, Hb. by rewrite insert_boundary. }
    rewrite Hset.
    apply (IH fuel (S k) (set_board s (replicate (S k) MINE ++ replicate r BLANK))).
    + rewrite <- Hset. by apply wf_set.
    + lia.
    + simpl. rewrite Hm. lia.
    + simpl. clear -Hle. lia.
    + clear -Hle'. lia.
    + simpl. do 3 f_equal. clear -Hr. lia.
Qed.

(** On a grid without a row or column 126 the initialisation of a valid
    configuration returns on the column oracle. *)
Lemma init_can_return h w m :
  valid_config h w m → h ≤ 126 → w ≤ 126 →
  ∃ s, SBoard_new 200 h w m (column_oracle h (Z.to_nat m)) = Some (s, []).
Proof.
  intros (Hh & Hw & Hm & Hm') Hh' Hw'. unfold SBoard_new, init, column_oracle.
  set (s0 := {| curY := 0; curX := 0; done := false; win := false;
                lose := false; revealCount := 0; flagCount := 0;
                height := h; width := w; mines := m;
                board := []; input_board := [] |}).
  assert (wf (cleared s0)) as Hwf0 by (by apply wf_cleared).
  destruct (place_mines_column (Z.to_nat m) 200 0 (cleared s0)) as [s1 Hs1];
    [done|lia|simpl; lia|simpl; lia|lia|simpl; f_equal; lia|].
  change (Z.of_nat 0) with 0 in Hs1. change (height (cleared s0)) with h in Hs1.
  rewrite Hs1.
  apply place_mines_spec in Hs1 as (Hwf1 & Hfr1 & _); [| done |simpl; lia
    |apply count_mines_cleared|].
  - destruct (fill_counts_total 200 s1) as [s2 ->]; [done| | |lia|by exists s2].
    + rewrite Hfr1. simpl. lia.
    + rewrite Hfr1. simpl. lia.
  - intros y x. destruct (get_cleared s0 y x); [simpl; lia|by left|by right; right].
Qed.

(** What initialisation establishes when it returns.  After initialisation
    of a valid configuration exactly [mineCount] cells of the mine layer hold
    [MINE], and every other cell holds ['0'] plus the number of its
    in-bounds Moore neighbours that are mines, a value in ['0'..'8'].  The
    placement draws at random, so a run need not return; on a grid without a
    row or column 126 the run on the column oracle does; grids with such a
    row or column are treated further down. *)
Theorem init_mines_and_counts h w m :
  valid_config h w m →
  (∀ fuel rs s rs',
     SBoard_new fuel h w m rs = Some (s, rs') →
     height s = h ∧ width s = w ∧
     length (board s) = Z.to_nat (h * w) ∧
     count_mines s = m ∧
     ∀ y x, is_valid s y x = true → get s y x ≠ MINE →
            get s y x = ZERO_CHAR + true_count s y x ∧
            0 ≤ true_count s y x ≤ 8) ∧
  (h ≤ 126 → w ≤ 126 →
   ∃ s, SBoard_new 200 h w m (column_oracle h (Z.to_nat m)) = Some (s, [])).
Proof.
  intros Hcfg. split; [|by apply init_can_return].
  destruct Hcfg as (Hh & Hw & Hm & Hm'). intros fuel rs s rs' Hnew.
  apply SBoard_new_spec in Hnew; [|lia..].
  destruct Hnew as (Hwf & [Hc Hd] & _ & <- & <- & <- & _).
  split; [done|]. split; [done|]. split.
  { rewrite (wf_board _ Hwf). f_equal. lia. }
  split; [done|]. intros y x Hv Hnm.
  split; [by apply Hd|apply true_count_bounds].
Qed.

Lemma init_mines_and_counts_witness :
  ∃ s,
    SBoard_new 200 16 30 99 (column_oracle 16 99) = Some (s, []) ∧
    count_mines s = 99 ∧
    get s 4 6 = ZERO_CHAR + true_count s 4 6 ∧ 0 ≤ true_count s 4 6 ≤ 8.
Proof.
  destruct (init_mines_and_counts 16 30 99) as [Hpost Hrun];
    [unfold valid_config; lia|].
  destruct Hrun as [s Hs]; [lia..|].
  exists s. split; [exact Hs|].
  destruct (Hpost _ _ _ _ Hs) as (_ & _ & _ & Hc & Hd).
  split; [exact Hc|].
  assert (s = default s (fst <$> SBoard_new 200 16 30 99 (column_oracle 16 99)))
    as Hev by (change (Z.to_nat 99) with 99%nat in Hs; by rewrite Hs).
  apply Hd; rewrite Hev; by vm_compute.
Defined.

(** ** Mine counts the grid cannot hold *)

(** With more mines requested than there are cells the placement loop never
    ends, whatever [rand()] returns. *)
Lemma place_mines_diverges fuel :
  ∀ minesAdded s rs,
    wf s →
    count_mines s = minesAdded →
    width s * height s < mines s ≤ 127 →
    place_mines fuel minesAdded s rs = None.
Proof.
  induction fuel as [|fuel IH]; intros n s rs Hwf Hc Hm; simpl; [done|].
  pose proof (occurrences_bounds MINE (board s)) as Hb.
  rewrite (wf_board _ Hwf) in Hb. unfold count_mines in Hc.
  pose proof (wf_height _ Hwf). pose proof (wf_width _ Hwf).
  rewrite Z2Nat.id in Hb by nia.
  destruct (Z.ltb_spec n (mines s)) as [Hlt|Hge]; [|lia].
  destruct (random 0 (height s) rs) as [[y rs1]|]; [|done].
  destruct (random 0 (width s) rs1) as [[x rs2]|]; [|done].
  destruct (Z.eqb_spec (get s y x) 0) as [Hz|Hnz].
  - assert (is_valid s y x = true) as Hv.
    { apply get_valid. rewrite Hz. done. }
    apply IH.
    + by apply wf_set.
    + rewrite count_mines_set by done. rewrite Hz. simpl.
      rewrite wrap8_id; [unfold count_mines; lia|unfold int8; lia].
    + rewrite mines_set. unfold set. rewrite Hv. simpl. lia.
  - by apply IH.
Qed.

Lemma all_mines s y x :
  wf s → count_mines s = width s * height s →
  is_valid s y x = true → get s y x = MINE.
Proof.
  intros Hwf Hc Hv. unfold get. rewrite Hv.
  pose proof (wf_height _ Hwf). pose proof (wf_width _ Hwf).
  apply occurrences_full.
  - unfold count_mines in Hc. rewrite Hc, (wf_board _ Hwf), Z2Nat.id; [done|nia].
  - rewrite (wf_board _ Hwf). apply idx_lt; [lia|done].
Qed.

(** C5 (as the code has it).  The constructor does not validate the mine
    count.  With more mines than cells it never returns: the placement loop
    runs forever on every oracle.  With exactly as many mines as cells it can
    return, and then returns a playable board on which every cell is a
    mine. *)
Theorem init_unchecked_mine_count h w m :
  1 ≤ h ≤ 127 → 1 ≤ w ≤ 127 → h * w ≤ m ≤ 127 →
  (h * w < m → ∀ fuel rs, SBoard_new fuel h w m rs = None) ∧
  (h * w = m → ∀ fuel rs s rs',
     SBoard_new fuel h w m rs = Some (s, rs') →
     status s = Playing ∧
     ∀ y x, is_valid s y x = true → get s y x = MINE).
Proof.
  intros Hh Hw Hm. split.
  - intros Hlt fuel rs. unfold SBoard_new, init.
    rewrite place_mines_diverges; [done|by apply wf_cleared| |simpl; lia].
    apply count_mines_cleared.
  - intros Heq fuel rs s rs' Hnew.
    apply SBoard_new_spec in Hnew; [|lia..].
    destruct Hnew as (Hwf & [Hc Hd] & Hfr & Hh' & Hw' & Hm' & _).
    split.
    + unfold status. by rewrite (fr_lose _ Hfr), (fr_win _ Hfr), (fr_done _ Hfr).
    + intros y x Hv. apply all_mines; [done| |done]. lia.
Qed.

Lemma init_unchecked_mine_count_witness :
  (∀ fuel rs, SBoard_new fuel 1 1 2 rs = None) ∧
  ∃ s, SBoard_new 5 1 1 1 [0; 0] = Some (s, []) ∧
       status s = Playing ∧ get s 0 0 = MINE.
Proof.
  split.
  - apply (init_unchecked_mine_count 1 1 2); lia.
  - destruct (init_unchecked_mine_count 1 1 1) as [_ Heq]; [lia..|].
    destruct (SBoard_new 5 1 1 1 [0; 0]) as [[s rs']|] eqn:E; [|by vm_compute in E].
    destruct (Heq eq_refl _ _ _ _ E) as [Hst Hm].
    assert (rs' = []) as -> by (vm_compute in E; congruence).
    exists s. split; [done|]. split; [done|].
    apply Hm. replace s with (default s (fst <$> SBoard_new 5 1 1 1 [0; 0]))
      by (by rewrite E).
    by vm_compute.
Defined.

(** C5, as stated, fails: a [1 x 1] grid with one mine is initialised without
    any error, and with two mines the constructor never returns. *)
Lemma init_does_not_fail_fast :
  (∃ s, SBoard_new 5 1 1 1 [0; 0] = Some (s, []) ∧ status s = Playing) ∧
  (∀ fuel rs, SBoard_new fuel 1 1 2 rs = None).
Proof.
  split.
  - eexists. split; by vm_compute.
  - intros fuel rs. unfold SBoard_new, init.
    rewrite place_mines_diverges; [done|by apply wf_cleared|done|simpl; lia].
Qed.

(** * The flood fill *)

Lemma get_mark s y x y' x' : get (mark s y x) y' x' = get s y' x'.
Proof.
  unfold mark. destruct (negb _); [|done].
  change (get (set_revealCount ?t _) y' x') with (get t y' x').
  apply get_seti.
Qed.

Lemma is_valid_mark s y x y' x' : is_valid (mark s y x) y' x' = is_valid s y' x'.
Proof.
  unfold mark, seti. destruct (negb _); [|done]. by destruct (is_valid s y x).
Qed.

Lemma max_reveal_mark s y x : max_reveal (mark s y x) = max_reveal s.
Proof.
  unfold mark, seti. destruct (negb _); [|done]. by destruct (is_valid s y x).
Qed.

Lemma wf_mark s y x : wf s → wf (mark s y x).
Proof.
  intros Hwf. unfold mark. destruct (negb _); [|done].
  apply (wf_seti s y x REVEAL) in Hwf. by destruct Hwf.
Qed.

Lemma geti_mark s y x y' x' :
  wf s →
  geti (mark s y x) y' x' =
    if is_valid s y x && (y =? y') && (x =? x') then REVEAL else geti s y' x'.
Proof.
  intros Hwf. unfold mark.
  destruct (Z.eqb_spec (geti s y x) REVEAL) as [He|Hne]; simpl.
  - destruct (is_valid s y x) eqn:Hv; simpl; [|done].
    destruct (Z.eqb_spec y y') as [<-|?]; simpl; [|done].
    by destruct (Z.eqb_spec x x') as [<-|?].
  - change (geti (set_revealCount ?t _) y' x') with (geti t y' x').
    by apply geti_seti.
Qed.

Lemma revealCount_mark s y x :
  revealCount (mark s y x) =
    if geti s y x =? REVEAL then revealCount s else wrap8 (revealCount s + 1).
Proof. unfold mark. by destruct (geti s y x =? REVEAL). Qed.

Lemma r_reveal_unfold fuel y x s log :
  r_reveal (S fuel) y x (s, log) =
    if done s then Some (s, log)
    else if geti s y x =? FLAGGED then Some (s, log)
    else if get s y x =? MINE
    then Some (set_outcome (mark s y x) true false true, log ++ [(y, x)])
    else if revealCount (mark s y x) >=? max_reveal s
    then Some (set_outcome (mark s y x) true true false, log ++ [(y, x)])
    else if get s y x =? ZERO_CHAR
    then for_block fuel y x (λ h w st, nb_step fuel y x (h, w) st)
           (mark s y x, log ++ [(y, x)])
    else Some (mark s y x, log ++ [(y, x)]).
Proof.
  simpl. unfold is_done. destruct (done s); simpl; [done|].
  destruct (geti s y x =? FLAGGED); [done|].
  rewrite !get_mark, max_reveal_mark. done.
Qed.

Lemma wf_set_outcome s d w l : wf s → wf (set_outcome s d w l).
Proof. by intros []. Qed.

Lemma r_reveal_wf fuel :
  ∀ y x st st', wf st.1 → r_reveal fuel y x st = Some st' → wf st'.1.
Proof.
  induction fuel as [|fuel IH]; intros y x [s log] st' Hwf; [done|].
  rewrite r_reveal_unfold. simpl in Hwf.
  destruct (done s); [by intros [= <-]|].
  destruct (geti s y x =? FLAGGED); [by intros [= <-]|].
  destruct (get s y x =? MINE);
    [intros [= <-]; by apply wf_set_outcome, wf_mark|].
  destruct (_ >=? _);
    [intros [= <-]; by apply wf_set_outcome, wf_mark|].
  destruct (get s y x =? ZERO_CHAR); [|intros [= <-]; by apply wf_mark].
  unfold for_block.
  apply (for_TCell_inv (λ st, wf st.1)); [|by apply wf_mark].
  intros h st1 st2 Hst1.
  apply (for_TCell_inv (λ st, wf st.1)); [|done].
  intros w st3 st4 Hst3. unfold nb_step.
  destruct (nb_guard _ _ _ _); [by apply IH|by intros [= <-]].
Qed.

Lemma seq_steps_Steps (R : Z * Z → RState → RState → Prop) step cs :
  (∀ c st st', wf st.1 → step c st = Some st' → R c st st' ∧ wf st'.1) →
  ∀ st st', wf st.1 → seq_steps step cs st = Some st' → Steps R cs st st'.
Proof.
  intros Hstep. induction cs as [|c cs IH]; intros st st' Hwf; simpl.
  - intros [= <-]. constructor.
  - destruct (step c st) as [st1|] eqn:Hc; [|done].
    destruct (Hstep c st st1) as [HR Hwf1]; [done..|].
    intros Hrest. econstructor; [done|by apply IH].
Qed.

(** The case analysis of [r_reveal], as a proof rule: to show that every
    returning call satisfies [P], show it for each way a call returns,
    assuming it for the recursive calls. *)
Lemma r_reveal_rule (P : Z → Z → RState → RState → Prop) :
  (∀ y x s log, done s = true → P y x (s, log) (s, log)) →
  (∀ y x s log,
     wf s → done s = false → geti s y x = FLAGGED → P y x (s, log) (s, log)) →
  (∀ y x s log,
     wf s → done s = false → geti s y x ≠ FLAGGED → get s y x = MINE →
     P y x (s, log) (set_outcome (mark s y x) true false true, log ++ [(y, x)])) →
  (∀ y x s log,
     wf s → done s = false → geti s y x ≠ FLAGGED → get s y x ≠ MINE →
     max_reveal s ≤ revealCount (mark s y x) →
     P y x (s, log) (set_outcome (mark s y x) true true false, log ++ [(y, x)])) →
  (∀ y x s log,
     wf s → done s = false → geti s y x ≠ FLAGGED → get s y x ≠ MINE →
     revealCount (mark s y x) < max_reveal s → get s y x ≠ ZERO_CHAR →
     P y x (s, log) (mark s y x, log ++ [(y, x)])) →
  (∀ y x s log st',
     wf s → done s = false → geti s y x ≠ FLAGGED → get s y x = ZERO_CHAR →
     revealCount (mark s y x) < max_reveal s →
     is_valid s y x = true → y ≤ 125 → x ≤ 125 →
     Steps (nb_rel P y x) (block y x) (mark s y x, log ++ [(y, x)]) st' →
     P y x (s, log) st') →
  ∀ fuel y x st st', wf st.1 → r_reveal fuel y x st = Some st' → P y x st st'.
Proof.
  intros Hdone Hflag Hmine Hwin Hstop Hzero.
  induction fuel as [|fuel IH]; intros y x [s log] st' Hwf; [done|].
  rewrite r_reveal_unfold. simpl in Hwf.
  destruct (done s) eqn:Hd; [intros [= <-]; by apply Hdone|].
  destruct (Z.eqb_spec (geti s y x) FLAGGED) as [Hf|Hf];
    [intros [= <-]; by apply Hflag|].
  destruct (Z.eqb_spec (get s y x) MINE) as [Hm|Hm];
    [intros [= <-]; by apply Hmine|].
  destruct (Z.geb_spec (revealCount (mark s y x)) (max_reveal s)) as [Hr|Hr];
    [intros [= <-]; apply Hwin; [done..|lia]|].
  destruct (Z.eqb_spec (get s y x) ZERO_CHAR) as [Hz|Hz];
    [|intros [= <-]; by apply Hstop].
  assert (is_valid s y x = true) as Hv by (apply get_valid; by rewrite Hz).
  pose proof Hv as Hv'. apply is_valid_spec in Hv'.
  pose proof (wf_height _ Hwf). pose proof (wf_width _ Hwf).
  rewrite for_block_spec by lia.
  destruct (Z.leb_spec y 125); cbn [andb]; [|done].
  destruct (Z.leb_spec x 125); cbn [andb]; [|done].
  destruct (4 <=? fuel)%nat; [|done].
  intros Hsteps. apply Hzero; try done.
  eapply seq_steps_Steps; [|by apply wf_mark|done].
  intros c st1 st2 Hwf1. unfold nb_step, nb_rel.
  replace (c.1, c.2) with c by (by destruct c).
  destruct (nb_guard y x c st1.1).
  - intros Hc. split; [by apply (IH _ _ st1)|by apply r_reveal_wf in Hc].
  - by intros [= <-].
Qed.

Lemma Steps_fold (R : Z * Z → RState → RState → Prop) (Inv : RState → Prop) cs :
  (∀ c st1 st2, c ∈ cs → Inv st1 → R c st1 st2 → Inv st2) →
  ∀ st st', Inv st → Steps R cs st st' → Inv st'.
Proof.
  intros Hstep st st' Hst Hsteps. induction Hsteps as [|c cs st st1 st2 HR _ IH]; [done|].
  apply IH.
  - intros c' st3 st4 Hin. apply Hstep. by right.
  - apply (Hstep c st); [by left|done..].
Qed.

(** ** What a fill may change *)

Lemma grows_refl s : grows s s.
Proof. split; try done. by left. Qed.

Lemma grows_trans s1 s2 s3 : grows s1 s2 → grows s2 s3 → grows s1 s3.
Proof.
  intros [] []. split; try congruence; [|by auto].
  intros y x.
  destruct (g_vis0 y x) as [E1|(N1 & F1 & R1)];
    destruct (g_vis1 y x) as [E2|(N2 & F2 & R2)].
  - left. congruence.
  - right. rewrite <- E1. done.
  - right. rewrite E2. done.
  - right. done.
Qed.

Lemma grows_valid s s' y x : grows s s' → is_valid s' y x = is_valid s y x.
Proof. intros []. unfold is_valid. congruence. Qed.

Lemma grows_get s s' y x : grows s s' → get s' y x = get s y x.
Proof.
  intros Hg. unfold get, idx. rewrite (grows_valid s s') by done.
  by rewrite (g_board _ _ Hg), (g_height _ _ Hg).
Qed.

Lemma grows_max_reveal s s' : grows s s' → max_reveal s' = max_reveal s.
Proof. intros []. unfold max_reveal. congruence. Qed.

Lemma grows_revealed s s' y x :
  grows s s' → geti s y x = REVEAL → geti s' y x = REVEAL.
Proof. intros Hg He. destruct (g_vis _ _ Hg y x) as [->|(? & _)]; done. Qed.

Lemma grows_flagged s s' y x :
  grows s s' → geti s' y x = FLAGGED ↔ geti s y x = FLAGGED.
Proof.
  intros Hg. destruct (g_vis _ _ Hg y x) as [->|(? & ? & He)]; [done|].
  rewrite He. split; [done|]. intros. done.
Qed.

Lemma grows_mark s y x : wf s → geti s y x ≠ FLAGGED → grows s (mark s y x).
Proof.
  intros Hwf Hf. split.
  1-7: unfold mark, seti; destruct (negb _); [|done]; by destruct (is_valid s y x).
  - intros y' x'. rewrite geti_mark by done.
    destruct (is_valid s y x) eqn:Hv; simpl; [|by left].
    destruct (Z.eqb_spec y y') as [<-|?]; simpl; [|by left].
    destruct (Z.eqb_spec x x') as [<-|?]; simpl; [|by left].
    destruct (decide (geti s y x = REVEAL)) as [->|?]; [by left|by right].
  - unfold mark, seti; destruct (negb _); [|done]; by destruct (is_valid s y x).
Qed.

Lemma grows_outcome s s' w l : grows s s' → done s = false →
  grows s (set_outcome s' true w l).
Proof. intros [] Hd. split; try done. Qed.

Lemma Steps_grows (P : Z → Z → RState → RState → Prop) y x cs st st' :
  Steps (nb_rel (λ y x st st', grows st.1 st'.1 ∧ P y x st st') y x) cs st st' →
  grows st.1 st'.1.
Proof.
  apply (Steps_fold _ (λ st2, grows st.1 st2.1)); [|apply grows_refl].
  intros c st1 st2 _ Hst1. unfold nb_rel.
  destruct (nb_guard y x c st1.1); [|by intros ->].
  intros [Hg _]. by eapply grows_trans.
Qed.

(** The proof rule again, with [grows] known of every recursive call. *)
Lemma r_reveal_rule_grows (P : Z → Z → RState → RState → Prop) :
  (∀ y x s log, done s = true → P y x (s, log) (s, log)) →
  (∀ y x s log,
     wf s → done s = false → geti s y x = FLAGGED → P y x (s, log) (s, log)) →
  (∀ y x s log,
     wf s → done s = false → geti s y x ≠ FLAGGED → get s y x = MINE →
     P y x (s, log) (set_outcome (mark s y x) true false true, log ++ [(y, x)])) →
  (∀ y x s log,
     wf s → done s = false → geti s y x ≠ FLAGGED → get s y x ≠ MINE →
     max_reveal s ≤ revealCount (mark s y x) →
     P y x (s, log) (set_outcome (mark s y x) true true false, log ++ [(y, x)])) →
  (∀ y x s log,
     wf s → done s = false → geti s y x ≠ FLAGGED → get s y x ≠ MINE →
     revealCount (mark s y x) < max_reveal s → get s y x ≠ ZERO_CHAR →
     P y x (s, log) (mark s y x, log ++ [(y, x)])) →
  (∀ y x s log st',
     wf s → done s = false → geti s y x ≠ FLAGGED → get s y x = ZERO_CHAR →
     revealCount (mark s y x) < max_reveal s →
     is_valid s y x = true → y ≤ 125 → x ≤ 125 →
     Steps (nb_rel (λ y x st st', grows st.1 st'.1 ∧ P y x st st') y x)
           (block y x) (mark s y x, log ++ [(y, x)]) st' →
     P y x (s, log) st') →
  ∀ fuel y x st st',
    wf st.1 → r_reveal fuel y x st = Some st' →
    grows st.1 st'.1 ∧ P y x st st'.
Proof.
  intros Hdone Hflag Hmine Hwin Hstop Hzero.
  apply (r_reveal_rule (λ y x st st', grows st.1 st'.1 ∧ P y x st st')).
  - intros. split; [apply grows_refl|by apply Hdone].
  - intros. split; [apply grows_refl|by apply Hflag].
  - intros. split; [|by apply Hmine].
    by apply grows_outcome; [apply grows_mark|].
  - intros. split; [|by apply Hwin].
    by apply grows_outcome; [apply grows_mark|].
  - intros. split; [|by apply Hstop]. by apply grows_mark.
  - intros y x s log st' Hwf Hd Hf Hz Hr Hv Hy Hx Hsteps.
    split; [|by apply Hzero].
    apply Steps_grows in Hsteps. simpl in *.
    eapply grows_trans; [by apply grows_mark|done].
Qed.

Lemma r_reveal_grows fuel y x st st' :
  wf st.1 → r_reveal fuel y x st = Some st' → grows st.1 st'.1.
Proof.
  intros Hwf Hr.
  by apply (r_reveal_rule_grows (λ _ _ _ _, True)) in Hr as [Hg _].
Qed.

(** * Invariants of the reachable states *)

Lemma grows_same_layer s s' : grows s s' → same_layer s s'.
Proof. intros []. by split. Qed.

Lemma same_layer_valid s s' y x : same_layer s s' → is_valid s' y x = is_valid s y x.
Proof. intros []. unfold is_valid. congruence. Qed.

Lemma same_layer_get s s' y x : same_layer s s' → get s' y x = get s y x.
Proof.
  intros Hs. unfold get, idx. rewrite (same_layer_valid s s') by done.
  by rewrite (sl_board _ _ Hs), (sl_height _ _ Hs).
Qed.

Lemma same_layer_board_ok s s' : same_layer s s' → board_ok s → board_ok s'.
Proof.
  intros Hs [Hc Hd]. split.
  - unfold count_mines. by rewrite (sl_board _ _ Hs), (sl_mines _ _ Hs).
  - intros y x. rewrite (same_layer_valid s s'), (same_layer_get s s') by done.
    rewrite (true_count_ext s s'); [apply Hd|..].
    + intros. by apply same_layer_valid.
    + intros. by rewrite (same_layer_get s s').
Qed.

Lemma max_reveal_int8 s : int8 (max_reveal s).
Proof. apply wrap8_int8. Qed.

Lemma mark_count s y x :
  counters_ok s → done s = false → 1 ≤ revealCount (mark s y x) ≤ 127.
Proof.
  intros [Hr Hp Hn Ho] Hd. rewrite revealCount_mark.
  pose proof (max_reveal_int8 s) as Hm. unfold int8 in Hm.
  destruct (Z.eqb_spec (geti s y x) REVEAL) as [He|Hne].
  - assert (revealCount s ≠ 0); [|lia].
    intros Hz. by apply (Hn Hz y x).
  - destruct (Hp Hd) as [Hz|Hlt].
    + rewrite Hz. by vm_compute.
    + rewrite wrap8_id; unfold int8; lia.
Qed.

Lemma mark_outcome s y x :
  done (mark s y x) = done s ∧ win (mark s y x) = win s ∧
  lose (mark s y x) = lose s.
Proof.
  unfold mark, seti. destruct (negb _); [|done]. by destruct (is_valid s y x).
Qed.

Lemma counters_ok_mark s y x :
  counters_ok s → done s = false →
  revealCount (mark s y x) < max_reveal s →
  counters_ok (mark s y x).
Proof.
  intros Hco Hd Hlt. pose proof (mark_count s y x Hco Hd) as Hc.
  destruct (mark_outcome s y x) as (Ed & Ew & El).
  split.
  - lia.
  - intros _. right. by rewrite max_reveal_mark.
  - intros Hz. lia.
  - rewrite Ed, Ew, El. intros Hwl.
    apply (co_outcome _ Hco) in Hwl as [Hd' _]. congruence.
Qed.

Lemma counters_ok_decided s y x w l :
  counters_ok s → done s = false →
  counters_ok (set_outcome (mark s y x) true w l).
Proof.
  intros Hco Hd. pose proof (mark_count s y x Hco Hd) as Hc.
  split; simpl.
  - lia.
  - done.
  - intros Hz. lia.
  - intros _. split; [done|lia].
Qed.

Lemma r_reveal_counters fuel y x st st' :
  wf st.1 → r_reveal fuel y x st = Some st' →
  counters_ok st.1 → counters_ok st'.1.
Proof.
  intros Hwf Hr.
  apply (r_reveal_rule_grows
           (λ _ _ st st', counters_ok st.1 → counters_ok st'.1)) in Hr as [_ Hr];
    [done|clear; cbn [fst]..|done].
  - done.
  - done.
  - intros y x s log _ Hd _ _ Hco. by apply counters_ok_decided.
  - intros y x s log _ Hd _ _ _ Hco. by apply counters_ok_decided.
  - intros y x s log _ Hd _ _ Hlt _ Hco. by apply counters_ok_mark.
  - intros y x s log st' _ Hd _ _ Hlt _ _ _ Hsteps Hco.
    revert Hsteps. apply (Steps_fold _ (λ st2, counters_ok st2.1)).
    + intros c st1 st2 _ Hst1. unfold nb_rel.
      destruct (nb_guard y x c st1.1); [|by intros ->].
      intros [_ Hp]. by apply Hp.
    + by apply counters_ok_mark.
Qed.

(** ** Zero cells have no mine around them *)

Lemma mine_at_zero s c : mine_at s c = 0 → get s c.1 c.2 ≠ MINE.
Proof.
  unfold mine_at, get. destruct (is_valid s c.1 c.2); simpl; [|done].
  destruct (Z.eqb_spec (rd (board s) (idx s c.1 c.2)) MINE); [done|]. done.
Qed.

Lemma board_ok_safe_zero s : board_ok s → safe_zero s.
Proof.
  intros [_ Hd] y x c Hz Hc.
  assert (is_valid s y x = true) as Hv by (apply get_valid; by rewrite Hz).
  destruct (Hd y x Hv) as (Hg & _); [by rewrite Hz|].
  assert (true_count s y x = 0) as Ht by lia.
  apply mine_at_zero.
  unfold true_count, neighbours in Ht. simpl in Ht.
  pose proof (mine_at_bounds s (y - 1, x - 1)).
  pose proof (mine_at_bounds s (y - 1, x)).
  pose proof (mine_at_bounds s (y - 1, x + 1)).
  pose proof (mine_at_bounds s (y, x - 1)).
  pose proof (mine_at_bounds s (y, x + 1)).
  pose proof (mine_at_bounds s (y + 1, x - 1)).
  pose proof (mine_at_bounds s (y + 1, x)).
  pose proof (mine_at_bounds s (y + 1, x + 1)).
  unfold neighbours in Hc.
  repeat (apply elem_of_cons in Hc as [->|Hc]; [lia|]).
  by apply elem_of_nil in Hc.
Qed.

Lemma block_neighbours y x c :
  c ∈ block y x → c.1 ≠ y ∨ c.2 ≠ x → c ∈ neighbours y x.
Proof.
  unfold block, neighbours. intros Hc Hne.
  repeat (apply elem_of_cons in Hc as [->|Hc];
          [simpl in Hne; first [lia | repeat constructor]|]).
  by apply elem_of_nil in Hc.
Qed.

Lemma nb_guard_spec y x c s :
  nb_guard y x c s = true ↔
  is_valid s c.1 c.2 = true ∧ (c.1 ≠ y ∨ c.2 ≠ x) ∧ geti s c.1 c.2 ≠ REVEAL.
Proof.
  unfold nb_guard. rewrite !andb_true_iff, !negb_true_iff, andb_false_iff.
  rewrite !Z.eqb_neq. tauto.
Qed.

(** A fill that starts on a cell without a mine never reveals a mine. *)
Lemma r_reveal_no_loss fuel y x st st' :
  wf st.1 → r_reveal fuel y x st = Some st' →
  safe_zero st.1 → get st.1 y x ≠ MINE → lose st.1 = false →
  lose st'.1 = false.
Proof.
  intros Hwf Hr.
  apply (r_reveal_rule_grows
           (λ y x st st', safe_zero st.1 → get st.1 y x ≠ MINE →
                           lose st.1 = false → lose st'.1 = false))
    in Hr as [_ Hr]; [done|clear; cbn [fst]..|done].
  - done.
  - done.
  - done.
  - done.
  - intros y x s log _ _ _ _ _ _ _ _. destruct (mark_outcome s y x) as (_ & _ & El); by rewrite El.
  - intros y x s log st' Hwf Hd Hf Hz Hlt Hv _ _ Hsteps Hsafe Hnm Hl.
    pose proof (grows_mark s y x Hwf Hf) as Hg0.
    cut (grows s st'.1 ∧ lose st'.1 = false); [by intros [_ ?]|].
    revert Hsteps.
    apply (Steps_fold _ (λ st2, grows s st2.1 ∧ lose st2.1 = false)).
    + intros c st1 st2 Hc [Hg1 Hl1]. unfold nb_rel.
      destruct (nb_guard y x c st1.1) eqn:Hguard; [|by intros ->].
      apply nb_guard_spec in Hguard as (Hvc & Hne & _).
      intros [Hg2 Hp]. split; [by eapply grows_trans|].
      apply Hp; [|rewrite (grows_get s) by done|done].
      * intros y' x' c'. rewrite !(grows_get s st1.1) by done. apply Hsafe.
      * apply (Hsafe y x c); [done|by apply block_neighbours].
    + split; [done|]. cbn [fst].
      destruct (mark_outcome s y x) as (_ & _ & El); by rewrite El.
Qed.

(** ** Every reachable state satisfies the invariant *)

Lemma geti_cases s y x : is_valid s y x = false → geti s y x = ERROR.
Proof. intros Hv. unfold geti. by rewrite Hv. Qed.

Lemma fresh_counters s : fresh s → counters_ok s.
Proof.
  intros [Hd Hw Hl Hr Hf Hb]. split.
  - lia.
  - by left.
  - intros _ y x. destruct (is_valid s y x) eqn:Hv.
    + by rewrite Hb.
    + by rewrite geti_cases.
  - rewrite Hw, Hl. by intros [|].
Qed.

Lemma same_game_refl s : same_game s s.
Proof. by split. Qed.

Lemma same_game_trans s1 s2 s3 : same_game s1 s2 → same_game s2 s3 → same_game s1 s3.
Proof. intros [] []. split; congruence. Qed.

Lemma grows_same_game s s' : grows s s' → same_game s s'.
Proof. intros []. by split. Qed.

Lemma init_inv fuel s rs s' rs' :
  inv s → init fuel s rs = Some (s', rs') →
  inv s' ∧ fresh s' ∧ same_game s s'.
Proof.
  intros [Hwf Hm Hb Hc Hco] Hinit.
  apply init_spec in Hinit; [|apply Hwf..|done].
  destruct Hinit as (Hwf' & Hb' & Hfr & Eh & Ew & Em & Ey & Ex).
  split; [|split; [done|by split]].
  split; try done.
  - lia.
  - unfold is_valid in *. by rewrite Ey, Ex, Eh, Ew.
  - by apply fresh_counters.
Qed.

(** The loop of the first-move rule ends on a board whose cursor cell holds
    no mine, unless a cell has been revealed before. *)
Lemma first_safe_spec fuel :
  ∀ s rs s' rs',
    inv s → first_safe fuel s rs = Some (s', rs') →
    inv s' ∧ same_game s s' ∧
    (revealCount s' = 0 → get s' (curY s') (curX s') ≠ MINE) ∧
    (s' = s ∨ fresh s').
Proof.
  induction fuel as [|fuel IH]; intros s rs s' rs' Hinv; simpl; [done|].
  destruct (Z.eqb_spec (revealCount s) 0) as [Hz|Hnz]; simpl.
  - destruct (Z.eqb_spec (get s (curY s) (curX s)) MINE) as [Hm|Hnm].
    + destruct (init fuel s rs) as [[s1 rs1]|] eqn:Hinit; [|done].
      apply init_inv in Hinit as (Hinv1 & Hfr1 & Hsg1); [|done].
      intros Hrec. apply IH in Hrec as (Hinv' & Hsg' & Hsafe & Hor); [|done].
      split; [done|]. split; [by eapply same_game_trans|]. split; [done|].
      right. by destruct Hor as [->|?].
    + intros [= <- <-]. split; [done|]. split; [apply same_game_refl|].
      split; [done|by left].
  - intros [= <- <-]. split; [done|]. split; [apply same_game_refl|].
    split; [done|by left].
Qed.

Lemma inv_r_reveal fuel y x s log s' log' :
  inv s → r_reveal fuel y x (s, log) = Some (s', log') → inv s'.
Proof.
  intros [Hwf Hm Hb Hc Hco] Hr.
  pose proof (r_reveal_grows fuel y x (s, log) (s', log') Hwf Hr) as Hg.
  simpl in Hg. split.
  - by apply (r_reveal_wf fuel y x (s, log) (s', log')).
  - by rewrite (g_mines _ _ Hg).
  - eapply same_layer_board_ok; [by apply grows_same_layer|done].
  - by rewrite (grows_valid s s'), (g_curY _ _ Hg), (g_curX _ _ Hg).
  - by apply (r_reveal_counters fuel y x (s, log) (s', log')).
Qed.

Lemma inv_reveal fuel s rs s' rs' :
  inv s → reveal fuel s rs = Some (s', rs') → inv s'.
Proof.
  intros Hinv. unfold reveal.
  destruct (first_safe fuel s rs) as [[s1 rs1]|] eqn:Hfs; [|done].
  apply first_safe_spec in Hfs as (Hinv1 & _); [|done].
  destruct (r_reveal _ _ _ _) as [[s2 log2]|] eqn:Hr; [|done].
  intros [= <- <-]. by eapply inv_r_reveal.
Qed.

Lemma inv_move_cur dy dx s : inv s → inv (move_cur dy dx s).
Proof.
  intros Hinv. unfold move_cur.
  destruct (is_valid s _ _) eqn:Hv; [|done].
  destruct Hinv as [Hwf Hm Hb Hc Hco]. split.
  - destruct Hwf. by split.
  - done.
  - apply (same_layer_board_ok s); [by split|done].
  - exact Hv.
  - destruct Hco. by split.
Qed.

Lemma inv_quit s : inv s → inv (quit s).
Proof.
  intros [Hwf Hm Hb Hc Hco]. split.
  - destruct Hwf. by split.
  - done.
  - apply (same_layer_board_ok s); [by split|done].
  - done.
  - destruct Hco as [Hr Hp Hn Ho]. split; try done.
    simpl. intros Hwl. by destruct (Ho Hwl).
Qed.

Lemma inv_flag s : inv s → inv (flag s).
Proof.
  intros Hinv. unfold flag.
  assert (∀ v n, v ≠ REVEAL →
            inv (set_flagCount (seti s (curY s) (curX s) v) n)) as Hset.
  { intros v n Hv. destruct Hinv as [Hwf Hm Hb Hc Hco].
    pose proof (wf_seti s (curY s) (curX s) v Hwf) as Hwf'.
    assert (same_layer s (seti s (curY s) (curX s) v)) as Hsl.
    { unfold seti. rewrite Hc. by split. }
    split.
    - by destruct Hwf'.
    - simpl. by rewrite (sl_mines _ _ Hsl).
    - apply (same_layer_board_ok (seti s (curY s) (curX s) v)).
      + by split.
      + by eapply same_layer_board_ok.
    - unfold seti. by rewrite Hc.
    - destruct Hco as [Hr Hp Hn Ho].
      assert (revealCount s = 0 →
              ∀ y x, geti (seti s (curY s) (curX s) v) y x ≠ REVEAL) as Hget.
      { intros Hz y x. rewrite geti_seti by done.
        destruct (_ && _); [done|by apply Hn]. }
      unfold seti in *. rewrite Hc in *.
      by split. }
  destruct (geti s (curY s) (curX s) =? BLANK); [by apply Hset|].
  destruct (geti s (curY s) (curX s) =? FLAGGED); [by apply Hset|done].
Qed.

Theorem reachable_inv s : reachable s → inv s.
Proof.
  induction 1 as [fuel h w m rs s rs' (Hh & Hw & Hm & Hm') Hnew
                 |fuel c s rs s' rs' _ IH _ Hexec].
  - apply SBoard_new_spec in Hnew; [|lia..].
    destruct Hnew as (Hwf & Hb & Hfr & Eh & Ew & Em & Ey & Ex).
    split; try done.
    + lia.
    + apply is_valid_spec. lia.
    + by apply fresh_counters.
  - destruct c as [dy dx| | |]; simpl in Hexec.
    + injection Hexec as <- <-. by apply inv_move_cur.
    + by eapply inv_reveal.
    + injection Hexec as <- <-. by apply inv_flag.
    + injection Hexec as <- <-. by apply inv_quit.
Qed.

(** * The claims about single commands *)

Lemma reachable_run fuel cs :
  ∀ s rs s' rs',
    reachable s →
    Forall (λ c, ∀ dy dx, c = CMove dy dx → int8 dy ∧ int8 dx) cs →
    run fuel cs s rs = Some (s', rs') →
    reachable s'.
Proof.
  induction cs as [|c cs IH]; intros s rs s' rs' Hs Hcs; simpl.
  - by intros [= <- <-].
  - destruct (exec fuel c s rs) as [[s1 rs1]|] eqn:Hexec; [|done].
    apply Forall_cons in Hcs as [Hc Hcs].
    apply IH; [|done]. by eapply reach_exec.
Qed.

Lemma cmds_ok cs :
  forallb cmd_ok cs = true →
  Forall (λ c, ∀ dy dx, c = CMove dy dx → int8 dy ∧ int8 dx) cs.
Proof.
  induction cs as [|c cs IH]; simpl; [by constructor|].
  intros [Hc Hcs]%andb_true_iff. constructor; [|by apply IH].
  intros dy dx ->. simpl in Hc. unfold int8. lia.
Qed.

(** C1. The first reveal of a game ([revealCount = 0]) never loses.  When
    [reveal] returns, the loop of the first-move rule has ended on a board
    [s1] whose cursor cell holds no mine (a freshly initialised one if the
    cursor cell held a mine), and the fill from there reveals no mine: the
    outcome is not [Lost]. *)
Theorem first_reveal_never_loses fuel s rs s' rs' :
  reachable s → revealCount s = 0 →
  reveal fuel s rs = Some (s', rs') →
  (∃ s1, first_safe fuel s rs = Some (s1, rs') ∧
         get s1 (curY s1) (curX s1) ≠ MINE ∧
         (get s (curY s) (curX s) = MINE → fresh s1)) ∧
  get s' (curY s') (curX s') ≠ MINE ∧ lose s' = false ∧ status s' ≠ Lost.
Proof.
  intros Hs Hz. apply reachable_inv in Hs. unfold reveal.
  destruct (first_safe fuel s rs) as [[s1 rs1]|] eqn:Hfs; [|done].
  apply first_safe_spec in Hfs as (Hinv1 & _ & Hsafe & Hor); [|done].
  destruct (r_reveal _ _ _ _) as [[s2 log2]|] eqn:Hr; [|done].
  intros [= <- <-].
  assert (revealCount s1 = 0) as Hz1.
  { destruct Hor as [->|Hfr]; [done|apply Hfr]. }
  assert (lose s1 = false) as Hl1.
  { destruct (lose s1) eqn:Hl; [|done].
    destruct (co_outcome _ (inv_counters _ Hinv1)); [by right|done]. }
  pose proof (r_reveal_grows _ _ _ (s1, []) (s2, log2) (inv_wf _ Hinv1) Hr) as Hg.
  assert (lose s2 = false) as Hl2.
  { apply (r_reveal_no_loss _ _ _ (s1, []) (s2, log2) (inv_wf _ Hinv1) Hr);
      simpl; [|auto|done].
    apply board_ok_safe_zero, Hinv1. }
  simpl in Hg. split; [|split; [|split; [done|]]].
  - exists s1. split; [done|]. split; [auto|].
    intros Hm. destruct Hor as [->|Hfr]; [|done]. by destruct (Hsafe Hz1).
  - rewrite (grows_get s1 s2), (g_curY _ _ Hg), (g_curX _ _ Hg) by done. auto.
  - unfold status. by rewrite Hl2; repeat case_match.
Qed.

Lemma first_reveal_never_loses_witness :
  ∃ s s',
    SBoard_new 10 1 2 1 [0; 0; 0; 1] = Some (s, [0; 1]) ∧
    get s (curY s) (curX s) = MINE ∧
    reveal 10 s [0; 1] = Some (s', []) ∧
    get s' (curY s') (curX s') ≠ MINE ∧ lose s' = false ∧ status s' ≠ Lost.
Proof.
  eexists. eexists.
  split; [vm_compute; reflexivity|].
  split; [vm_compute; reflexivity|].
  split; [vm_compute; reflexivity|].
  eapply (first_reveal_never_loses 10 _ [0; 1]).
  - eapply (reach_new 10 1 2 1 [0; 0; 0; 1]); [unfold valid_config; lia|].
    vm_compute; reflexivity.
  - reflexivity.
  - vm_compute; reflexivity.
Defined.

(** C10. With a flag on the cursor cell, [reveal] changes nothing, provided
    the first-move rule does not fire (a cell has been revealed before, or
    the cursor cell holds no mine). *)
Theorem reveal_flagged_unchanged fuel s rs :
  geti s (curY s) (curX s) = FLAGGED →
  revealCount s > 0 ∨ get s (curY s) (curX s) ≠ MINE →
  reveal (S fuel) s rs = Some (s, rs).
Proof.
  intros Hf Hor. unfold reveal.
  assert (first_safe (S fuel) s rs = Some (s, rs)) as ->.
  { simpl. destruct Hor as [Hr|Hm].
    - destruct (Z.eqb_spec (revealCount s) 0); [lia|done].
    - destruct (Z.eqb_spec (get s (curY s) (curX s)) MINE); [done|].
      by rewrite andb_false_r. }
  rewrite r_reveal_unfold, Hf. simpl. by destruct (done s).
Qed.

Lemma reveal_flagged_unchanged_witness :
  ∃ s, SBoard_new 10 1 2 1 [0; 1] = Some (s, []) ∧
       geti (flag s) 0 0 = FLAGGED ∧
       reveal 1 (flag s) [] = Some (flag s, []).
Proof.
  eexists. split; [vm_compute; reflexivity|].
  split; [vm_compute; reflexivity|].
  apply (reveal_flagged_unchanged 0).
  - vm_compute; reflexivity.
  - right. by vm_compute.
Defined.

Lemma wrap8_high z : 128 ≤ z ≤ 383 → wrap8 z = z - 256.
Proof.
  intros Hz. unfold wrap8.
  replace (z + 128) with (z - 128 + 1 * 256) by lia.
  rewrite Z.mod_add, Z.mod_small by lia. lia.
Qed.

(** Adding a [TCell] delta to an in-range coordinate: the narrowed sum is in
    range exactly when the true sum is, and then equals it. *)
Lemma wrap8_delta c d n :
  0 ≤ c < n → n ≤ 127 → int8 d →
  (0 ≤ wrap8 (d + c) < n ↔ 0 ≤ c + d < n) ∧
  (0 ≤ c + d < n → wrap8 (d + c) = c + d).
Proof.
  intros Hc Hn Hd. unfold int8 in Hd.
  destruct (Z.le_gt_cases (d + c) 127) as [Hle|Hgt].
  - rewrite wrap8_id by (unfold int8; lia). lia.
  - rewrite wrap8_high by lia. lia.
Qed.

(** C8. [move_cur] moves the cursor by exactly the deltas when the target is
    in bounds and leaves the state alone otherwise; nothing but the cursor
    changes, and the cursor is in bounds after any sequence of moves. *)
Theorem move_cur_in_bounds s dy dx :
  reachable s → int8 dy → int8 dx →
  move_cur dy dx s =
    (if is_valid s (curY s + dy) (curX s + dx)
     then set_cur s (curY s + dy) (curX s + dx) else s) ∧
  is_valid (move_cur dy dx s)
           (curY (move_cur dy dx s)) (curX (move_cur dy dx s)) = true ∧
  ∀ ms, Forall (λ d, int8 d.1 ∧ int8 d.2) ms →
        let s' := foldl (λ t d, move_cur d.1 d.2 t) s ms in
        is_valid s' (curY s') (curX s') = true.
Proof.
  intros Hs Hdy Hdx. split; [|split].
  - apply reachable_inv in Hs. destruct Hs as [Hwf _ _ Hc _].
    pose proof (wf_height _ Hwf). pose proof (wf_width _ Hwf).
    apply is_valid_spec in Hc.
    destruct (wrap8_delta (curY s) dy (height s)) as [Hy Hy']; [lia..|done|].
    destruct (wrap8_delta (curX s) dx (width s)) as [Hx Hx']; [lia..|done|].
    unfold move_cur.
    destruct (is_valid s (curY s + dy) (curX s + dx)) eqn:Hv.
    + apply is_valid_spec in Hv. rewrite Hy', Hx' by lia.
      by apply is_valid_spec in Hv as ->.
    + apply is_valid_false in Hv.
      destruct (is_valid s _ _) eqn:Hv'; [|done].
      apply is_valid_spec in Hv'. exfalso. apply Hv. lia.
  - apply (inv_cursor (move_cur dy dx s)), inv_move_cur, reachable_inv, Hs.
  - intros ms Hms. simpl.
    apply inv_cursor. apply reachable_inv in Hs. revert s Hs.
    induction Hms as [|d ms _ _ IH]; intros s Hs; simpl; [done|].
    by apply IH, inv_move_cur.
Qed.

Lemma move_cur_in_bounds_witness :
  ∃ s, SBoard_new 10 3 3 1 [2; 2] = Some (s, []) ∧
       move_cur 2 1 s = set_cur s 2 1 ∧
       move_cur 127 (-128) s = s ∧
       is_valid (move_cur 2 1 s)
                (curY (move_cur 2 1 s)) (curX (move_cur 2 1 s)) = true.
Proof.
  eexists. split; [vm_compute; reflexivity|].
  match goal with
  | |- context [move_cur 2 1 ?s] =>
      assert (reachable s) as Hs
        by (eapply (reach_new 10 3 3 1 [2; 2]);
            [unfold valid_config; lia|vm_compute; reflexivity]);
      destruct (move_cur_in_bounds s 2 1 Hs) as (H1 & H2 & _);
        [unfold int8; lia..|];
      destruct (move_cur_in_bounds s 127 (-128) Hs) as (H3 & _);
        [unfold int8; lia..|]
  end.
  split; [exact H1|]. split; [exact H3|exact H2].
Defined.

(** ** Decided games *)

Lemma status_decided s :
  status s = Won ∨ status s = Lost → win s = true ∨ lose s = true.
Proof.
  unfold status. destruct (lose s); [by right|].
  destruct (win s); [by left|]. destruct (done s); by intros [|].
Qed.

(** C6 (as the code has it).  In a reachable state whose outcome is [Won] or
    [Lost], [reveal] changes nothing.  [flag] and [move_cur] do not consult
    the outcome: they act as they do while playing (the outcome commutes
    with them), and they leave the mine layer, [revealCount] and the outcome
    alone. *)
Theorem decided_state_commands s :
  reachable s → status s = Won ∨ status s = Lost →
  (∀ fuel rs, reveal (S fuel) s rs = Some (s, rs)) ∧
  (∀ d w l, flag (set_outcome s d w l) = set_outcome (flag s) d w l) ∧
  (∀ d w l dy dx,
     move_cur dy dx (set_outcome s d w l) = set_outcome (move_cur dy dx s) d w l) ∧
  (board (flag s) = board s ∧ revealCount (flag s) = revealCount s ∧
   status (flag s) = status s) ∧
  (∀ dy dx, board (move_cur dy dx s) = board s ∧
            input_board (move_cur dy dx s) = input_board s ∧
            revealCount (move_cur dy dx s) = revealCount s ∧
            flagCount (move_cur dy dx s) = flagCount s ∧
            status (move_cur dy dx s) = status s).
Proof.
  intros Hs Hst. apply reachable_inv in Hs.
  apply status_decided in Hst.
  destruct (co_outcome _ (inv_counters _ Hs) Hst) as [Hd Hr].
  split; [|split; [|split; [|split]]].
  - intros fuel rs. unfold reveal.
    assert (first_safe (S fuel) s rs = Some (s, rs)) as ->.
    { simpl. by destruct (Z.eqb_spec (revealCount s) 0). }
    by rewrite r_reveal_unfold, Hd.
  - intros d w l. unfold flag.
    change (geti (set_outcome s d w l) (curY (set_outcome s d w l))
                 (curX (set_outcome s d w l)))
      with (geti s (curY s) (curX s)).
    destruct (geti s (curY s) (curX s) =? BLANK);
      [|destruct (geti s (curY s) (curX s) =? FLAGGED); [|done]].
    all: unfold seti;
      change (is_valid (set_outcome s d w l) (curY (set_outcome s d w l))
                       (curX (set_outcome s d w l)))
        with (is_valid s (curY s) (curX s));
      by destruct (is_valid s (curY s) (curX s)).
  - intros d w l dy dx. unfold move_cur.
    change (is_valid (set_outcome s d w l)) with (is_valid s).
    change (curY (set_outcome s d w l)) with (curY s).
    change (curX (set_outcome s d w l)) with (curX s).
    by destruct (is_valid s _ _).
  - unfold flag.
    destruct (geti s (curY s) (curX s) =? BLANK);
      [|destruct (geti s (curY s) (curX s) =? FLAGGED); [|done]].
    all: unfold seti; by destruct (is_valid s (curY s) (curX s)).
  - intros dy dx. unfold move_cur. by destruct (is_valid s _ _).
Qed.

Lemma decided_state_commands_witness :
  ∃ s s',
    SBoard_new 10 1 2 1 [0; 1] = Some (s, []) ∧
    reveal 10 s [] = Some (s', []) ∧ status s' = Won ∧
    reveal 1 s' [] = Some (s', []).
Proof.
  eexists. eexists.
  split; [vm_compute; reflexivity|].
  split; [vm_compute; reflexivity|].
  split; [vm_compute; reflexivity|].
  eapply decided_state_commands.
  - eapply (reach_exec 10 CReveal _ []).
    + eapply (reach_new 10 1 2 1 [0; 1]); [unfold valid_config; lia|].
      vm_compute; reflexivity.
    + intros ? ? [=].
    + vm_compute; reflexivity.
  - left. vm_compute; reflexivity.
Defined.

(** C6, as stated, fails: in a reachable [Won] state [move_cur] still moves
    the cursor and [flag] still flags the cell under it. *)
Lemma decided_state_still_mutable :
  ∃ s, reachable s ∧ status s = Won ∧
       curX (move_cur 0 1 s) ≠ curX s ∧
       input_board (flag (move_cur 0 1 s)) ≠ input_board (move_cur 0 1 s) ∧
       flagCount (flag (move_cur 0 1 s)) ≠ flagCount (move_cur 0 1 s).
Proof.
  destruct (SBoard_new 10 1 2 1 [0; 1]) as [[s0 rs0]|] eqn:E0; [|by vm_compute in E0].
  destruct (reveal 10 s0 rs0) as [[s rs]|] eqn:E1;
    [|vm_compute in E0; injection E0 as <- <-; by vm_compute in E1].
  exists s. split.
  - eapply (reach_exec 10 CReveal s0 rs0); [|intros ? ? [=]|exact E1].
    eapply (reach_new 10 1 2 1 [0; 1]); [unfold valid_config; lia|exact E0].
  - vm_compute in E0. injection E0 as <- <-.
    vm_compute in E1. injection E1 as <- <-.
    split; [by vm_compute|]. by repeat split; vm_compute; intros [=].
Qed.

(** ** The flag toggle *)

Lemma rd_lookup (a : list Z) i : (i < length a)%nat → a !! i = Some (rd a i).
Proof.
  intros Hi. unfold rd. by destruct (lookup_lt_is_Some_2 a i Hi) as [v ->].
Qed.

Lemma wrap8_inc_dec n : int8 n → wrap8 (wrap8 (n + 1) - 1) = n.
Proof.
  intros Hn. unfold int8 in Hn.
  destruct (decide (n = 127)) as [->|?]; [by vm_compute|].
  rewrite (wrap8_id (n + 1)) by (unfold int8; lia).
  rewrite wrap8_id; unfold int8; lia.
Qed.

Lemma wrap8_dec_inc n : int8 n → wrap8 (wrap8 (n - 1) + 1) = n.
Proof.
  intros Hn. unfold int8 in Hn.
  destruct (decide (n = -128)) as [->|?]; [by vm_compute|].
  rewrite (wrap8_id (n - 1)) by (unfold int8; lia).
  rewrite wrap8_id; unfold int8; lia.
Qed.

(** On a hidden cell [flag] sets the flag and steps the counter up; the
    counter is a [TCell], so the step from 127 lands on -128. *)
Lemma flag_hidden s :
  wf s → is_valid s (curY s) (curX s) = true →
  geti s (curY s) (curX s) = BLANK →
  geti (flag s) (curY s) (curX s) = FLAGGED ∧
  flagCount (flag s) = wrap8 (flagCount s + 1) ∧
  (∀ y x, (y, x) ≠ (curY s, curX s) → geti (flag s) y x = geti s y x).
Proof.
  intros Hwf Hc Hb. unfold flag. rewrite Hb. simpl.
  change (geti (set_flagCount ?t _)) with (geti t).
  split; [|split; [done|]].
  - rewrite geti_seti by done. by rewrite Hc, !Z.eqb_refl.
  - intros y x Hne. rewrite geti_seti by done. rewrite Hc. simpl.
    destruct (Z.eqb_spec (curY s) y) as [<-|?]; simpl; [|done].
    by destruct (Z.eqb_spec (curX s) x) as [<-|?].
Qed.

(** On a flagged cell [flag] clears the flag and steps the counter down. *)
Lemma flag_flagged s :
  wf s → is_valid s (curY s) (curX s) = true →
  geti s (curY s) (curX s) = FLAGGED →
  geti (flag s) (curY s) (curX s) = BLANK ∧
  flagCount (flag s) = wrap8 (flagCount s - 1) ∧
  (∀ y x, (y, x) ≠ (curY s, curX s) → geti (flag s) y x = geti s y x).
Proof.
  intros Hwf Hc Hb. unfold flag. rewrite Hb. simpl.
  change (geti (set_flagCount ?t _)) with (geti t).
  split; [|split; [done|]].
  - rewrite geti_seti by done. by rewrite Hc, !Z.eqb_refl.
  - intros y x Hne. rewrite geti_seti by done. rewrite Hc. simpl.
    destruct (Z.eqb_spec (curY s) y) as [<-|?]; simpl; [|done].
    by destruct (Z.eqb_spec (curX s) x) as [<-|?].
Qed.

(** On a revealed cell [flag] does nothing. *)
Lemma flag_revealed s : geti s (curY s) (curX s) = REVEAL → flag s = s.
Proof. intros Hr. unfold flag. by rewrite Hr. Qed.

Lemma seti_seti_restore s y x v :
  wf s → is_valid s y x = true →
  seti (seti s y x v) y x (geti s y x) = s.
Proof.
  intros Hwf Hv. unfold seti, geti. rewrite Hv. simpl.
  change (is_valid (set_input_board s _) y x) with (is_valid s y x).
  rewrite Hv. unfold set_input_board. simpl.
  change (idx {| curY := _ |} y x) with (idx s y x).
  rewrite list_insert_insert_eq, list_insert_id; [by destruct s|].
  apply rd_lookup. rewrite (wf_input _ Hwf).
  apply idx_lt; [apply Hwf|done].
Qed.

Lemma seti_cursor s y x v :
  curY (seti s y x v) = curY s ∧ curX (seti s y x v) = curX s.
Proof. unfold seti. by destruct (is_valid s y x). Qed.

Lemma seti_set_flagCount s n y x v :
  seti (set_flagCount s n) y x v = set_flagCount (seti s y x v) n.
Proof.
  unfold seti. change (is_valid (set_flagCount s n) y x) with (is_valid s y x).
  by destruct (is_valid s y x).
Qed.

(** [flag] on the state that [flag] produced. *)
Lemma flag_after s v w n :
  wf s → is_valid s (curY s) (curX s) = true →
  v = BLANK ∧ w = FLAGGED ∨ v = FLAGGED ∧ w = BLANK →
  geti s (curY s) (curX s) = v →
  flag (set_flagCount (seti s (curY s) (curX s) w) n) =
    set_flagCount s (wrap8 (if v =? BLANK then n - 1 else n + 1)).
Proof.
  intros Hwf Hc Hvw Hg.
  pose proof (seti_seti_restore s (curY s) (curX s) w Hwf Hc) as Hres.
  rewrite Hg in Hres.
  destruct (seti_cursor s (curY s) (curX s) w) as [Ey Ex].
  assert (geti (seti s (curY s) (curX s) w) (curY s) (curX s) = w) as Hw.
  { rewrite geti_seti by done. by rewrite Hc, !Z.eqb_refl. }
  unfold flag.
  change (geti (set_flagCount ?t ?m) (curY (set_flagCount ?t ?m))
               (curX (set_flagCount ?t ?m)))
    with (geti t (curY t) (curX t)).
  change (curY (set_flagCount ?t ?m)) with (curY t).
  change (curX (set_flagCount ?t ?m)) with (curX t).
  change (flagCount (set_flagCount ?t ?m)) with m.
  rewrite Ey, Ex, Hw, !seti_set_flagCount.
  destruct Hvw as [[-> ->]|[-> ->]]; simpl; by rewrite Hres.
Qed.

(** Two [flag] calls in a row on a cell that is not revealed restore the
    state, counter included (the narrowing of the counter is undone by the
    second call); on a revealed cell both calls do nothing. *)
Lemma flag_twice s :
  wf s → is_valid s (curY s) (curX s) = true → int8 (flagCount s) →
  flag (flag s) = s.
Proof.
  intros Hwf Hc Hfc.
  destruct (Z.eqb_spec (geti s (curY s) (curX s)) BLANK) as [Hb|Hnb].
  - unfold flag at 2. rewrite Hb. simpl.
    rewrite (flag_after s BLANK) by auto. simpl.
    rewrite wrap8_inc_dec by done. by destruct s.
  - destruct (Z.eqb_spec (geti s (curY s) (curX s)) FLAGGED) as [Hf|Hnf].
    + unfold flag at 2. rewrite Hf. simpl.
      rewrite (flag_after s FLAGGED) by auto. simpl.
      rewrite wrap8_dec_inc by done. by destruct s.
    + assert (flag s = s) as Hid.
      { unfold flag.
        destruct (Z.eqb_spec (geti s (curY s) (curX s)) BLANK); [done|].
        by destruct (Z.eqb_spec (geti s (curY s) (curX s)) FLAGGED). }
      by rewrite !Hid.
Qed.

(** C7 fails on the code at the 128th flag: after 127 flags on the
    intermediate board the cursor cell is hidden, and [flag] sets it to
    [FLAGGED] but takes [flagCount] from 127 to -128 instead of 128; the
    second [flag] restores 127. *)
Theorem flag_counter_wraps :
  ∃ s0 s,
    SBoard_new 200 16 16 40 (column_oracle 16 40) = Some (s0, []) ∧
    run 1 (flag_walk 127) s0 [] = Some (s, []) ∧
    reachable s ∧
    geti s (curY s) (curX s) = BLANK ∧ flagCount s = 127 ∧
    geti (flag s) (curY s) (curX s) = FLAGGED ∧
    flagCount (flag s) = -128 ∧
    flag (flag s) = s.
Proof.
  eexists. eexists.
  split; [vm_compute; reflexivity|].
  split; [vm_compute; reflexivity|].
  split.
  { eapply (reachable_run 1 (flag_walk 127) _ []).
    - eapply (reach_new 200 16 16 40 (column_oracle 16 40));
        [unfold valid_config; lia|vm_compute; reflexivity].
    - apply cmds_ok. vm_compute; reflexivity.
    - vm_compute; reflexivity. }
  repeat split; vm_compute; reflexivity.
Qed.

(** ** The win threshold *)

(** C4 fails on the code for the expert preset.  [max_reveal] returns a
    [TCell], so [16 * 30 - 99 = 381] is narrowed to 125: one reveal on the
    far side of an expert board floods until [revealCount] is 125 and the
    game is [Won] with 125 of the 381 safe cells revealed. *)
Theorem expert_won_at_125 :
  ∃ s0 s,
    SBoard_new 200 16 30 99 (column_oracle 16 99) = Some (s0, []) ∧
    run 200 [CMove 0 29; CReveal] s0 [] = Some (s, []) ∧
    reachable s ∧
    status s0 = Playing ∧ status s = Won ∧
    revealCount s = 125 ∧ occurrences REVEAL (input_board s) = 125 ∧
    height s * width s - mines s = 381 ∧ max_reveal s = 125.
Proof.
  eexists. eexists.
  split; [vm_compute; reflexivity|].
  split; [vm_compute; reflexivity|].
  split.
  { eapply (reachable_run 200 [CMove 0 29; CReveal] _ []).
    - eapply (reach_new 200 16 30 99 (column_oracle 16 99));
        [unfold valid_config; lia|vm_compute; reflexivity].
    - apply cmds_ok. vm_compute; reflexivity.
    - vm_compute; reflexivity. }
  repeat split; vm_compute; reflexivity.
Qed.

(** The same narrowing on the intermediate preset gives a negative
    threshold: the first reveal wins. *)
Lemma intermediate_won_at_1 :
  ∃ s0 s,
    SBoard_new 200 16 16 40 (column_oracle 16 40) = Some (s0, []) ∧
    run 200 [CMove 0 15; CReveal] s0 [] = Some (s, []) ∧
    status s = Won ∧ revealCount s = 1 ∧
    height s * width s - mines s = 216 ∧ max_reveal s = -40.
Proof.
  eexists. eexists.
  split; [vm_compute; reflexivity|].
  split; [vm_compute; reflexivity|].
  repeat split; vm_compute; reflexivity.
Qed.

(** Where the difference fits a [TCell] the threshold is exact. *)
Lemma max_reveal_exact s :
  -128 ≤ height s * width s - mines s ≤ 127 →
  max_reveal s = height s * width s - mines s.
Proof. intros. by apply wrap8_id. Qed.

(** * The fill visits no cell twice and terminates *)

Lemma elem_of_cells s c : c ∈ cells s ↔ is_valid s c.1 c.2 = true.
Proof.
  unfold cells. destruct c as [y x]. simpl.
  rewrite list_elem_of_In, in_prod_iff, <- !list_elem_of_In, !elem_of_seqZ.
  rewrite is_valid_spec. lia.
Qed.

Lemma length_cells s :
  wf s → Z.of_nat (length (cells s)) = height s * width s.
Proof.
  intros Hwf. unfold cells. rewrite length_prod, !length_seqZ.
  pose proof (wf_height _ Hwf). pose proof (wf_width _ Hwf). nia.
Qed.

Lemma revealed_mark s y x :
  wf s → is_valid s y x = true →
  revealed (mark s y x) =
    revealed s + (if geti s y x =? REVEAL then 0 else 1).
Proof.
  intros Hwf Hv. unfold mark.
  destruct (Z.eqb_spec (geti s y x) REVEAL) as [He|Hne]; simpl; [lia|].
  unfold revealed, seti. rewrite Hv. simpl.
  rewrite occurrences_insert
    by (rewrite (wf_input _ Hwf); apply idx_lt; [apply Hwf|done]).
  unfold geti in Hne. rewrite Hv in Hne.
  destruct (Z.eqb_spec (rd (input_board s) (idx s y x)) REVEAL); [done|].
  simpl. lia.
Qed.

Lemma revealed_mark_invalid s y x :
  is_valid s y x = false → revealed (mark s y x) = revealed s.
Proof.
  intros Hv. unfold mark, revealed, seti. rewrite Hv. by destruct (negb _).
Qed.

(** A fill never un-reveals a slot. *)
Lemma r_reveal_revealed fuel y x st st' :
  wf st.1 → r_reveal fuel y x st = Some st' →
  revealed st.1 ≤ revealed st'.1.
Proof.
  intros Hwf Hr.
  assert (∀ s y x, wf s → revealed s ≤ revealed (mark s y x)) as Hmark.
  { clear. intros s y x Hwf. destruct (is_valid s y x) eqn:Hv.
    - rewrite revealed_mark by done. destruct (_ =? _); lia.
    - rewrite revealed_mark_invalid by done. lia. }
  apply (r_reveal_rule_grows (λ _ _ st st', revealed st.1 ≤ revealed st'.1))
    in Hr as [_ Hr]; [done|clear -Hmark; cbn [fst]..|done].
  - done.
  - done.
  - intros y x s log Hwf _ _ _. by apply Hmark.
  - intros y x s log Hwf _ _ _ _. by apply Hmark.
  - intros y x s log Hwf _ _ _ _ _. by apply Hmark.
  - intros y x s log st' Hwf _ _ _ _ _ _ _.
    apply (Steps_fold _ (λ st2, revealed s ≤ revealed st2.1)).
    + intros c st1 st2 _ Hst1. unfold nb_rel.
      destruct (nb_guard y x c st1.1); [|by intros ->].
      intros [_ Hle]. lia.
    + cbn [fst]. by apply Hmark.
Qed.

Lemma log_ok_refl y x st : log_ok y x st st.
Proof.
  exists []. split; [by rewrite app_nil_r|]. split; [apply NoDup_nil_2|].
  intros c Hc. by apply elem_of_nil in Hc.
Qed.

Lemma log_ok_single y x s s' log :
  is_valid s y x = true → geti s' y x = REVEAL →
  log_ok y x (s, log) (s', log ++ [(y, x)]).
Proof.
  intros Hv Hr. exists [(y, x)]. split; [done|]. split; [apply NoDup_singleton|].
  intros c ->%list_elem_of_singleton. by repeat split; [..|left].
Qed.

Lemma geti_mark_self s y x :
  wf s → is_valid s y x = true → geti (mark s y x) y x = REVEAL.
Proof. intros Hwf Hv. rewrite geti_mark by done. by rewrite Hv, !Z.eqb_refl. Qed.

Lemma r_reveal_log fuel y x st st' :
  wf st.1 → r_reveal fuel y x st = Some st' →
  is_valid st.1 y x = true → log_ok y x st st'.
Proof.
  intros Hwf Hr.
  apply (r_reveal_rule_grows
           (λ y x st st', is_valid st.1 y x = true → log_ok y x st st'))
    in Hr as [_ Hr]; [done|clear; cbn [fst]..|done].
  - intros. apply log_ok_refl.
  - intros. apply log_ok_refl.
  - intros y x s log Hwf _ _ _ Hv. apply log_ok_single; [done|].
    by apply geti_mark_self.
  - intros y x s log Hwf _ _ _ _ Hv. apply log_ok_single; [done|].
    by apply geti_mark_self.
  - intros y x s log Hwf _ _ _ _ _ Hv. apply log_ok_single; [done|].
    by apply geti_mark_self.
  - intros y x s log st' Hwf _ Hf _ _ Hv _ _ Hsteps _.
    pose proof (grows_mark s y x Hwf Hf) as Hg0.
    pose proof (geti_mark_self s y x Hwf Hv) as Hself.
    assert (log_inv (mark s y x) (log ++ [(y, x)]) st') as [Hg (t & Et & Hnd & Ht)].
    { revert Hsteps.
      apply (Steps_fold _ (log_inv (mark s y x) (log ++ [(y, x)]))).
      - intros c0 st1 st2 _ [Hg1 (t & Et & Hnd & Ht)]. unfold nb_rel.
        destruct (nb_guard y x c0 st1.1) eqn:Hguard;
          [|intros ->; split; [done|by exists t]].
        apply nb_guard_spec in Hguard as (Hv0 & _ & Hnr0).
        intros [Hg2 Hlog]. destruct (Hlog Hv0) as (t2 & Et2 & Hnd2 & Ht2).
        split; [exact (grows_trans _ _ _ Hg1 Hg2)|].
        exists (t ++ t2). split; [by rewrite Et2, Et, app_assoc|].
        assert (∀ c, c ∈ t2 → geti st1.1 c.1 c.2 ≠ REVEAL) as Hfresh.
        { intros c Hc. by destruct (Ht2 c Hc) as (_ & _ & [->|?]). }
        split.
        + apply NoDup_app. split; [done|]. split; [|done].
          intros c Hc Hc2. apply (Hfresh c Hc2).
          destruct (Ht c Hc) as (_ & Hr & _). done.
        + intros c [Hc|Hc]%elem_of_app.
          * destruct (Ht c Hc) as (Hvc & Hr & Hn).
            split; [done|]. split; [|done]. by eapply grows_revealed.
          * destruct (Ht2 c Hc) as (Hvc & Hr & _).
            split; [|split; [done|]].
            -- by rewrite (grows_valid (mark s y x) st1.1) in Hvc.
            -- intros Hm. apply (Hfresh c Hc). by eapply grows_revealed.
      - split; [apply grows_refl|]. exists []. rewrite app_nil_r.
        split; [done|]. split; [apply NoDup_nil_2|]. by intros c Hc%elem_of_nil. }
    exists ((y, x) :: t). split; [by rewrite Et, <- app_assoc|].
    split.
    + apply NoDup_cons. split; [|done].
      intros Hin. by destruct (Ht _ Hin) as (_ & _ & Hn).
    + intros c [->|Hc]%elem_of_cons.
      * split; [done|]. split; [by eapply grows_revealed|by left].
      * destruct (Ht c Hc) as (Hvc & Hr & Hn).
        rewrite (grows_valid s (mark s y x)) in Hvc by done.
        split; [done|]. split; [done|].
        right. intros Hs. apply Hn. by eapply grows_revealed.
Qed.

Lemma seq_steps_total {St : Type} (Inv : St → Prop) step cs :
  (∀ c st, c ∈ cs → Inv st → ∃ st', step c st = Some st' ∧ Inv st') →
  ∀ st, Inv st → ∃ st', seq_steps step cs st = Some st' ∧ Inv st'.
Proof.
  induction cs as [|c cs IH]; intros Hstep st Hst; simpl; [by exists st|].
  destruct (Hstep c st) as (st1 & -> & Hst1); [by left|done|].
  apply IH; [|done]. intros c' st2 Hin. apply Hstep. by right.
Qed.

Lemma board_ok_zero_in_range s : board_ok s → zero_in_range s.
Proof.
  intros [_ Hd] y x Hz.
  assert (is_valid s y x = true) as Hv by (apply get_valid; by rewrite Hz).
  destruct (Hd y x Hv) as (_ & ? & ?); [by rewrite Hz|done].
Qed.

Lemma unrevealed_nonneg s : 0 ≤ unrevealed s.
Proof.
  unfold unrevealed, revealed.
  pose proof (occurrences_bounds REVEAL (input_board s)). lia.
Qed.

Lemma unrevealed_le s s' :
  wf s → wf s' → grows s s' → revealed s ≤ revealed s' →
  unrevealed s' ≤ unrevealed s.
Proof.
  intros Hwf Hwf' Hg Hle. unfold unrevealed.
  rewrite (wf_input _ Hwf), (wf_input _ Hwf'), (g_height _ _ Hg), (g_width _ _ Hg).
  lia.
Qed.

(** With fuel beyond the number of unrevealed slots the fill returns. *)
Lemma r_reveal_total fuel :
  ∀ y x s log,
    wf s → zero_in_range s →
    unrevealed s + (if geti s y x =? REVEAL then 5 else 4) ≤ Z.of_nat fuel →
    ∃ st', r_reveal fuel y x (s, log) = Some st'.
Proof.
  induction fuel as [|fuel IH]; intros y x s log Hwf Hzr Hfuel.
  { pose proof (unrevealed_nonneg s). destruct (_ =? _); lia. }
  rewrite r_reveal_unfold.
  destruct (done s); [by eexists|].
  destruct (Z.eqb_spec (geti s y x) FLAGGED) as [Hf|Hf]; [by eexists|].
  destruct (get s y x =? MINE); [by eexists|].
  destruct (_ >=? _); [by eexists|].
  destruct (Z.eqb_spec (get s y x) ZERO_CHAR) as [Hz|Hz]; [|by eexists].
  assert (is_valid s y x = true) as Hv by (apply get_valid; by rewrite Hz).
  pose proof Hv as Hv'. apply is_valid_spec in Hv'.
  pose proof (wf_height _ Hwf). pose proof (wf_width _ Hwf).
  destruct (Hzr y x Hz) as [Hy Hx].
  pose proof (wf_mark s y x Hwf) as Hwf1.
  pose proof (grows_mark s y x Hwf Hf) as Hg1.
  pose proof (revealed_mark s y x Hwf Hv) as Hrev.
  assert (unrevealed (mark s y x) + 4 ≤ Z.of_nat fuel) as Hfuel1.
  { unfold unrevealed in *.
    rewrite (wf_input _ Hwf1), (g_height _ _ Hg1), (g_width _ _ Hg1),
      <- (wf_input _ Hwf), Hrev.
    destruct (geti s y x =? REVEAL); lia. }
  pose proof (unrevealed_nonneg (mark s y x)).
  rewrite for_block_spec by lia.
  destruct (Z.leb_spec y 125); [|lia]. destruct (Z.leb_spec x 125); [|lia].
  destruct (Nat.leb_spec 4 fuel); [|lia]. cbn [andb].
  destruct (seq_steps_total
              (λ st, wf st.1 ∧ grows (mark s y x) st.1 ∧
                     revealed (mark s y x) ≤ revealed st.1)
              (λ c, nb_step fuel y x (c.1, c.2)) (block y x))
    with (st := (mark s y x, log ++ [(y, x)])) as (st' & Hst' & _);
    [| |by exists st'].
  - intros c [s1 log1] _ (Hwf2 & Hg2 & Hle2). cbn [fst] in *.
    unfold nb_step. cbn [fst snd].
    destruct (nb_guard y x (c.1, c.2) s1) eqn:Hguard; [|by eexists].
    apply nb_guard_spec in Hguard as (Hvc & _ & Hnr). cbn [fst snd] in *.
    destruct (IH c.1 c.2 s1 log1) as [st2 Hst2]; [done| |
      |exists st2; split; [done|]; split; [|split]].
    + intros y' x'. rewrite (grows_get (mark s y x) s1), (grows_get s (mark s y x))
        by done. apply Hzr.
    + destruct (Z.eqb_spec (geti s1 c.1 c.2) REVEAL); [done|].
      pose proof (unrevealed_le _ _ Hwf1 Hwf2 Hg2 Hle2). lia.
    + by apply (r_reveal_wf _ _ _ (s1, log1) st2 Hwf2) in Hst2.
    + apply (r_reveal_grows _ _ _ (s1, log1) st2 Hwf2) in Hst2.
      by eapply grows_trans.
    + apply (r_reveal_revealed _ _ _ (s1, log1) st2 Hwf2) in Hst2.
      cbn [fst] in Hst2. lia.
  - cbn [fst]. split; [done|]. split; [apply grows_refl|lia].
Qed.

Lemma length_log_bound s (t : list (Z * Z)) :
  wf s → NoDup t → (∀ c, c ∈ t → is_valid s c.1 c.2 = true) →
  Z.of_nat (length t) ≤ height s * width s.
Proof.
  intros Hwf Hnd Ht. rewrite <- (length_cells s Hwf).
  apply Nat2Z.inj_le, submseteq_length, NoDup_submseteq; [done|].
  intros c Hc. by apply elem_of_cells, Ht.
Qed.

Lemma r_reveal_returns fuel y x s log :
  inv s →
  (Z.to_nat (height s * width s) + 5 ≤ fuel)%nat →
  ∃ st', r_reveal fuel y x (s, log) = Some st'.
Proof.
  intros [Hwf _ Hb _ _] Hfuel.
  apply r_reveal_total; [done|by apply board_ok_zero_in_range|].
  unfold unrevealed. rewrite (wf_input _ Hwf).
  pose proof (occurrences_bounds REVEAL (input_board s)).
  unfold revealed. destruct (_ =? _); lia.
Qed.

(** C9. From a reachable state the flood fill on a cell of the grid (the
    cursor cell is one) returns once the fuel exceeds [height * width + 4];
    the cells it visits are pairwise distinct cells of the grid, so there
    are at most [height * width] visits. *)
Theorem flood_fill_terminates s y x :
  reachable s → is_valid s y x = true →
  is_valid s (curY s) (curX s) = true ∧
  ∀ fuel,
    (Z.to_nat (height s * width s) + 5 ≤ fuel)%nat →
    ∃ s' log,
      r_reveal fuel y x (s, []) = Some (s', log) ∧
      NoDup log ∧
      (∀ c, c ∈ log → is_valid s c.1 c.2 = true) ∧
      Z.of_nat (length log) ≤ height s * width s.
Proof.
  intros Hs Hv. apply reachable_inv in Hs.
  split; [apply Hs|]. intros fuel Hfuel.
  destruct (r_reveal_returns fuel y x s [] Hs Hfuel) as [[s' log] Hr].
  destruct Hs as [Hwf _ Hb Hc _].
  exists s', log. split; [done|].
  destruct (r_reveal_log fuel y x (s, []) (s', log) Hwf Hr Hv)
    as (t & Et & Hnd & Ht).
  simpl in Et. subst t.
  assert (∀ c, c ∈ log → is_valid s c.1 c.2 = true) as Hvalid.
  { intros c Hin. by destruct (Ht c Hin). }
  split; [done|]. split; [done|]. by apply length_log_bound.
Qed.

Lemma flood_fill_terminates_witness :
  ∃ s, SBoard_new 10 3 3 1 [2; 2] = Some (s, []) ∧
       ∃ s' log, r_reveal 14 0 0 (s, []) = Some (s', log) ∧
                 NoDup log ∧ Z.of_nat (length log) ≤ 9.
Proof.
  eexists. split; [vm_compute; reflexivity|].
  match goal with
  | |- context [r_reveal _ _ _ (?s, [])] =>
      assert (reachable s) as Hs
        by (eapply (reach_new 10 3 3 1 [2; 2]);
            [unfold valid_config; lia|vm_compute; reflexivity]);
      destruct (flood_fill_terminates s 0 0 Hs) as [_ Hfill];
        [vm_compute; reflexivity|]
  end.
  destruct (Hfill 14%nat) as (s' & log & Hr & Hnd & _ & Hlen);
    [vm_compute; lia|].
  exists s', log. split; [exact Hr|]. split; [exact Hnd|exact Hlen].
Defined.

(** * The region a fill reveals *)

Lemma count_ok_mark s y x :
  wf s → is_valid s y x = true → done s = false → count_ok s →
  revealCount (mark s y x) = revealed (mark s y x).
Proof.
  intros Hwf Hv Hd [Hco Hrc].
  pose proof (mark_count s y x Hco Hd) as Hm.
  rewrite revealed_mark by done. rewrite revealCount_mark in Hm |- *.
  destruct (geti s y x =? REVEAL); [lia|].
  pose proof (co_range _ Hco).
  destruct (decide (revealCount s = 127)) as [E|?].
  - rewrite E in Hm. change (wrap8 (127 + 1)) with (-128) in Hm. lia.
  - rewrite wrap8_id; unfold int8; lia.
Qed.

Lemma r_reveal_count fuel y x st st' :
  wf st.1 → r_reveal fuel y x st = Some st' →
  is_valid st.1 y x = true → count_ok st.1 → count_ok st'.1.
Proof.
  intros Hwf Hr.
  apply (r_reveal_rule_grows
           (λ y x st st', is_valid st.1 y x = true →
                           count_ok st.1 → count_ok st'.1))
    in Hr as [_ Hr]; [done|clear; cbn [fst]..|done].
  - done.
  - done.
  - intros y x s log Hwf Hd _ _ Hv Hc. split.
    + apply counters_ok_decided; [apply Hc|done].
    + by apply count_ok_mark.
  - intros y x s log Hwf Hd _ _ _ Hv Hc. split.
    + apply counters_ok_decided; [apply Hc|done].
    + by apply count_ok_mark.
  - intros y x s log Hwf Hd _ _ Hlt _ Hv Hc. split.
    + apply counters_ok_mark; [apply Hc|done..].
    + by apply count_ok_mark.
  - intros y x s log st' Hwf Hd _ _ Hlt Hv _ _ Hsteps _ Hc.
    revert Hsteps. apply (Steps_fold _ (λ st2, count_ok st2.1)).
    + intros c st1 st2 _ Hst1. unfold nb_rel.
      destruct (nb_guard y x c st1.1) eqn:Hguard; [|by intros ->].
      apply nb_guard_spec in Hguard as (Hvc & _).
      intros [_ Hp]. by apply Hp.
    + cbn [fst]. split.
      * apply counters_ok_mark; [apply Hc|done..].
      * by apply count_ok_mark.
Qed.

Lemma revealed_fresh s : wf s → fresh s → revealed s = 0.
Proof.
  intros Hwf Hfr. unfold revealed.
  pose proof (occurrences_bounds REVEAL (input_board s)) as Hb.
  destruct (decide (occurrences REVEAL (input_board s) = 0)) as [|Hne]; [done|].
  exfalso.
  assert (∀ a : list Z, 0 < occurrences REVEAL a →
            ∃ i, (i < length a)%nat ∧ rd a i = REVEAL) as Hex.
  { clear. induction a as [|u a IH]; simpl; [lia|].
    destruct (Z.eqb_spec u REVEAL) as [->|?].
    - intros _. exists 0%nat. split; [lia|done].
    - intros Hpos. destruct IH as (i & Hi & Hr); [lia|].
      exists (S i). split; [lia|done]. }
  destruct (Hex (input_board s)) as (i & Hi & Hr); [lia|].
  rewrite (wf_input _ Hwf) in Hi.
  pose proof (wf_height _ Hwf) as Hh. pose proof (wf_width _ Hwf) as Hw.
  assert (is_valid s (Z.of_nat i `mod` height s) (Z.of_nat i `div` height s) = true)
    as Hv.
  { apply is_valid_spec.
    pose proof (Z.mod_pos_bound (Z.of_nat i) (height s)).
    split; [lia|]. split; [apply Z.div_pos; lia|].
    apply Z.div_lt_upper_bound; nia. }
  pose proof (fr_blank _ Hfr _ _ Hv) as Hblank.
  unfold geti in Hblank. rewrite Hv in Hblank.
  replace (idx s _ _) with i in Hblank.
  - rewrite Hr in Hblank. done.
  - unfold idx.
    rewrite (Z.mul_comm _ (height s)), <- Z.div_mod by lia. lia.
Qed.

Lemma revealed_flag s : wf s → revealed (flag s) = revealed s.
Proof.
  intros Hwf. unfold flag.
  assert (∀ v n, v ≠ REVEAL → geti s (curY s) (curX s) ≠ REVEAL →
            revealed (set_flagCount (seti s (curY s) (curX s) v) n) = revealed s)
    as Hset.
  { intros v n Hv Hg. unfold revealed, seti, geti in *.
    destruct (is_valid s (curY s) (curX s)) eqn:Hc; [|done]. simpl.
    rewrite occurrences_insert
      by (rewrite (wf_input _ Hwf); apply idx_lt; [apply Hwf|done]).
    destruct (Z.eqb_spec (rd (input_board s) (idx s (curY s) (curX s))) REVEAL);
      [done|].
    destruct (Z.eqb_spec v REVEAL); [done|lia]. }
  destruct (Z.eqb_spec (geti s (curY s) (curX s)) BLANK) as [E|?].
  - apply Hset; [done|by rewrite E].
  - destruct (Z.eqb_spec (geti s (curY s) (curX s)) FLAGGED) as [E|?]; [|done].
    apply Hset; [done|by rewrite E].
Qed.

(** In every reachable state [revealCount] equals the number of revealed
    cells. *)
Lemma reachable_count s : reachable s → revealCount s = revealed s.
Proof.
  induction 1 as [fuel h w m rs s rs' (Hh & Hw & Hm & Hm') Hnew
                 |fuel c s rs s' rs' Hs IH _ Hexec].
  - apply SBoard_new_spec in Hnew; [|lia..].
    destruct Hnew as (Hwf & _ & Hfr & _).
    by rewrite (revealed_fresh s), (fr_reveal _ Hfr).
  - apply reachable_inv in Hs.
    destruct c as [dy dx| | |]; simpl in Hexec.
    + injection Hexec as <- <-. unfold move_cur. by destruct (is_valid s _ _).
    + unfold reveal in Hexec.
      destruct (first_safe fuel s rs) as [[s1 rs1]|] eqn:Hfs; [|done].
      apply first_safe_spec in Hfs as (Hinv1 & _ & _ & Hor); [|done].
      destruct (r_reveal _ _ _ _) as [[s2 log2]|] eqn:Hr; [|done].
      injection Hexec as <- <-.
      apply (r_reveal_count _ _ _ (s1, []) (s2, log2)) in Hr;
        [apply Hr|apply Hinv1|apply Hinv1|].
      split; [apply Hinv1|]. cbn [fst]. destruct Hor as [->|Hfr]; [done|].
      rewrite (revealed_fresh s1); [apply Hfr|apply Hinv1|done].
    + injection Hexec as <- <-. rewrite revealed_flag by apply Hs.
      rewrite <- IH. unfold flag.
      destruct (_ =? BLANK); [|destruct (_ =? FLAGGED); [|done]].
      all: unfold seti; by destruct (is_valid s (curY s) (curX s)).
    + by injection Hexec as <- <-.
Qed.

Lemma closed_at_grows s s' z : grows s s' → closed_at s z → closed_at s' z.
Proof.
  intros Hg Hc c Hin Hv. rewrite (grows_valid s s') in Hv by done.
  destruct (Hc c Hin Hv) as [Hr|Hf].
  - left. by eapply grows_revealed.
  - right. by apply (grows_flagged s s').
Qed.

Lemma fill_reach_valid s y0 x0 c :
  is_valid s y0 x0 = true → fill_reach s y0 x0 c → is_valid s c.1 c.2 = true.
Proof. intros Hv. by destruct 1. Qed.

Lemma fill_reach_cases s y0 x0 c :
  fill_reach s y0 x0 c → c = (y0, x0) ∨ geti s c.1 c.2 ≠ REVEAL.
Proof. destruct 1; [by left|by right]. Qed.

(** A fill started later, on a reached cell, reaches nothing new. *)
Lemma fill_reach_mono s s1 y0 x0 c0 c :
  grows s s1 →
  fill_reach s y0 x0 c0 →
  fill_reach s1 c0.1 c0.2 c →
  fill_reach s y0 x0 c.
Proof.
  intros Hg H0. induction 1 as [|z c Hz IH Hzero Hin Hv Hnr Hnf].
  - by destruct c0.
  - apply (fill_step s y0 x0 z c); [exact IH| |exact Hin| | |].
    + by rewrite <- (grows_get s s1).
    + by rewrite <- (grows_valid s s1).
    + intros Hr. apply Hnr. by eapply grows_revealed.
    + intros Hf. apply Hnf. by apply (grows_flagged s s1).
Qed.

Lemma geti_mark_cases s y x c :
  wf s → geti (mark s y x) c.1 c.2 = REVEAL →
  geti s c.1 c.2 = REVEAL ∨ c = (y, x).
Proof.
  intros Hwf. rewrite geti_mark by done.
  destruct (is_valid s y x); simpl; [|by left].
  destruct (Z.eqb_spec y c.1) as [->|?]; simpl; [|by left].
  destruct (Z.eqb_spec x c.2) as [->|?]; simpl; [|by left].
  intros _. right. by destruct c.
Qed.

Lemma r_reveal_sound fuel y x st st' :
  wf st.1 → r_reveal fuel y x st = Some st' → fill_sound y x st st'.
Proof.
  intros Hwf Hr.
  assert (∀ y x s, wf s → geti s y x ≠ FLAGGED →
            ∀ c, geti (mark s y x) c.1 c.2 = REVEAL →
                 geti s c.1 c.2 = REVEAL ∨
                 (geti s y x ≠ FLAGGED ∧ fill_reach s y x c)) as Hmark.
  { clear. intros y x s Hwf Hf c Hc.
    destruct (geti_mark_cases s y x c Hwf Hc) as [?|E]; [by left|].
    right. split; [done|]. rewrite E. constructor. }
  apply (r_reveal_rule_grows fill_sound) in Hr as [_ Hr];
    [done|clear -Hmark; unfold fill_sound; cbn [fst]..|done].
  - intros. by left.
  - intros. by left.
  - intros y x s log Hwf _ Hf _. by apply Hmark.
  - intros y x s log Hwf _ Hf _ _. by apply Hmark.
  - intros y x s log Hwf _ Hf _ _ _. by apply Hmark.
  - intros y x s log st' Hwf _ Hf Hz _ Hv _ _ Hsteps.
    pose proof (grows_mark s y x Hwf Hf) as Hg0.
    cut (grows s st'.1 ∧
         ∀ c, geti st'.1 c.1 c.2 = REVEAL →
              geti s c.1 c.2 = REVEAL ∨ fill_reach s y x c).
    { intros [_ Hc] c Hr. destruct (Hc c Hr); [by left|by right]. }
    revert Hsteps.
    apply (Steps_fold _ (λ st2, grows s st2.1 ∧
             ∀ c, geti st2.1 c.1 c.2 = REVEAL →
                  geti s c.1 c.2 = REVEAL ∨ fill_reach s y x c)).
    + intros c0 st1 st2 Hin [Hg1 Hs1]. unfold nb_rel.
      destruct (nb_guard y x c0 st1.1) eqn:Hguard; [|by intros ->].
      apply nb_guard_spec in Hguard as (Hv0 & Hne & Hnr0).
      intros [Hg2 Hsub]. split; [exact (grows_trans _ _ _ Hg1 Hg2)|].
      intros c Hc. destruct (Hsub c Hc) as [Hold|[Hnf Hreach]]; [by apply Hs1|].
      right. apply (fill_reach_mono s st1.1 y x c0 c); [done| |done].
      apply (fill_step s y x (y, x) c0); [constructor|done|..].
      * by apply block_neighbours.
      * by rewrite <- (grows_valid s st1.1).
      * intros Hr. apply Hnr0. by eapply grows_revealed.
      * intros Hf0. apply Hnf. by apply (grows_flagged s st1.1).
    + cbn [fst]. split; [done|]. intros c Hc.
      destruct (Hmark y x s Hwf Hf c Hc) as [?|[_ ?]]; [by left|by right].
Qed.

Lemma Steps_split (R : Z * Z → RState → RState → Prop) cs st st' c :
  Steps R cs st st' → c ∈ cs →
  ∃ cs1 cs2 st1 st2,
    cs = cs1 ++ c :: cs2 ∧ Steps R cs1 st st1 ∧ R c st1 st2 ∧ Steps R cs2 st2 st'.
Proof.
  induction 1 as [|c' cs st st1 st2 HR Hrest IH]; [by intros ?%elem_of_nil|].
  intros [->|Hin]%elem_of_cons.
  - exists [], cs, st, st1. split; [done|]. split; [constructor|done].
  - destruct (IH Hin) as (cs1 & cs2 & sta & stb & -> & H1 & H2 & H3).
    exists (c' :: cs1), cs2, sta, stb. split; [done|].
    split; [by econstructor|done].
Qed.

Lemma neighbours_block y x c :
  c ∈ neighbours y x → c ∈ block y x ∧ (c.1 ≠ y ∨ c.2 ≠ x).
Proof.
  unfold block, neighbours. intros Hc.
  repeat (apply elem_of_cons in Hc as [->|Hc];
          [split; [repeat constructor|simpl; lia]|]).
  by apply elem_of_nil in Hc.
Qed.

Lemma Steps_closed_inv y x cs s1 log1 st' :
  Steps (nb_rel (λ y x st st', grows st.1 st'.1 ∧ fill_closed y x st st') y x)
        cs (s1, log1) st' →
  closed_inv s1 st'.
Proof.
  apply (Steps_fold _ (closed_inv s1)).
  - intros c0 st1 st2 _ [Hg1 Hcl1]. unfold nb_rel.
    destruct (nb_guard y x c0 st1.1); [|by intros ->].
    intros [Hg2 Hsub]. split; [exact (grows_trans _ _ _ Hg1 Hg2)|].
    intros Hd2 z Hn1 Hr2 Hzz.
    pose proof (g_done _ _ Hg2 Hd2) as Hd1.
    destruct (decide (geti st1.1 z.1 z.2 = REVEAL)) as [Hr1|Hr1].
    + apply (closed_at_grows st1.1); [done|]. by apply Hcl1.
    + destruct (Hsub Hd2) as [_ HB]. apply HB; [by right|].
      by rewrite (grows_get s1 st1.1).
  - split; [apply grows_refl|]. cbn [fst]. by intros _ z Hn Hr.
Qed.

Lemma Steps_closed_centre y x s1 log1 st' :
  Steps (nb_rel (λ y x st st', grows st.1 st'.1 ∧ fill_closed y x st st') y x)
        (block y x) (s1, log1) st' →
  done st'.1 = false →
  closed_at st'.1 (y, x).
Proof.
  intros Hsteps Hd' c Hin Hvc. cbn [fst snd] in Hin.
  destruct (neighbours_block y x c Hin) as [Hb Hne].
  destruct (Steps_split _ _ _ _ c Hsteps Hb)
    as (cs1 & cs2 & sta & stb & _ & H1 & HR & H3).
  apply Steps_grows in H1. apply Steps_grows in H3. cbn [fst] in H1.
  unfold nb_rel in HR.
  destruct (nb_guard y x c sta.1) eqn:Hguard.
  - destruct HR as [Hgab Hsub].
    pose proof (g_done _ _ H3 Hd') as Hdb.
    destruct (Hsub Hdb) as [HA _].
    destruct (decide (geti sta.1 c.1 c.2 = FLAGGED)) as [Hfl|Hfl].
    + right. apply (grows_flagged sta.1 st'.1); [|done].
      exact (grows_trans _ _ _ Hgab H3).
    + left. apply (grows_revealed stb.1 st'.1); [done|].
      apply HA; [|done].
      by rewrite (grows_valid stb.1 st'.1), (grows_valid sta.1 stb.1) in Hvc.
  - subst stb.
    destruct (decide (geti sta.1 c.1 c.2 = REVEAL)) as [Hr|Hr].
    + left. by apply (grows_revealed sta.1 st'.1).
    + exfalso. apply not_true_iff_false in Hguard. apply Hguard.
      apply nb_guard_spec. split; [|done].
      by rewrite (grows_valid sta.1 st'.1) in Hvc.
Qed.

Lemma r_reveal_closed fuel y x st st' :
  wf st.1 → r_reveal fuel y x st = Some st' → fill_closed y x st st'.
Proof.
  intros Hwf Hr.
  apply (r_reveal_rule_grows fill_closed) in Hr as [_ Hr];
    [done|clear; unfold fill_closed; cbn [fst]..|done].
  - intros y x s log Hd Hd'. congruence.
  - intros y x s log _ _ Hf _. split; [done|].
    intros z [[_ ?]|[? ?]]; done.
  - done.
  - done.
  - intros y x s log Hwf _ Hf _ _ Hnz _. split.
    + intros Hv _. by apply geti_mark_self.
    + intros z [[-> _]|[Hn Hr]] Hzz; [done|].
      destruct (geti_mark_cases s y x z Hwf Hr) as [Hold| ->]; done.
  - intros y x s log st' Hwf _ Hf Hz _ Hv _ _ Hsteps Hd'.
    pose proof (Steps_closed_inv _ _ _ _ _ _ Hsteps) as [Hg Hcl].
    pose proof (Steps_closed_centre _ _ _ _ _ Hsteps Hd') as Hcentre.
    split.
    + intros _ _. apply (grows_revealed (mark s y x)); [done|].
      by apply geti_mark_self.
    + intros z Hcase Hzz.
      destruct (decide (z = (y, x))) as [->|Hne]; [done|].
      destruct Hcase as [[? _]|[Hn Hr]]; [done|].
      apply Hcl; [done| |done|by rewrite get_mark].
      intros Hm. by destruct (geti_mark_cases s y x z Hwf Hm).
Qed.

(** Completeness: a fill that leaves the game undecided has revealed every
    reached cell. *)
Lemma r_reveal_complete fuel y x s log s' log' :
  wf s → r_reveal fuel y x (s, log) = Some (s', log') →
  done s' = false → is_valid s y x = true → geti s y x ≠ FLAGGED →
  ∀ c, fill_reach s y x c → geti s' c.1 c.2 = REVEAL.
Proof.
  intros Hwf Hr Hd' Hv Hf.
  pose proof (r_reveal_grows fuel y x (s, log) (s', log') Hwf Hr) as Hg.
  destruct (r_reveal_closed fuel y x (s, log) (s', log') Hwf Hr Hd') as [HA HB].
  cbn [fst] in *.
  induction 1 as [|z c Hz IH Hzero Hin Hvc Hnr Hnf]; [by apply HA|].
  assert (closed_at s' z) as Hcl.
  { apply HB; [|done].
    destruct (fill_reach_cases _ _ _ _ Hz) as [->|?]; [by left|by right]. }
  destruct (Hcl c Hin) as [?|Hfl]; [by rewrite (grows_valid s s')|done|].
  by apply (grows_flagged s s') in Hfl.
Qed.

Lemma status_playing s : status s = Playing → done s = false.
Proof.
  unfold status. destruct (lose s); [done|]. destruct (win s); [done|].
  by destruct (done s).
Qed.

(** C3 (as the code has it).  In a reachable state [Playing], [reveal] on a
    zero cell returns (given fuel beyond [height * width + 4]) and reveals
    only cells the fill reaches: the cursor cell and, step by step, the
    cells around reached zero cells that were neither revealed nor flagged.
    If the game is still [Playing] afterwards, it has revealed all of them.
    Flagged cells stay flagged and are not counted; [revealCount] is the
    number of revealed cells; nothing else changes. *)
Theorem flood_fill_region fuel s rs :
  reachable s → status s = Playing →
  get s (curY s) (curX s) = ZERO_CHAR →
  (Z.to_nat (height s * width s) + 5 ≤ fuel)%nat →
  ∃ s',
    reveal fuel s rs = Some (s', rs) ∧
    same_layer s s' ∧ same_game s s' ∧ flagCount s' = flagCount s ∧
    (∀ y x, geti s' y x = FLAGGED ↔ geti s y x = FLAGGED) ∧
    revealCount s' = revealed s' ∧
    (∀ y x, geti s' y x = REVEAL →
            geti s y x = REVEAL ∨
            (geti s (curY s) (curX s) ≠ FLAGGED ∧
             fill_reach s (curY s) (curX s) (y, x))) ∧
    (status s' = Playing →
     ∀ y x, geti s y x = REVEAL ∨
            (geti s (curY s) (curX s) ≠ FLAGGED ∧
             fill_reach s (curY s) (curX s) (y, x)) →
            geti s' y x = REVEAL).
Proof.
  intros Hs Hst Hz Hfuel.
  pose proof (reachable_inv s Hs) as Hinv.
  destruct (r_reveal_returns fuel (curY s) (curX s) s [] Hinv Hfuel)
    as [[s' log'] Hr].
  destruct fuel as [|fuel]; [lia|].
  assert (first_safe (S fuel) s rs = Some (s, rs)) as Hfs.
  { simpl. rewrite Hz. by rewrite andb_false_r. }
  assert (reveal (S fuel) s rs = Some (s', rs)) as Hrev.
  { unfold reveal. by rewrite Hfs, Hr. }
  pose proof (reachable_count s' (reach_exec (S fuel) CReveal s rs s' rs Hs
                ltac:(by intros ? ? [=]) Hrev)) as Hcount.
  destruct Hinv as [Hwf _ _ Hc _].
  pose proof (r_reveal_grows _ _ _ (s, []) (s', log') Hwf Hr) as Hg.
  cbn [fst] in Hg.
  exists s'. split; [done|]. split; [by apply grows_same_layer|].
  split; [by apply grows_same_game|]. split; [apply Hg|].
  split; [intros y x; by apply grows_flagged|]. split; [done|]. split.
  - intros y x. apply (r_reveal_sound _ _ _ (s, []) (s', log') Hwf Hr (y, x)).
  - intros Hst' y x [Hold|[Hf Hreach]]; [by eapply grows_revealed|].
    apply status_playing in Hst'.
    by apply (r_reveal_complete _ _ _ s [] s' log' Hwf Hr Hst' Hc Hf (y, x)).
Qed.

Lemma flood_fill_region_witness :
  ∃ s0 s s',
    SBoard_new 10 1 5 1 [0; 4] = Some (s0, []) ∧
    run 10 [CMove 0 2; CFlag; CMove 0 (-2)] s0 [] = Some (s, []) ∧
    reveal 10 s [] = Some (s', []) ∧ status s' = Playing ∧
    (geti s' 0 2 = FLAGGED ↔ geti s 0 2 = FLAGGED) ∧
    revealCount s' = revealed s' ∧
    fill_reach s (curY s) (curX s) (0, 1) ∧
    geti s' 0 1 = REVEAL.
Proof.
  eexists. eexists. eexists.
  split; [vm_compute; reflexivity|].
  split; [vm_compute; reflexivity|].
  split; [vm_compute; reflexivity|].
  match goal with
  | |- context [fill_reach ?s _ _ _] =>
      assert (reachable s) as Hs
  end.
  { eapply (reachable_run 10 [CMove 0 2; CFlag; CMove 0 (-2)] _ []).
    - eapply (reach_new 10 1 5 1 [0; 4]);
        [unfold valid_config; lia|vm_compute; reflexivity].
    - apply cmds_ok. vm_compute; reflexivity.
    - vm_compute; reflexivity. }
  destruct (flood_fill_region 10 _ [] Hs)
    as (s' & Hrev & _ & _ & _ & Hfl & Hcount & _ & Hall).
  { vm_compute; reflexivity. }
  { vm_compute; reflexivity. }
  { simpl. lia. }
  vm_compute in Hrev. injection Hrev as <-.
  split; [vm_compute; reflexivity|].
  split; [apply Hfl|]. split; [exact Hcount|].
  match goal with
  | |- fill_reach ?s _ _ _ ∧ _ => assert (fill_reach s 0 0 (0, 1)) as Hreach
  end.
  { eapply (fill_step _ 0 0 (0, 0) (0, 1));
      [constructor|vm_compute; reflexivity| |vm_compute; reflexivity
      |by vm_compute|by vm_compute].
    unfold neighbours. cbn. repeat constructor. }
  split; [exact Hreach|].
  apply Hall; [vm_compute; reflexivity|]. right. split; [by vm_compute|exact Hreach].
Defined.

(** C3, as stated, fails: on a reachable board without any flag, [reveal] on
    the hidden zero cell [(0, 0)] leaves the zero cell [(0, 2)] hidden,
    although it is connected to [(0, 0)] through the zero cell [(0, 1)]:
    that cell was revealed earlier, and the fill does not pass through
    it. *)
Lemma flood_fill_stops_at_revealed :
  ∃ s s',
    reachable s ∧ status s = Playing ∧
    (curY s, curX s) = (0, 0) ∧ geti s 0 0 = BLANK ∧
    get s 0 0 = ZERO_CHAR ∧ get s 0 1 = ZERO_CHAR ∧ get s 0 2 = ZERO_CHAR ∧
    occurrences FLAGGED (input_board s) = 0 ∧
    spec_region s 0 0 (0, 2) ∧
    reveal 10 s [] = Some (s', []) ∧ status s' = Playing ∧
    geti s' 0 2 = BLANK.
Proof.
  eexists. eexists.
  split.
  { eapply (reachable_run 10
              [CFlag; CMove 0 2; CFlag; CMove 0 (-1); CReveal;
               CMove 0 (-1); CFlag; CMove 0 2; CFlag; CMove 0 (-2)] _ []).
    - eapply (reach_new 10 1 5 1 [0; 4]);
        [unfold valid_config; lia|vm_compute; reflexivity].
    - apply cmds_ok. vm_compute; reflexivity.
    - vm_compute; reflexivity. }
  do 7 (split; [vm_compute; reflexivity|]).
  split.
  { apply (spec_step _ 0 0 (0, 1) (0, 2)); [|by vm_compute| |by vm_compute|by vm_compute].
    - apply (spec_step _ 0 0 (0, 0) (0, 1));
        [constructor|by vm_compute| |by vm_compute|by vm_compute].
      unfold neighbours. cbn. repeat constructor.
    - unfold neighbours. cbn. repeat constructor. }
  split; [vm_compute; reflexivity|].
  split; vm_compute; reflexivity.
Qed.

(** * Further invariants: layer values, the flag counter, the outcome *)

Lemma wrap8_wrap8_add n k : wrap8 (wrap8 n + k) = wrap8 (n + k).
Proof.
  unfold wrap8.
  replace ((n + 128) `mod` 256 - 128 + k + 128)
    with ((n + 128) `mod` 256 + k) by lia.
  rewrite Zplus_mod_idemp_l. f_equal. f_equal. lia.
Qed.

(** Every slot of the arrays is the slot of a cell of the grid. *)
Lemma slot_is_cell s i :
  wf s → (i < Z.to_nat (width s * height s))%nat →
  ∃ y x, is_valid s y x = true ∧ idx s y x = i.
Proof.
  intros Hwf Hi.
  pose proof (wf_height _ Hwf) as Hh. pose proof (wf_width _ Hwf) as Hw.
  exists (Z.of_nat i `mod` height s), (Z.of_nat i `div` height s). split.
  - apply is_valid_spec.
    pose proof (Z.mod_pos_bound (Z.of_nat i) (height s)).
    split; [lia|]. split; [apply Z.div_pos; lia|].
    apply Z.div_lt_upper_bound; nia.
  - unfold idx. rewrite (Z.mul_comm _ (height s)), <- Z.div_mod by lia. lia.
Qed.

Lemma occurrences_none v (a : list Z) :
  (∀ i, (i < length a)%nat → rd a i ≠ v) → occurrences v a = 0.
Proof.
  induction a as [|u a IH]; intros Ha; simpl; [done|].
  destruct (Z.eqb_spec u v) as [->|_].
  - by destruct (Ha 0%nat); [simpl; lia|].
  - rewrite IH; [done|]. intros i Hi. apply (Ha (S i)). simpl. lia.
Qed.

Lemma flagged_fresh s : wf s → fresh s → flagged s = 0.
Proof.
  intros Hwf Hfr. apply occurrences_none. intros i Hi.
  rewrite (wf_input _ Hwf) in Hi.
  destruct (slot_is_cell s i Hwf Hi) as (y & x & Hv & <-).
  pose proof (fr_blank _ Hfr _ _ Hv) as Hb. unfold geti in Hb.
  rewrite Hv in Hb. by rewrite Hb.
Qed.

Lemma flagged_mark s y x :
  wf s → geti s y x ≠ FLAGGED → flagged (mark s y x) = flagged s.
Proof.
  intros Hwf Hf. unfold mark. destruct (negb _); [|done].
  unfold flagged, seti, geti in *.
  destruct (is_valid s y x) eqn:Hv; [|done]. simpl.
  rewrite occurrences_insert
    by (rewrite (wf_input _ Hwf); apply idx_lt; [apply Hwf|done]).
  destruct (Z.eqb_spec (rd (input_board s) (idx s y x)) FLAGGED); [done|].
  simpl. lia.
Qed.

(** A fill changes no flag. *)
Lemma r_reveal_flagged fuel y x st st' :
  wf st.1 → r_reveal fuel y x st = Some st' → flagged st'.1 = flagged st.1.
Proof.
  intros Hwf Hr.
  apply (r_reveal_rule_grows (λ _ _ st st', flagged st'.1 = flagged st.1))
    in Hr as [_ Hr]; [done|clear; cbn [fst]..|done].
  - done.
  - done.
  - intros y x s log Hwf _ Hf _.
    change (flagged (set_outcome ?t _ _ _)) with (flagged t).
    by apply flagged_mark.
  - intros y x s log Hwf _ Hf _ _.
    change (flagged (set_outcome ?t _ _ _)) with (flagged t).
    by apply flagged_mark.
  - intros y x s log Hwf _ Hf _ _ _. by apply flagged_mark.
  - intros y x s log st' Hwf _ Hf _ _ _ _ _.
    apply (Steps_fold _ (λ st2, flagged st2.1 = flagged s)).
    + intros c st1 st2 _ Hst1. unfold nb_rel.
      destruct (nb_guard y x c st1.1); [|by intros ->].
      intros [_ He]. by rewrite He.
    + cbn [fst]. by apply flagged_mark.
Qed.

Lemma geti_revealed_valid s y x : geti s y x = REVEAL → is_valid s y x = true.
Proof. unfold geti. by destruct (is_valid s y x). Qed.

Lemma outcome_ok_mark s y x :
  wf s → outcome_ok s → lose s = false → win s = false →
  get s y x ≠ MINE → revealCount (mark s y x) < max_reveal s →
  outcome_ok (mark s y x).
Proof.
  intros Hwf [Hsafe _ _ _] Hl Hw Hnm Hlt.
  destruct (mark_outcome s y x) as (_ & Ew & El).
  split; rewrite ?Ew, ?El, ?Hw, ?Hl; try done.
  - intros _ y' x' Hr. rewrite get_mark.
    destruct (geti_mark_cases s y x (y', x') Hwf Hr) as [Hold|[= -> ->]];
      [by apply Hsafe|done].
  - intros _ _. right. by rewrite max_reveal_mark.
Qed.

Lemma safe_mark s y x :
  wf s → outcome_ok s → lose s = false → get s y x ≠ MINE →
  ∀ y' x', geti (mark s y x) y' x' = REVEAL → get s y' x' ≠ MINE.
Proof.
  intros Hwf [Hsafe _ _ _] Hl Hnm y' x' Hr.
  destruct (geti_mark_cases s y x (y', x') Hwf Hr) as [Hold|[= -> ->]];
    [by apply Hsafe|done].
Qed.

(** A fill keeps the counters and the outcome in step with the layers. *)
Lemma r_reveal_outcome fuel y x st st' :
  wf st.1 → r_reveal fuel y x st = Some st' →
  counters_ok st.1 → outcome_ok st.1 →
  counters_ok st'.1 ∧ outcome_ok st'.1.
Proof.
  intros Hwf Hr.
  assert (∀ s, counters_ok s → done s = false → win s = false ∧ lose s = false)
    as Hplaying.
  { clear. intros s Hco Hd.
    destruct (win s) eqn:Hw; [by destruct (co_outcome _ Hco); [left|congruence]|].
    destruct (lose s) eqn:Hl; [by destruct (co_outcome _ Hco); [right|congruence]|].
    done. }
  apply (r_reveal_rule_grows
           (λ _ _ st st', counters_ok st.1 → outcome_ok st.1 →
                           counters_ok st'.1 ∧ outcome_ok st'.1))
    in Hr as [_ Hr]; [done|clear -Hplaying; cbn [fst]..|done].
  - done.
  - done.
  - intros y x s log Hwf Hd _ Hm Hco Hoo.
    split; [by apply counters_ok_decided|].
    split; [done| |done|done].
    intros _. exists y, x.
    change (geti (set_outcome ?t _ _ _) y x) with (geti t y x).
    change (get (set_outcome ?t _ _ _) y x) with (get t y x).
    split; [|by rewrite get_mark].
    apply geti_mark_self; [done|]. apply get_valid. by rewrite Hm.
  - intros y x s log Hwf Hd _ Hnm Hge Hco Hoo.
    split; [by apply counters_ok_decided|].
    destruct (Hplaying s Hco Hd) as [Hw Hl].
    split; [|done| |done].
    + intros _ y' x'.
      change (geti (set_outcome ?t _ _ _) y' x') with (geti t y' x').
      change (get (set_outcome ?t _ _ _) y' x') with (get t y' x').
      rewrite get_mark. by apply safe_mark.
    + intros _. split; [done|].
      change (max_reveal (set_outcome ?t _ _ _)) with (max_reveal t).
      change (revealCount (set_outcome ?t _ _ _)) with (revealCount t).
      by rewrite max_reveal_mark.
  - intros y x s log Hwf Hd _ Hnm Hlt _ Hco Hoo.
    destruct (Hplaying s Hco Hd) as [Hw Hl].
    split; [by apply counters_ok_mark|by apply outcome_ok_mark].
  - intros y x s log st' Hwf Hd _ Hz Hlt _ _ _ Hsteps Hco Hoo.
    destruct (Hplaying s Hco Hd) as [Hw Hl].
    revert Hsteps.
    apply (Steps_fold _ (λ st2, counters_ok st2.1 ∧ outcome_ok st2.1)).
    + intros c st1 st2 _ [Hco1 Hoo1]. unfold nb_rel.
      destruct (nb_guard y x c st1.1); [|by intros ->].
      intros [_ Hp]. by apply Hp.
    + cbn [fst]. split; [by apply counters_ok_mark|].
      apply outcome_ok_mark; try done. by rewrite Hz.
Qed.

Lemma wf_flag s : wf s → wf (flag s).
Proof.
  intros Hwf. unfold flag.
  destruct (_ =? BLANK); [|destruct (_ =? FLAGGED); [|done]].
  - apply (wf_seti s (curY s) (curX s) FLAGGED) in Hwf. by destruct Hwf.
  - apply (wf_seti s (curY s) (curX s) BLANK) in Hwf. by destruct Hwf.
Qed.

(** The state [flag] produces, by cases on the cursor cell. *)
Lemma flag_cases s :
  wf s → is_valid s (curY s) (curX s) = true →
  (geti s (curY s) (curX s) = BLANK ∧
   flag s = set_flagCount (seti s (curY s) (curX s) FLAGGED)
                          (wrap8 (flagCount s + 1)) ∧
   flagged (flag s) = flagged s + 1) ∨
  (geti s (curY s) (curX s) = FLAGGED ∧
   flag s = set_flagCount (seti s (curY s) (curX s) BLANK)
                          (wrap8 (flagCount s - 1)) ∧
   flagged (flag s) = flagged s - 1) ∨
  (geti s (curY s) (curX s) ≠ BLANK ∧ geti s (curY s) (curX s) ≠ FLAGGED ∧
   flag s = s).
Proof.
  intros Hwf Hc. unfold flag.
  assert (∀ v n, flagged (set_flagCount (seti s (curY s) (curX s) v) n) =
                 flagged s
                 - (if geti s (curY s) (curX s) =? FLAGGED then 1 else 0)
                 + (if v =? FLAGGED then 1 else 0)) as Hfl.
  { intros v n. unfold flagged, seti, geti. rewrite Hc. simpl.
    apply occurrences_insert. rewrite (wf_input _ Hwf).
    apply idx_lt; [apply Hwf|done]. }
  destruct (Z.eqb_spec (geti s (curY s) (curX s)) BLANK) as [Hb|Hb].
  - left. split; [done|]. split; [done|]. rewrite Hfl, Hb. simpl. lia.
  - destruct (Z.eqb_spec (geti s (curY s) (curX s)) FLAGGED) as [Hf|Hf].
    + right; left. split; [done|]. split; [done|]. rewrite Hfl. simpl. lia.
    + right; right. done.
Qed.

Lemma inv2_fresh s :
  wf s → fresh s → mines s < height s * width s → inv2 s.
Proof.
  intros Hwf Hfr Hroom. split.
  - intros y x Hv. left. by apply Hfr.
  - by rewrite (fr_flag _ Hfr), flagged_fresh.
  - done.
  - split.
    + intros _ y x Hr. pose proof (geti_revealed_valid _ _ _ Hr) as Hv.
      by rewrite (fr_blank _ Hfr _ _ Hv) in Hr.
    + by rewrite (fr_lose _ Hfr).
    + by rewrite (fr_win _ Hfr).
    + intros _ _. left. apply Hfr.
Qed.

(** Writing a mark other than [REVEAL] on an unrevealed cell, with the flag
    counter kept in step, preserves the invariant. *)
Lemma inv2_toggle s y x v n :
  wf s → is_valid s y x = true → inv2 s →
  geti s y x ≠ REVEAL → v = BLANK ∨ v = FLAGGED →
  n = wrap8 (flagged (seti s y x v)) →
  inv2 (set_flagCount (seti s y x v) n).
Proof.
  intros Hwf Hc [Hvis Hfl Hroom [Hsafe Hlost Hwin Hopen]] Hnr Hv ->.
  assert (∀ n y' x',
            geti (set_flagCount (seti s y x v) n) y' x' =
            if (y =? y') && (x =? x') then v else geti s y' x') as Hget.
  { intros n y' x'.
    change (geti (set_flagCount ?t _) y' x') with (geti t y' x').
    rewrite geti_seti by done. by rewrite Hc. }
  assert (∀ n y' x',
            get (set_flagCount (seti s y x v) n) y' x' = get s y' x') as Hb.
  { intros n y' x'.
    change (get (set_flagCount ?t _) y' x') with (get t y' x').
    apply get_seti. }
  assert (∀ n y' x',
            is_valid (set_flagCount (seti s y x v) n) y' x' = is_valid s y' x')
    as Hval by (intros; unfold seti; by rewrite Hc).
  assert (v ≠ REVEAL) as Hvr by (by destruct Hv as [-> | ->]).
  split.
  - intros y' x'. rewrite Hval, Hget. intros Hv'.
    destruct (_ && _); [|by apply Hvis].
    destruct Hv as [-> | ->]; [by left|by right; right].
  - done.
  - unfold seti. by rewrite Hc.
  - assert (lose (set_flagCount (seti s y x v) (wrap8 (flagged (seti s y x v))))
            = lose s) as El by (unfold seti; by rewrite Hc).
    assert (win (set_flagCount (seti s y x v) (wrap8 (flagged (seti s y x v))))
            = win s) as Ew by (unfold seti; by rewrite Hc).
    split; rewrite ?El, ?Ew.
    + intros Hl y' x'. rewrite Hget, Hb.
      destruct (_ && _); [done|by apply Hsafe].
    + intros Hl. destruct (Hlost Hl) as (y' & x' & Hr & Hm).
      exists y', x'. rewrite Hget, Hb. split; [|done].
      destruct (Z.eqb_spec y y') as [<-|?]; simpl; [|done].
      destruct (Z.eqb_spec x x') as [<-|?]; simpl; [|done]. done.
    + unfold seti. by rewrite Hc.
    + unfold seti. by rewrite Hc.
Qed.

Lemma inv2_flag s : inv s → inv2 s → inv2 (flag s).
Proof.
  intros [Hwf _ _ Hc _] Hinv2.
  pose proof (i2_flag _ Hinv2) as Hfl.
  destruct (flag_cases s Hwf Hc) as [(Hb & E & Ef)|[(Hf & E & Ef)|(_ & _ & E)]];
    [| |by rewrite E].
  - rewrite E. apply inv2_toggle; try done.
    + by rewrite Hb.
    + by right.
    + rewrite E in Ef. change (flagged (set_flagCount ?t _)) with (flagged t) in Ef.
      by rewrite Ef, Hfl, wrap8_wrap8_add.
  - rewrite E. apply inv2_toggle; try done.
    + by rewrite Hf.
    + by left.
    + rewrite E in Ef. change (flagged (set_flagCount ?t _)) with (flagged t) in Ef.
      rewrite Ef, Hfl. apply (wrap8_wrap8_add _ (-1)).
Qed.

Lemma inv2_r_reveal fuel y x s log s' log' :
  inv s → inv2 s → r_reveal fuel y x (s, log) = Some (s', log') → inv2 s'.
Proof.
  intros [Hwf _ _ _ Hco] [Hvis Hfl Hroom Hoo] Hr.
  pose proof (r_reveal_grows fuel y x (s, log) (s', log') Hwf Hr) as Hg.
  cbn [fst] in Hg. split.
  - intros y' x' Hv. rewrite (grows_valid s s') in Hv by done.
    destruct (g_vis _ _ Hg y' x') as [->|(_ & _ & ->)]; [by apply Hvis|].
    by right; left.
  - pose proof (r_reveal_flagged fuel y x (s, log) (s', log') Hwf Hr) as Ef.
    cbn [fst] in Ef. by rewrite (g_flag _ _ Hg), Hfl, Ef.
  - by rewrite (g_mines _ _ Hg), (g_height _ _ Hg), (g_width _ _ Hg).
  - by apply (r_reveal_outcome fuel y x (s, log) (s', log') Hwf Hr).
Qed.

Theorem reachable_inv2 s : reachable s → inv2 s.
Proof.
  induction 1 as [fuel h w m rs s rs' (Hh & Hw & Hm & Hm') Hnew
                 |fuel c s rs s' rs' Hs IH _ Hexec].
  - apply SBoard_new_spec in Hnew; [|lia..].
    destruct Hnew as (Hwf & _ & Hfr & Eh & Ew & Em & _).
    apply inv2_fresh; [done..|]. rewrite Eh, Ew, Em. lia.
  - apply reachable_inv in Hs.
    destruct c as [dy dx| | |]; simpl in Hexec.
    + injection Hexec as <- <-. unfold move_cur.
      destruct (is_valid s _ _); [|done].
      destruct IH as [Hvis Hfl Hroom [Hsafe Hlost Hwin Hopen]]. by split.
    + unfold reveal in Hexec.
      destruct (first_safe fuel s rs) as [[s1 rs1]|] eqn:Hfs; [|done].
      apply first_safe_spec in Hfs as (Hinv1 & Hsg & _ & Hor); [|done].
      destruct (r_reveal _ _ _ _) as [[s2 log2]|] eqn:Hr; [|done].
      injection Hexec as <- <-.
      apply (inv2_r_reveal _ _ _ s1 [] s2 log2 Hinv1) in Hr; [done|].
      destruct Hor as [->|Hfr]; [done|]. apply inv2_fresh; [apply Hinv1|done|].
      destruct Hsg as [Eh Ew Em _ _]. rewrite Eh, Ew, Em. apply IH.
    + injection Hexec as <- <-. by apply inv2_flag.
    + injection Hexec as <- <-.
      destruct IH as [Hvis Hfl Hroom [Hsafe Hlost Hwin Hopen]]. by split.
Qed.

Lemma game_reachable fuel h w m rs cs s rs' :
  valid_config h w m → forallb cmd_ok cs = true →
  game fuel h w m rs cs = Some (s, rs') → reachable s.
Proof.
  intros Hcfg Hcs. unfold game.
  destruct (SBoard_new fuel h w m rs) as [[s0 rs0]|] eqn:Hnew; [|done].
  apply reachable_run; [by eapply reach_new|by apply cmds_ok].
Qed.

(** * The accessors *)

(** X1. On a well-formed board the accessors round-trip: a read after a
    write gives the written value at the written cell and the old value
    elsewhere, the two layers do not interfere, a write out of range is
    dropped and a read out of range gives [ERROR]. *)
Theorem accessors_round_trip s y x v y' x' :
  wf s →
  get (set s y x v) y' x' =
    (if is_valid s y x && (y =? y') && (x =? x') then v else get s y' x') ∧
  geti (seti s y x v) y' x' =
    (if is_valid s y x && (y =? y') && (x =? x') then v else geti s y' x') ∧
  get (seti s y x v) y' x' = get s y' x' ∧
  geti (set s y x v) y' x' = geti s y' x' ∧
  (is_valid s y x = false →
   set s y x v = s ∧ seti s y x v = s ∧ get s y x = ERROR ∧ geti s y x = ERROR).
Proof.
  intros Hwf.
  split; [by apply get_set|]. split; [by apply geti_seti|].
  split; [apply get_seti|]. split; [apply geti_set|].
  intros Hv. unfold set, seti, get, geti. by rewrite Hv.
Qed.

Lemma accessors_round_trip_witness :
  ∃ s, SBoard_new 10 1 2 1 [0; 1] = Some (s, []) ∧
       get (set s 0 1 7) 0 1 = 7 ∧ get (set s 0 1 7) 0 0 = get s 0 0 ∧
       set s 0 2 7 = s ∧ get s 0 2 = ERROR.
Proof.
  eexists. split; [vm_compute; reflexivity|].
  match goal with |- get (set ?s _ _ _) _ _ = _ ∧ _ => set (s0 := s) end.
  assert (wf s0) as Hwf by (split; vm_compute; done).
  destruct (accessors_round_trip s0 0 1 7 0 1 Hwf) as (E1 & _).
  destruct (accessors_round_trip s0 0 1 7 0 0 Hwf) as (E2 & _).
  destruct (accessors_round_trip s0 0 2 7 0 0 Hwf) as (_ & _ & _ & _ & E3).
  destruct E3 as (E3 & _ & E4 & _); [reflexivity|].
  split; [exact E1|]. split; [exact E2|]. split; [exact E3|exact E4].
Defined.

Lemma get_values s y x :
  inv s → is_valid s y x = true →
  get s y x = MINE ∨ ZERO_CHAR ≤ get s y x ≤ ZERO_CHAR + 8.
Proof.
  intros Hinv Hv.
  destruct (decide (get s y x = MINE)) as [|Hnm]; [by left|right].
  destruct (bo_digits _ (inv_board _ Hinv) y x Hv Hnm) as (-> & _).
  pose proof (true_count_bounds s y x). lia.
Qed.

(** X2. In a reachable state the sentinel [ERROR] is read exactly at
    coordinates outside the grid: a cell of the mine layer holds [MINE] or a
    digit ['0'..'8'], and a cell of the visibility layer holds [BLANK],
    [REVEAL] or [FLAGGED]. *)
Theorem error_only_out_of_range s y x :
  reachable s →
  (get s y x = ERROR ↔ is_valid s y x = false) ∧
  (geti s y x = ERROR ↔ is_valid s y x = false) ∧
  (is_valid s y x = true →
   (get s y x = MINE ∨ ZERO_CHAR ≤ get s y x ≤ ZERO_CHAR + 8) ∧
   (geti s y x = BLANK ∨ geti s y x = REVEAL ∨ geti s y x = FLAGGED)).
Proof.
  intros Hs.
  pose proof (reachable_inv _ Hs) as Hinv. pose proof (reachable_inv2 _ Hs) as Hinv2.
  destruct (is_valid s y x) eqn:Hv.
  - pose proof (get_values s y x Hinv Hv) as Hg.
    pose proof (i2_vis _ Hinv2 y x Hv) as Hi.
    unfold ERROR, MINE, ZERO_CHAR, BLANK, REVEAL, FLAGGED in *.
    split; [split; [lia|done]|]. split; [split; [lia|done]|done].
  - unfold get, geti. rewrite Hv. done.
Qed.

Lemma error_only_out_of_range_witness :
  ∃ s, game 10 1 3 1 [0; 1] [CReveal; CFlag] = Some (s, []) ∧
       (get s 0 3 = ERROR ↔ is_valid s 0 3 = false) ∧
       (geti s 0 3 = ERROR ↔ is_valid s 0 3 = false) ∧
       (is_valid s 0 3 = true →
        (get s 0 3 = MINE ∨ ZERO_CHAR ≤ get s 0 3 ≤ ZERO_CHAR + 8) ∧
        (geti s 0 3 = BLANK ∨ geti s 0 3 = REVEAL ∨ geti s 0 3 = FLAGGED)).
Proof.
  eexists. split; [vm_compute; reflexivity|].
  apply error_only_out_of_range.
  apply (game_reachable 10 1 3 1 [0; 1] [CReveal; CFlag] _ []);
    [unfold valid_config; lia|reflexivity|vm_compute; reflexivity].
Defined.

(** * The counters and the outcome *)

(** Two values that never share a slot of two arrays of the same length. *)
Lemma occurrences_apart (u v : Z) (a b : list Z) :
  length a = length b →
  (∀ i, (i < length a)%nat → rd b i = v → rd a i ≠ u) →
  occurrences v b + occurrences u a ≤ Z.of_nat (length a) ∧
  (occurrences v b + occurrences u a = Z.of_nat (length a) →
   ∀ i, (i < length a)%nat → rd a i ≠ u → rd b i = v) ∧
  ((∀ i, (i < length a)%nat → rd a i ≠ u → rd b i = v) →
   occurrences v b + occurrences u a = Z.of_nat (length a)).
Proof.
  revert b. induction a as [|t a IH]; intros [|r b] Hlen Hap; simpl in *;
    try done.
  { split; [lia|]. split; [by intros _ i ?; lia|done]. }
  destruct (IH b) as (IH1 & IH2 & IH3); [lia| |].
  { intros i Hi. apply (Hap (S i)). lia. }
  pose proof (Hap 0%nat ltac:(lia)) as H0. unfold rd in H0. simpl in H0.
  pose proof (occurrences_bounds v b). pose proof (occurrences_bounds u a).
  destruct (Z.eqb_spec r v) as [Hr|Hr]; destruct (Z.eqb_spec t u) as [Ht|Ht].
  - by destruct (H0 Hr).
  - split; [lia|]. split.
    + intros He [|i] Hi Hne; [done|]. apply IH2; [lia|lia|done].
    + intros Hall.
      assert (occurrences v b + occurrences u a = Z.of_nat (length a)) as He
        by (apply IH3; intros i Hi; apply (Hall (S i)); lia).
      lia.
  - split; [lia|]. split.
    + intros He [|i] Hi Hne; [done|]. apply IH2; [lia|lia|done].
    + intros Hall.
      assert (occurrences v b + occurrences u a = Z.of_nat (length a)) as He
        by (apply IH3; intros i Hi; apply (Hall (S i)); lia).
      lia.
  - split; [lia|]. split; [lia|].
    intros Hall. by destruct Hr; apply (Hall 0%nat); [lia|].
Qed.

(** Unless the game is lost, the revealed cells and the mines share no slot. *)
Lemma revealed_apart s :
  inv s → inv2 s → lose s = false →
  ∀ i, (i < length (board s))%nat →
       rd (input_board s) i = REVEAL → rd (board s) i ≠ MINE.
Proof.
  intros Hinv Hinv2 Hl i Hi Hr.
  pose proof (inv_wf _ Hinv) as Hwf. rewrite (wf_board _ Hwf) in Hi.
  destruct (slot_is_cell s i Hwf Hi) as (y & x & Hv & <-).
  pose proof (oo_safe _ (i2_outcome _ Hinv2) Hl y x) as Hsafe.
  unfold get, geti in Hsafe. rewrite Hv in Hsafe. by apply Hsafe.
Qed.

Lemma revealed_bound s :
  inv s → inv2 s → lose s = false →
  revealed s + mines s ≤ height s * width s.
Proof.
  intros Hinv Hinv2 Hl. pose proof (inv_wf _ Hinv) as Hwf.
  destruct (occurrences_apart MINE REVEAL (board s) (input_board s))
    as (Hle & _).
  - by rewrite (wf_board _ Hwf), (wf_input _ Hwf).
  - by apply revealed_apart.
  - rewrite (wf_board _ Hwf) in Hle.
    pose proof (bo_count _ (inv_board _ Hinv)) as Hc. unfold count_mines in Hc.
    pose proof (wf_height _ Hwf). pose proof (wf_width _ Hwf).
    unfold revealed. lia.
Qed.

(** X3. In a reachable state [revealCount] is the number of revealed cells.
    It stays within [0..127], so the counter never wraps, and unless the game
    is lost the revealed cells fit beside the mines. *)
Theorem revealCount_counts_revealed s :
  reachable s →
  revealCount s = revealed s ∧ 0 ≤ revealCount s ≤ 127 ∧
  (lose s = false → revealCount s + mines s ≤ height s * width s).
Proof.
  intros Hs.
  pose proof (reachable_inv _ Hs) as Hinv. pose proof (reachable_inv2 _ Hs) as Hinv2.
  pose proof (reachable_count _ Hs) as Hc.
  split; [done|]. split; [apply Hinv|].
  intros Hl. rewrite Hc. by apply revealed_bound.
Qed.

Lemma revealCount_counts_revealed_witness :
  ∃ s, game 10 3 3 1 [2; 2] [CReveal] = Some (s, []) ∧
       revealCount s = revealed s ∧ 0 ≤ revealCount s ≤ 127 ∧
       (lose s = false → revealCount s + mines s ≤ height s * width s).
Proof.
  eexists. split; [vm_compute; reflexivity|].
  apply revealCount_counts_revealed.
  apply (game_reachable 10 3 3 1 [2; 2] [CReveal] _ []);
    [unfold valid_config; lia|reflexivity|vm_compute; reflexivity].
Defined.

Lemma occurrences_two (u v : Z) (a : list Z) :
  u ≠ v → occurrences u a + occurrences v a ≤ Z.of_nat (length a).
Proof.
  intros Hne. induction a as [|t a IH]; simpl; [lia|].
  destruct (Z.eqb_spec t u); destruct (Z.eqb_spec t v); lia.
Qed.

(** X4. In a reachable state [flagCount] is the number of flagged cells
    narrowed to a [TCell]: it is that number as long as at most 127 cells
    are flagged.  Flagged and revealed cells together fit the grid. *)
Theorem flagCount_counts_flags s :
  reachable s →
  flagCount s = wrap8 (flagged s) ∧
  (flagged s ≤ 127 → flagCount s = flagged s) ∧
  0 ≤ flagged s ∧ flagged s + revealed s ≤ height s * width s.
Proof.
  intros Hs.
  pose proof (inv_wf _ (reachable_inv _ Hs)) as Hwf.
  pose proof (i2_flag _ (reachable_inv2 _ Hs)) as Hf.
  pose proof (occurrences_bounds FLAGGED (input_board s)) as Hb.
  split; [done|]. split; [|split].
  - intros Hle. rewrite Hf. apply wrap8_id. unfold int8, flagged in *. lia.
  - apply Hb.
  - pose proof (occurrences_two FLAGGED REVEAL (input_board s)) as Ht.
    rewrite (wf_input _ Hwf) in Ht.
    pose proof (wf_height _ Hwf). pose proof (wf_width _ Hwf).
    assert (0 ≤ width s * height s) by nia.
    unfold flagged, revealed. specialize (Ht ltac:(done)). lia.
Qed.

Lemma flagCount_counts_flags_witness :
  ∃ s, game 10 1 3 1 [0; 1] [CFlag; CMove 0 1; CFlag] = Some (s, []) ∧
       flagCount s = wrap8 (flagged s) ∧
       (flagged s ≤ 127 → flagCount s = flagged s) ∧
       0 ≤ flagged s ∧ flagged s + revealed s ≤ height s * width s.
Proof.
  eexists. split; [vm_compute; reflexivity|].
  apply flagCount_counts_flags.
  apply (game_reachable 10 1 3 1 [0; 1] [CFlag; CMove 0 1; CFlag] _ []);
    [unfold valid_config; lia|reflexivity|vm_compute; reflexivity].
Defined.

(** X5. In a reachable state the game is [Lost] exactly when a mine is
    revealed.  [win] and [lose] never hold together, and either ends the
    game. *)
Theorem lost_iff_mine_revealed s :
  reachable s →
  (status s = Lost ↔ ∃ y x, geti s y x = REVEAL ∧ get s y x = MINE) ∧
  ¬ (win s = true ∧ lose s = true) ∧
  (status s = Won ∨ status s = Lost → is_done s = true).
Proof.
  intros Hs.
  pose proof (reachable_inv _ Hs) as Hinv.
  destruct (i2_outcome _ (reachable_inv2 _ Hs)) as [Hsafe Hlost Hwin _].
  split; [|split].
  - unfold status. destruct (lose s) eqn:Hl.
    + split; [by intros _; apply Hlost|done].
    + split; [by destruct (win s), (done s)|].
      intros (y & x & Hr & Hm). by destruct (Hsafe eq_refl y x Hr).
  - intros [Hw Hl]. destruct (Hwin Hw). congruence.
  - intros Hor. apply status_decided in Hor.
    by destruct (co_outcome _ (inv_counters _ Hinv) Hor).
Qed.

Lemma lost_iff_mine_revealed_witness :
  ∃ s, game 10 1 3 1 [0; 1] [CReveal; CMove 0 1; CReveal] = Some (s, []) ∧
       status s = Lost ∧
       (status s = Lost ↔ ∃ y x, geti s y x = REVEAL ∧ get s y x = MINE) ∧
       ¬ (win s = true ∧ lose s = true) ∧
       (status s = Won ∨ status s = Lost → is_done s = true).
Proof.
  eexists. split; [vm_compute; reflexivity|].
  split; [vm_compute; reflexivity|].
  apply lost_iff_mine_revealed.
  apply (game_reachable 10 1 3 1 [0; 1] [CReveal; CMove 0 1; CReveal] _ []);
    [unfold valid_config; lia|reflexivity|vm_compute; reflexivity].
Defined.

(** X6. On a grid with at most 127 safe cells (the beginner preset has 54)
    a reachable state is [Won] exactly when the game is not lost and every
    cell without a mine is revealed. *)
Theorem won_iff_all_safe_revealed s :
  reachable s → height s * width s - mines s ≤ 127 →
  (status s = Won ↔
   lose s = false ∧
   ∀ y x, is_valid s y x = true → get s y x ≠ MINE → geti s y x = REVEAL).
Proof.
  intros Hs Hfit.
  pose proof (reachable_inv _ Hs) as Hinv. pose proof (reachable_inv2 _ Hs) as Hinv2.
  pose proof (reachable_count _ Hs) as Hc.
  pose proof (inv_wf _ Hinv) as Hwf.
  pose proof (i2_room _ Hinv2) as Hroom.
  destruct (i2_outcome _ Hinv2) as [Hsafe Hlost Hwin Hopen].
  pose proof (bo_count _ (inv_board _ Hinv)) as Hm. unfold count_mines in Hm.
  assert (max_reveal s = height s * width s - mines s) as Hmax
    by (apply max_reveal_exact; lia).
  assert (length (board s) = length (input_board s)) as Hlen
    by (by rewrite (wf_board _ Hwf), (wf_input _ Hwf)).
  assert (Z.of_nat (length (board s)) = height s * width s) as Hsize.
  { rewrite (wf_board _ Hwf).
    pose proof (wf_height _ Hwf). pose proof (wf_width _ Hwf). lia. }
  split.
  - intros Hst.
    assert (lose s = false ∧ win s = true) as [Hl Hw].
    { unfold status in Hst. by destruct (lose s), (win s), (done s). }
    split; [done|]. intros y x Hv Hnm.
    destruct (occurrences_apart MINE REVEAL (board s) (input_board s))
      as (Hle & Hall & _); [done|by apply revealed_apart|].
    destruct (Hwin Hw) as [_ Hge]. unfold revealed in Hc.
    unfold get in Hnm. unfold geti. rewrite Hv in *.
    apply Hall; [lia| |done].
    rewrite (wf_board _ Hwf). apply idx_lt; [apply Hwf|done].
  - intros [Hl Hall]. unfold status. rewrite Hl.
    destruct (win s) eqn:Hw; [done|]. exfalso.
    destruct (occurrences_apart MINE REVEAL (board s) (input_board s))
      as (_ & _ & Heq); [done|by apply revealed_apart|].
    unfold revealed in Hc. rewrite <- Hc in Heq.
    assert (revealCount s + occurrences MINE (board s) =
            Z.of_nat (length (board s))) as He.
    { apply Heq. intros i Hi Hnm. rewrite (wf_board _ Hwf) in Hi.
      destruct (slot_is_cell s i Hwf Hi) as (y & x & Hv & <-).
      pose proof (Hall y x Hv) as Hr. unfold get, geti in Hr.
      rewrite Hv in Hr. by apply Hr. }
    destruct (Hopen eq_refl Hl); lia.
Qed.

Lemma won_iff_all_safe_revealed_witness :
  ∃ s, game 10 1 2 1 [0; 1] [CReveal] = Some (s, []) ∧
       status s = Won ∧
       (status s = Won ↔
        lose s = false ∧
        ∀ y x, is_valid s y x = true → get s y x ≠ MINE → geti s y x = REVEAL).
Proof.
  eexists. split; [vm_compute; reflexivity|].
  split; [vm_compute; reflexivity|].
  apply won_iff_all_safe_revealed.
  - apply (game_reachable 10 1 2 1 [0; 1] [CReveal] _ []);
      [unfold valid_config; lia|reflexivity|vm_compute; reflexivity].
  - vm_compute. discriminate.
Defined.

(** * What [reveal] and [flag] change *)

(** A fill reveals the cell it is started on, unless the game is decided or
    the cell is flagged. *)
Lemma r_reveal_start fuel y x st st' :
  wf st.1 → r_reveal fuel y x st = Some st' →
  is_valid st.1 y x = true → done st.1 = false → geti st.1 y x ≠ FLAGGED →
  geti st'.1 y x = REVEAL.
Proof.
  intros Hwf Hr.
  apply (r_reveal_rule_grows
           (λ y x st st', is_valid st.1 y x = true → done st.1 = false →
                           geti st.1 y x ≠ FLAGGED → geti st'.1 y x = REVEAL))
    in Hr as [_ Hr]; [done|clear; cbn [fst]..|done].
  - intros y x s log Hd _ Hd'. congruence.
  - done.
  - intros y x s log Hwf _ _ _ Hv _ _.
    change (geti (set_outcome ?t _ _ _) y x) with (geti t y x).
    by apply geti_mark_self.
  - intros y x s log Hwf _ _ _ _ Hv _ _.
    change (geti (set_outcome ?t _ _ _) y x) with (geti t y x).
    by apply geti_mark_self.
  - intros y x s log Hwf _ _ _ _ _ Hv _ _. by apply geti_mark_self.
  - intros y x s log st' Hwf _ _ _ _ _ _ _ Hsteps Hv _ _.
    apply Steps_grows in Hsteps. cbn [fst] in Hsteps.
    apply (grows_revealed (mark s y x)); [done|]. by apply geti_mark_self.
Qed.

(** X7. Once a cell is revealed, or with the cursor off the mines, [reveal]
    leaves the mine layer, the dimensions, the cursor, the flags and the
    oracle of [rand()] alone: cells only go from hidden to revealed.  While
    the game is on and the cursor cell is not flagged, the cursor cell is
    revealed afterwards. *)
Theorem reveal_keeps_game s fuel rs s' rs' :
  reachable s →
  revealCount s ≠ 0 ∨ get s (curY s) (curX s) ≠ MINE →
  reveal fuel s rs = Some (s', rs') →
  rs' = rs ∧ grows s s' ∧ flagged s' = flagged s ∧
  (is_done s = false → geti s (curY s) (curX s) ≠ FLAGGED →
   geti s' (curY s) (curX s) = REVEAL).
Proof.
  intros Hs Hor. apply reachable_inv in Hs. destruct Hs as [Hwf _ _ Hc _].
  unfold reveal. destruct fuel as [|fuel]; [done|].
  assert (first_safe (S fuel) s rs = Some (s, rs)) as ->.
  { simpl. destruct Hor as [Hr|Hm].
    - by destruct (Z.eqb_spec (revealCount s) 0).
    - destruct (Z.eqb_spec (get s (curY s) (curX s)) MINE); [done|].
      by rewrite andb_false_r. }
  destruct (r_reveal _ _ _ _) as [[s2 log2]|] eqn:Hr; [|done].
  intros [= <- <-]. split; [done|].
  split; [apply (r_reveal_grows _ _ _ (s, []) (s2, log2) Hwf Hr)|].
  split; [apply (r_reveal_flagged _ _ _ (s, []) (s2, log2) Hwf Hr)|].
  intros Hd Hf. by apply (r_reveal_start _ _ _ (s, []) (s2, log2) Hwf Hr).
Qed.

Lemma reveal_keeps_game_witness :
  ∃ s s', game 10 3 3 1 [2; 2] [CMove 1 1; CFlag; CMove (-1) (-1)]
            = Some (s, []) ∧
          reveal 14 s [] = Some (s', []) ∧
          grows s s' ∧ flagged s' = flagged s ∧
          (is_done s = false → geti s (curY s) (curX s) ≠ FLAGGED →
           geti s' (curY s) (curX s) = REVEAL).
Proof.
  eexists _, _. split; [vm_compute; reflexivity|].
  split; [vm_compute; reflexivity|].
  eapply (reveal_keeps_game _ 14 [] _ []).
  - apply (game_reachable 10 3 3 1 [2; 2]
             [CMove 1 1; CFlag; CMove (-1) (-1)] _ []);
      [unfold valid_config; lia|reflexivity|vm_compute; reflexivity].
  - right. vm_compute. discriminate.
  - vm_compute; reflexivity.
Defined.

(** X8. In a reachable state [flag] is its own inverse, counter included.
    It touches nothing but the cursor cell of the visibility layer and the
    counter: the mine layer and the revealed cells stay, and a revealed
    cell is never flagged. *)
Theorem flag_is_involution s :
  reachable s →
  flag (flag s) = s ∧
  board (flag s) = board s ∧ revealed (flag s) = revealed s ∧
  (∀ y x, (y, x) ≠ (curY s, curX s) → geti (flag s) y x = geti s y x) ∧
  (geti s (curY s) (curX s) = REVEAL → flag s = s) ∧
  (geti s (curY s) (curX s) = BLANK →
   geti (flag s) (curY s) (curX s) = FLAGGED) ∧
  (geti s (curY s) (curX s) = FLAGGED →
   geti (flag s) (curY s) (curX s) = BLANK).
Proof.
  intros Hs.
  pose proof (reachable_inv _ Hs) as [Hwf _ _ Hc _].
  pose proof (i2_flag _ (reachable_inv2 _ Hs)) as Hf.
  split; [|split; [|split; [|split; [|split; [|split]]]]].
  - apply flag_twice; [done..|]. rewrite Hf. apply wrap8_int8.
  - unfold flag, seti. rewrite Hc.
    destruct (geti s (curY s) (curX s) =? BLANK); [done|].
    by destruct (geti s (curY s) (curX s) =? FLAGGED).
  - by apply revealed_flag.
  - intros y x Hne.
    destruct (flag_cases s Hwf Hc) as [(Hb & _)|[(Hg & _)|(_ & _ & ->)]];
      [|by apply flag_flagged|done].
    by apply flag_hidden.
  - apply flag_revealed.
  - intros Hb. by apply flag_hidden.
  - intros Hg. by apply flag_flagged.
Qed.

Lemma flag_is_involution_witness :
  ∃ s, game 10 1 3 1 [0; 1] [CReveal; CMove 0 1] = Some (s, []) ∧
       flag s ≠ s ∧ flag (flag s) = s.
Proof.
  eexists. split; [vm_compute; reflexivity|].
  split; [vm_compute; discriminate|].
  eapply proj1. apply flag_is_involution.
  apply (game_reachable 10 1 3 1 [0; 1] [CReveal; CMove 0 1] _ []);
    [unfold valid_config; lia|reflexivity|vm_compute; reflexivity].
Defined.




(** * Random draws, neighbour counts and the edge of the [TCell] range *)

(** X10. [random] keeps its contract on the ranges the board uses: for
    [0 ≤ start < end ≤ 128] and a non-negative [rand()] it consumes one draw
    and returns [start + rand() mod (end - start)], a value of
    [[start, end)]. *)
Theorem random_in_range start end_ r0 rs :
  0 ≤ start < end_ → end_ ≤ 128 → 0 ≤ r0 →
  random start end_ (r0 :: rs) = Some (start + r0 `mod` (end_ - start), rs) ∧
  start ≤ start + r0 `mod` (end_ - start) < end_.
Proof.
  intros Hs He Hr. unfold random.
  pose proof (Z.mod_pos_bound r0 (end_ - start)) as Hm.
  destruct (Z.ltb_spec start 0); [lia|]. destruct (Z.ltb_spec end_ 1); [lia|].
  destruct (Z.geb_spec start end_); [lia|]. simpl.
  rewrite Z.rem_mod_nonneg by lia.
  destruct (Z.gtb_spec (r0 `mod` (end_ - start) + start) ERROR) as [Hgt|_];
    [unfold ERROR in Hgt; lia|].
  rewrite wrap8_id by (unfold int8; lia).
  split; [do 2 f_equal; lia|lia].
Qed.

Lemma random_in_range_witness :
  random 3 8 [12; 5] = Some (3 + 12 `mod` (8 - 3), [5]) ∧
  3 ≤ 3 + 12 `mod` (8 - 3) < 8.
Proof. apply random_in_range; lia. Defined.

(** X11. [count_neighbors] returns the number of mines among the in-bounds
    neighbours, a value of [0..8], for rows and columns up to 125.  In row or
    column 126 the loop bound [y + 1 = 127] is the largest [TCell], its
    counter wraps instead of passing it, and the call does not return. *)
Theorem count_neighbors_counts_or_hangs s y x fuel :
  0 ≤ y ≤ 126 → 0 ≤ x ≤ 126 → (4 ≤ fuel)%nat →
  count_neighbors fuel s y x =
    (if (y <=? 125) && (x <=? 125) then Some (true_count s y x) else None) ∧
  (y = 126 ∨ x = 126 → ∀ fuel', count_neighbors fuel' s y x = None) ∧
  0 ≤ true_count s y x ≤ 8.
Proof.
  intros Hy Hx Hfuel. split; [|split; [|apply true_count_bounds]].
  - rewrite count_neighbors_spec by done.
    destruct (Nat.leb_spec 4 fuel); [|lia]. by rewrite andb_true_r.
  - intros Hor fuel'. rewrite count_neighbors_spec by done.
    destruct Hor as [-> | ->]; [done|]. by rewrite andb_false_r.
Qed.

Lemma count_neighbors_counts_or_hangs_witness :
  ∃ s, SBoard_new 10 3 3 1 [2; 2] = Some (s, []) ∧
       count_neighbors 4 s 1 1 = Some 1 ∧
       (∀ fuel', count_neighbors fuel' s 126 1 = None).
Proof.
  eexists. split; [vm_compute; reflexivity|].
  match goal with |- count_neighbors _ ?s _ _ = _ ∧ _ => set (s0 := s) end.
  split.
  - destruct (count_neighbors_counts_or_hangs s0 1 1 4) as (E & _);
      [lia|lia|lia|]. exact E.
  - destruct (count_neighbors_counts_or_hangs s0 126 1 4) as (_ & E & _);
      [lia|lia|lia|]. apply E. by left.
Defined.

(** As many slots hold [v] as a duplicate-free list of such slots is long. *)
Lemma occurrences_ge v (l : list nat) :
  ∀ a : list Z,
    NoDup l → (∀ i, i ∈ l → (i < length a)%nat ∧ rd a i = v) →
    Z.of_nat (length l) ≤ occurrences v a.
Proof.
  induction l as [|i l IH]; intros a Hnd Hl; simpl.
  { apply occurrences_bounds. }
  apply NoDup_cons in Hnd as [Hi Hnd].
  destruct (Hl i) as [Hlt Hv]; [by left|].
  pose proof (occurrences_insert v (v + 1) a i Hlt) as Hins.
  rewrite Hv, Z.eqb_refl in Hins.
  destruct (Z.eqb_spec (v + 1) v) as [?|_]; [lia|].
  assert (∀ j, j ∈ l → (j < length (<[i := (v + 1)%Z]> a))%nat ∧
                        rd (<[i := v + 1]> a) j = v) as Hpre.
  { intros j Hj. destruct (Hl j) as [Hjlt Hjv]; [by right|].
    rewrite length_insert. split; [done|].
    unfold rd. rewrite list_lookup_insert_ne; [done|]. by intros ->. }
  specialize (IH (<[i := v + 1]> a) Hnd Hpre). lia.
Qed.

Lemma mines_at_least s cs :
  wf s → NoDup cs →
  (∀ c, c ∈ cs → is_valid s c.1 c.2 = true ∧ get s c.1 c.2 = MINE) →
  Z.of_nat (length cs) ≤ count_mines s.
Proof.
  intros Hwf Hnd Hcs. unfold count_mines.
  rewrite <- (length_fmap (λ c, idx s c.1 c.2) cs).
  apply occurrences_ge.
  - apply NoDup_fmap_2_strong; [|done].
    intros [y x] [y' x'] Hc Hc' He. simpl in He.
    destruct (Hcs _ Hc) as [Hv _]. destruct (Hcs _ Hc') as [Hv' _].
    by destruct (idx_inj s y x y' x' Hv Hv' He) as [-> ->].
  - intros i (c & -> & Hc)%list_elem_of_fmap.
    destruct (Hcs _ Hc) as [Hv Hm]. split.
    + rewrite (wf_board _ Hwf). apply idx_lt; [apply Hwf|done].
    + unfold get in Hm. by rewrite Hv in Hm.
Qed.

(** X12. The constructor returns only if every cell of row 126 and of column
    126 holds a mine, for the count pass does not return on any other cell
    there.  So a grid of 127 rows with fewer mines than columns, or of 127
    columns with fewer mines than rows, is never constructed. *)
Theorem init_needs_mined_edge h w m :
  1 ≤ h ≤ 127 → 1 ≤ w ≤ 127 → 0 ≤ m ≤ 127 →
  (∀ fuel rs s rs',
     SBoard_new fuel h w m rs = Some (s, rs') →
     ∀ y x, is_valid s y x = true → y = 126 ∨ x = 126 → get s y x = MINE) ∧
  ((h = 127 ∧ m < w) ∨ (w = 127 ∧ m < h) →
   ∀ fuel rs, SBoard_new fuel h w m rs = None).
Proof.
  intros Hh Hw Hm.
  assert (∀ fuel rs s rs',
            SBoard_new fuel h w m rs = Some (s, rs') →
            ∀ y x, is_valid s y x = true → y = 126 ∨ x = 126 →
                   get s y x = MINE) as Hedge.
  { intros fuel rs s rs' Hnew y x Hv Hor.
    apply SBoard_new_spec in Hnew as (_ & [_ Hd] & _); [|lia..].
    destruct (decide (get s y x = MINE)) as [|Hnm]; [done|].
    destruct (Hd y x Hv Hnm) as (_ & ? & ?). lia. }
  split; [done|]. intros Hor fuel rs.
  destruct (SBoard_new fuel h w m rs) as [[s rs']|] eqn:Hnew; [|done].
  exfalso. pose proof (Hedge _ _ _ _ Hnew) as Hall.
  apply SBoard_new_spec in Hnew as (Hwf & [Hc _] & _ & Eh & Ew & Em & _);
    [|lia..].
  destruct Hor as [[-> Hlt]|[-> Hlt]].
  - assert (Z.of_nat (length ((λ x, (126, x)) <$> seqZ 0 w)) ≤ count_mines s)
      as Hge.
    { apply mines_at_least; [done| |].
      - apply NoDup_fmap_2_strong; [|apply NoDup_seqZ].
        by intros x x' _ _ [= ->].
      - intros c (x & -> & Hx%elem_of_seqZ)%list_elem_of_fmap. simpl.
        assert (is_valid s 126 x = true) as Hv by (apply is_valid_spec; lia).
        split; [done|]. apply Hall; [done|by left]. }
    rewrite length_fmap, length_seqZ in Hge. lia.
  - assert (Z.of_nat (length ((λ y, (y, 126)) <$> seqZ 0 h)) ≤ count_mines s)
      as Hge.
    { apply mines_at_least; [done| |].
      - apply NoDup_fmap_2_strong; [|apply NoDup_seqZ].
        by intros y y' _ _ [= ->].
      - intros c (y & -> & Hy%elem_of_seqZ)%list_elem_of_fmap. simpl.
        assert (is_valid s y 126 = true) as Hv by (apply is_valid_spec; lia).
        split; [done|]. apply Hall; [done|by right]. }
    rewrite length_fmap, length_seqZ in Hge. lia.
Qed.

Lemma init_needs_mined_edge_witness :
  SBoard_new 200 127 3 2 [126; 0; 126; 1] = None ∧
  ∀ fuel rs, SBoard_new fuel 127 3 2 rs = None.
Proof.
  destruct (init_needs_mined_edge 127 3 2) as [_ Hnone]; [lia..|].
  split; [|intros fuel rs]; apply Hnone; left; lia.
Defined.

(** ** Valid grids the constructor cannot build *)

(** A grid of 127 rows has a row 126.  The count pass calls
    [count_neighbors] on every cell of it that holds no mine, and that call
    does not return; with fewer mines than columns some cell of the row
    holds none. *)
Lemma row_126_hangs w m fuel rs :
  1 ≤ w ≤ 127 → 0 ≤ m < w → SBoard_new fuel 127 w m rs = None.
Proof.
  intros Hw Hm.
  destruct (SBoard_new fuel 127 w m rs) as [[s rs']|] eqn:Hnew; [|done].
  exfalso.
  apply SBoard_new_spec in Hnew as (Hwf & [Hc Hd] & _ & Eh & Ew & Em & _);
    [|lia..].
  assert (Z.of_nat (length ((λ x, (126, x)) <$> seqZ 0 w)) ≤ count_mines s)
    as Hge.
  { apply mines_at_least; [done| |].
    - apply NoDup_fmap_2_strong; [|apply NoDup_seqZ].
      by intros x x' _ _ [= ->].
    - intros c (x & -> & Hx%elem_of_seqZ)%list_elem_of_fmap. simpl.
      assert (is_valid s 126 x = true) as Hv by (apply is_valid_spec; lia).
      split; [done|].
      destruct (decide (get s 126 x = MINE)) as [|Hnm]; [done|].
      destruct (Hd 126 x Hv Hnm) as (_ & ? & _). lia. }
  rewrite length_fmap, length_seqZ in Hge. lia.
Qed.

(** The same for a grid of 127 columns and its column 126. *)
Lemma column_126_hangs h m fuel rs :
  1 ≤ h ≤ 127 → 0 ≤ m < h → SBoard_new fuel h 127 m rs = None.
Proof.
  intros Hh Hm.
  destruct (SBoard_new fuel h 127 m rs) as [[s rs']|] eqn:Hnew; [|done].
  exfalso.
  apply SBoard_new_spec in Hnew as (Hwf & [Hc Hd] & _ & Eh & Ew & Em & _);
    [|lia..].
  assert (Z.of_nat (length ((λ y, (y, 126)) <$> seqZ 0 h)) ≤ count_mines s)
    as Hge.
  { apply mines_at_least; [done| |].
    - apply NoDup_fmap_2_strong; [|apply NoDup_seqZ].
      by intros y y' _ _ [= ->].
    - intros c (y & -> & Hy%elem_of_seqZ)%list_elem_of_fmap. simpl.
      assert (is_valid s y 126 = true) as Hv by (apply is_valid_spec; lia).
      split; [done|].
      destruct (decide (get s y 126 = MINE)) as [|Hnm]; [done|].
      destruct (Hd y 126 Hv Hnm) as (_ & _ & ?). lia. }
  rewrite length_fmap, length_seqZ in Hge. lia.
Qed.

(** C2 fails on the code for grids with 127 rows or 127 columns, which are
    valid configurations.  [count_neighbors] runs its loops with [TCell]
    counters up to the [int] bounds [y + 1] and [x + 1]; in row or column
    126 the bound is 127, the largest [TCell], so the counter wraps to -128
    instead of passing it and the call never returns.  The count pass of
    [init] makes that call on every cell without a mine.  Hence the
    constructor never returns on the valid configuration [(127, 1, 0)], nor
    on any [(127, w, m)] with [m < w] or [(h, 127, m)] with [m < h],
    whatever [rand()] returns: no board is initialised, and nothing holds
    "after initialisation". *)
Theorem init_hangs_on_row_126 :
  valid_config 127 1 0 ∧
  (∀ fuel rs, SBoard_new fuel 127 1 0 rs = None) ∧
  (∀ fuel s x, 0 ≤ x ≤ 126 → count_neighbors fuel s 126 x = None) ∧
  (∀ fuel s y, 0 ≤ y ≤ 126 → count_neighbors fuel s y 126 = None) ∧
  (∀ w m, 1 ≤ w ≤ 127 → 0 ≤ m < w →
          valid_config 127 w m ∧
          ∀ fuel rs, SBoard_new fuel 127 w m rs = None) ∧
  (∀ h m, 1 ≤ h ≤ 127 → 0 ≤ m < h →
          valid_config h 127 m ∧
          ∀ fuel rs, SBoard_new fuel h 127 m rs = None).
Proof.
  split; [unfold valid_config; lia|].
  split; [intros fuel rs; apply row_126_hangs; lia|].
  split.
  { intros fuel s x Hx. rewrite count_neighbors_spec by lia. done. }
  split.
  { intros fuel s y Hy. rewrite count_neighbors_spec by lia.
    by rewrite andb_false_r. }
  split.
  - intros w m Hw Hm. split; [unfold valid_config; nia|].
    intros fuel rs. by apply row_126_hangs.
  - intros h m Hh Hm. split; [unfold valid_config; nia|].
    intros fuel rs. by apply column_126_hangs.
Qed.

(** * The field window *)

Section GridLoops.
Context {St : Type}.

(** A counting loop over [TCell]s whose body always returns is a fold. *)
Lemma for_lt_fold (f : Z → St → St) fuel n (body : Z → St → option St) :
  n ≤ 127 →
  (∀ i st, 0 ≤ i < n → body i st = Some (f i st)) →
  ∀ a st,
    0 ≤ a ≤ n → (Z.to_nat (n - a) < fuel)%nat →
    for_TCell fuel (λ i, i <? n) body a st =
      Some (foldl (λ st i, f i st) st (seqZ a (n - a))).
Proof.
  intros Hn Hbody. induction fuel as [|fuel IH]; intros a st Ha Hf; [lia|].
  simpl. destruct (Z.ltb_spec a n) as [Hlt|Hge].
  - rewrite Hbody by lia. rewrite wrap8_id by (unfold int8; lia).
    rewrite IH by lia. rewrite (seqZ_cons a) by lia. simpl.
    do 3 f_equal; lia.
  - by replace (n - a) with 0 by lia.
Qed.

(** Loops whose conditions and bodies agree run alike. *)
Lemma for_TCell_ext fuel (cond cond' : Z → bool)
    (body body' : Z → St → option St) :
  (∀ i, cond i = cond' i) → (∀ i st, body i st = body' i st) →
  ∀ i st, for_TCell fuel cond body i st = for_TCell fuel cond' body' i st.
Proof.
  intros Hc Hb. induction fuel as [|fuel IH]; intros i st; simpl; [done|].
  rewrite Hc, Hb. destruct (cond' i); [|done].
  by destruct (body' i st).
Qed.

End GridLoops.

Lemma foldl_app_calls {A} (g : A → list Call) l out :
  foldl (λ out x, out ++ g x) out l = out ++ flat_map g l.
Proof.
  revert out. induction l as [|x l IH]; intros out; simpl.
  - by rewrite app_nil_r.
  - by rewrite IH, app_assoc.
Qed.

Lemma flat_map_grid (g : Z → Z → list Call) (l1 l2 : list Z) :
  flat_map (λ y, flat_map (g y) l2) l1 =
    flat_map (λ c, g c.1 c.2) (list_prod l1 l2).
Proof.
  assert (∀ y l, flat_map (g y) l =
                 flat_map (λ c, g c.1 c.2) (map (λ x, (y, x)) l)) as Hrow.
  { intros y l. induction l as [|x l IH]; simpl; [done|]. by rewrite IH. }
  induction l1 as [|y l1 IH]; simpl; [done|].
  by rewrite flat_map_app, IH, Hrow.
Qed.

(** The double loop over the grid makes the calls of its body cell by cell,
    row after row, and returns for every grid a [TCell] can size. *)
Lemma for_grid_spec fuel s body out :
  wf s → (128 ≤ fuel)%nat →
  for_grid fuel s body out =
    Some (out ++ flat_map (λ c, body c.1 c.2) (cells s)).
Proof.
  intros Hwf Hfuel. unfold for_grid, cells.
  pose proof (wf_height _ Hwf). pose proof (wf_width _ Hwf).
  rewrite (for_lt_fold (λ y out1, out1 ++ flat_map (body y) (seqZ 0 (width s))));
    [|lia| |lia|lia].
  - rewrite Z.sub_0_r.
    by rewrite (foldl_app_calls (λ y, flat_map (body y) (seqZ 0 (width s)))),
      flat_map_grid.
  - intros y out1 Hy.
    rewrite (for_lt_fold (λ x out2, out2 ++ body y x)); [|lia|done|lia|lia].
    by rewrite Z.sub_0_r, (foldl_app_calls (body y)).
Qed.

Lemma update_field_spec fuel hc s :
  wf s → (128 ≤ fuel)%nat →
  update_field fuel hc s =
    Some (flat_map (λ c, draw_cell hc s c.1 c.2) (cells s)
          ++ (if lose s
              then flat_map (λ c, draw_lost_cell hc s c.1 c.2) (cells s)
              else [])
          ++ [wmove (curY s) (curX s); wrefresh]).
Proof.
  intros Hwf Hfuel. unfold update_field. rewrite for_grid_spec by done.
  destruct (lose s).
  - rewrite for_grid_spec by done. simpl. by rewrite <- app_assoc.
  - simpl. done.
Qed.

Lemma screen_char_app out1 out2 y x :
  screen_char (out1 ++ out2) y x =
    match screen_char out2 y x with
    | Some ch => Some ch
    | None => screen_char out1 y x
    end.
Proof.
  induction out1 as [|c out1 IH]; simpl.
  - by destruct (screen_char out2 y x).
  - rewrite IH. by destruct (screen_char out2 y x).
Qed.

(** Calls made cell by cell, each on its own cell, leave on a cell what the
    calls for that cell leave. *)
Lemma screen_char_cells (f : Z * Z → list Call) l y x :
  (∀ c, c ≠ (y, x) → screen_char (f c) y x = None) →
  screen_char (flat_map f l) y x =
    if decide ((y, x) ∈ l) then screen_char (f (y, x)) y x else None.
Proof.
  intros Hne. induction l as [|c l IH].
  - case_decide as Hin; [by apply elem_of_nil in Hin|done].
  - cbn [flat_map]. rewrite screen_char_app, IH.
    destruct (decide (c = (y, x))) as [->|Hc].
    + destruct (decide ((y, x) ∈ l)) as [Hin|Hin];
        destruct (decide ((y, x) ∈ (y, x) :: l)) as [Hin'|Hin'].
      all: try (by destruct (screen_char (f (y, x)) y x)).
      all: by destruct Hin'; left.
    + rewrite (Hne c Hc).
      destruct (decide ((y, x) ∈ l)) as [Hin|Hin];
        destruct (decide ((y, x) ∈ c :: l)) as [Hin'|Hin'].
      * by destruct (screen_char (f (y, x)) y x).
      * by destruct Hin'; right.
      * apply elem_of_cons in Hin' as [?|?]; [by destruct Hc|done].
      * done.
Qed.

Lemma other_cell (c : Z * Z) y x :
  c ≠ (y, x) → (c.1 =? y) && (c.2 =? x) = false.
Proof.
  destruct c as [y' x']. simpl. intros Hne.
  destruct (Z.eqb_spec y' y) as [->|?]; [|done].
  destruct (Z.eqb_spec x' x) as [->|?]; done.
Qed.

Lemma screen_char_draw_cell hc s y x :
  screen_char (draw_cell hc s y x) y x = Some (shown_playing s y x).
Proof.
  unfold draw_cell, shown_playing.
  destruct (geti s y x =? FLAGGED); [by simpl; rewrite !Z.eqb_refl|].
  destruct (geti s y x =? REVEAL); [|by simpl; rewrite !Z.eqb_refl].
  destruct (Z.eqb_spec (get s y x) ZERO_CHAR) as [->|Hnz].
  - by simpl; rewrite !Z.eqb_refl.
  - destruct (_ && _); [|by simpl; rewrite !Z.eqb_refl].
    destruct hc; by simpl; rewrite !Z.eqb_refl.
Qed.

Lemma screen_char_draw_cell_ne hc s c y x :
  c ≠ (y, x) → screen_char (draw_cell hc s c.1 c.2) y x = None.
Proof.
  intros Hne%other_cell. unfold draw_cell.
  repeat case_match; simpl; by rewrite ?Hne.
Qed.

Lemma screen_char_draw_lost_cell hc s y x :
  screen_char (draw_lost_cell hc s y x) y x =
    if (get s y x =? MINE) && negb (geti s y x =? FLAGGED) then Some MINE
    else if negb (get s y x =? MINE) && (geti s y x =? FLAGGED)
         then Some WRONG_FLAG
    else None.
Proof.
  unfold draw_lost_cell.
  destruct (get s y x =? MINE), (geti s y x =? FLAGGED); simpl;
    rewrite ?Z.eqb_refl; try done.
  destruct (hc && _ && _); simpl; by rewrite !Z.eqb_refl.
Qed.

Lemma screen_char_draw_lost_cell_ne hc s c y x :
  c ≠ (y, x) → screen_char (draw_lost_cell hc s c.1 c.2) y x = None.
Proof.
  intros Hne%other_cell. unfold draw_lost_cell.
  repeat case_match; simpl; by rewrite ?Hne.
Qed.

(** X13. [update_field] returns on every well-formed board (its loops end
    even on a grid of 127 rows or columns) and leaves on each cell of the
    grid the character [shown]: ['F'] on a flag, the digit or a blank on a
    revealed cell, ['.'] on a hidden one, and once the game is lost ['*'] on
    every unflagged mine and ['X'] on every flag off a mine.  It writes
    nowhere else, and ends by parking the cursor and refreshing. *)
Theorem update_field_shows fuel hc s :
  wf s → (128 ≤ fuel)%nat →
  ∃ out,
    update_field fuel hc s = Some out ∧
    (∀ y x, screen_char out y x =
            if is_valid s y x then Some (shown s y x) else None) ∧
    ∃ out0, out = out0 ++ [wmove (curY s) (curX s); wrefresh].
Proof.
  intros Hwf Hfuel. rewrite update_field_spec by done.
  eexists. split; [done|]. split; [|by rewrite app_assoc; eexists].
  intros y x. rewrite !screen_char_app. cbn [screen_char].
  rewrite (screen_char_cells (λ c, draw_cell hc s c.1 c.2))
    by (intros c; apply screen_char_draw_cell_ne).
  cbn [fst snd]. rewrite screen_char_draw_cell.
  assert (screen_char
            (if lose s
             then flat_map (λ c, draw_lost_cell hc s c.1 c.2) (cells s)
             else []) y x =
          if decide ((y, x) ∈ cells s)
          then (if lose s then screen_char (draw_lost_cell hc s y x) y x
                else None)
          else None) as ->.
  { destruct (lose s); [|by destruct (decide _)].
    by rewrite (screen_char_cells (λ c, draw_lost_cell hc s c.1 c.2))
      by (intros c; apply screen_char_draw_lost_cell_ne). }
  rewrite screen_char_draw_lost_cell. unfold shown.
  destruct (decide ((y, x) ∈ cells s)) as [Hin|Hin].
  - apply elem_of_cells in Hin. cbn [fst snd] in Hin. rewrite Hin.
    destruct (lose s); simpl; [|done].
    destruct (_ && negb _); [done|]. by destruct (negb _ && _).
  - destruct (is_valid s y x) eqn:Hv; [|done].
    destruct Hin. by apply elem_of_cells.
Qed.

Lemma update_field_shows_witness :
  ∃ s out,
    game 10 1 3 1 [0; 1] [CFlag; CMove 0 2; CReveal; CMove 0 (-1); CReveal]
      = Some (s, []) ∧
    update_field 128 true s = Some out ∧
    status s = Lost ∧
    screen_char out 0 0 = Some WRONG_FLAG ∧
    screen_char out 0 1 = Some MINE ∧
    screen_char out 0 2 = Some CHAR_1 ∧
    screen_char out 0 3 = None.
Proof.
  eexists.
  match goal with
  | |- ∃ out, ?g = Some (?s, []) ∧ _ =>
      assert (∃ s0, g = Some (s0, [])) as [s0 Hs0]
        by (eexists; vm_compute; reflexivity)
  end.
  assert (wf s0) as Hwf.
  { apply reachable_inv.
    apply (game_reachable 10 1 3 1 [0; 1]
             [CFlag; CMove 0 2; CReveal; CMove 0 (-1); CReveal] _ []);
      [unfold valid_config; lia|reflexivity|exact Hs0]. }
  destruct (update_field_shows 128 true s0 Hwf ltac:(lia)) as (out & Hu & Hsc & _).
  vm_compute in Hs0. injection Hs0 as <-.
  exists out. split; [vm_compute; reflexivity|]. split; [exact Hu|].
  split; [vm_compute; reflexivity|].
  rewrite !Hsc. repeat split; vm_compute; reflexivity.
Defined.

Lemma same_view_geti s s' y x : same_view s s' → geti s' y x = geti s y x.
Proof.
  intros [Hh Hw _ _ Hi _]. unfold geti, is_valid, idx. by rewrite Hh, Hw, Hi.
Qed.

Lemma draw_cell_same_view hc s s' y x :
  same_view s s' → draw_cell hc s' y x = draw_cell hc s y x.
Proof.
  intros Hsv. unfold draw_cell. rewrite (same_view_geti s s') by done.
  destruct (geti s y x =? FLAGGED); [done|].
  destruct (Z.eqb_spec (geti s y x) REVEAL) as [Hr|?]; [|done].
  by rewrite (sv_revealed _ _ Hsv y x Hr).
Qed.

(** X14. While the game is not lost the field window gives away nothing
    about the hidden cells: on two boards with the same grid, cursor and
    visibility layer that agree on the revealed cells, [update_field] makes
    the same calls, wherever the mines are. *)
Theorem update_field_hides_mines fuel hc s s' :
  same_view s s' → lose s = false → lose s' = false →
  update_field fuel hc s' = update_field fuel hc s.
Proof.
  intros Hsv Hl Hl'. unfold update_field. rewrite Hl, Hl'.
  rewrite (sv_curY _ _ Hsv), (sv_curX _ _ Hsv).
  assert (for_grid fuel s' (draw_cell hc s') [] =
          for_grid fuel s (draw_cell hc s) []) as ->; [|done].
  unfold for_grid. apply for_TCell_ext.
  - intros y. by rewrite (sv_height _ _ Hsv).
  - intros y out1. apply for_TCell_ext.
    + intros x. by rewrite (sv_width _ _ Hsv).
    + intros x out2. by rewrite (draw_cell_same_view hc s s').
Qed.

Lemma update_field_hides_mines_witness :
  ∃ s s',
    SBoard_new 10 1 3 1 [0; 1] = Some (s, []) ∧
    SBoard_new 10 1 3 1 [0; 2] = Some (s', []) ∧
    board s' ≠ board s ∧
    update_field 128 true s' = update_field 128 true s.
Proof.
  eexists _, _. split; [vm_compute; reflexivity|].
  split; [vm_compute; reflexivity|].
  split; [vm_compute; discriminate|].
  apply update_field_hides_mines; [|reflexivity..].
  split; try reflexivity.
  intros y x. unfold geti. cbn [input_board].
  destruct (is_valid _ y x); [|discriminate].
  unfold idx. cbn [height]. intros Hr. exfalso. revert Hr.
  unfold rd. generalize (Z.to_nat (x * 1 + y)). intros [|[|[|n]]]; discriminate.
Defined.

(** An invariant of the calls made so far is kept by the loop over the grid
    if the body keeps it on every cell of the grid. *)
Lemma for_grid_inv (P : list Call → Prop) fuel s body out out' :
  wf s → P out →
  (∀ y x out1, is_valid s y x = true → P out1 → P (out1 ++ body y x)) →
  for_grid fuel s body out = Some out' → P out'.
Proof.
  intros Hwf Hout Hbody. unfold for_grid.
  pose proof (wf_height _ Hwf). pose proof (wf_width _ Hwf).
  apply (for_lt_inv (λ _, P)); [lia|lia|done|].
  intros y out1 out2 Hy Hout1.
  apply (for_lt_inv (λ _, P)); [lia|lia|done|].
  intros x out3 out4 Hx Hout3 [= <-].
  apply Hbody; [|done]. apply is_valid_spec. lia.
Qed.

(** The calls for a cell of the grid, in a state that is not lost: one
    character, that of [shown_playing], on the cell itself. *)
Lemma draw_cell_chars hc s y' x' y x ch :
  inv s → (∀ y x, geti s y x = REVEAL → get s y x ≠ MINE) →
  is_valid s y' x' = true →
  mvwaddch y x ch ∈ draw_cell hc s y' x' →
  y = y' ∧ x = x' ∧ ch = shown_playing s y x ∧ ch ≠ MINE ∧ ch ≠ WRONG_FLAG.
Proof.
  intros Hinv Hsafe Hv Hc.
  pose proof (get_values s y' x' Hinv Hv) as Hval.
  pose proof (Hsafe y' x') as Hnm.
  unfold draw_cell in Hc. unfold shown_playing.
  unfold MINE, ZERO_CHAR, CHAR_1, CHAR_8, FLAGGED, REVEAL, SPACE, DOT,
    WRONG_FLAG in *.
  destruct (Z.eqb_spec (geti s y' x') 70) as [Hf|Hf].
  { apply list_elem_of_singleton in Hc as [= -> -> ->].
    rewrite Hf. by vm_compute. }
  destruct (Z.eqb_spec (geti s y' x') 82) as [Hr|Hr].
  2:{ apply list_elem_of_singleton in Hc as [= -> -> ->].
      destruct (Z.eqb_spec (geti s y' x') 70); [done|].
      destruct (Z.eqb_spec (geti s y' x') 82); [done|]. by vm_compute. }
  specialize (Hnm Hr).
  assert (mvwaddch y x ch =
          mvwaddch y' x' (if get s y' x' =? 48 then 32 else get s y' x'))
    as [= -> -> ->].
  { destruct (Z.geb_spec (get s y' x') 49);
      destruct (Z.leb_spec (get s y' x') 56); simpl in Hc.
    - destruct (Z.eqb_spec (get s y' x') 48); [lia|].
      destruct hc; simpl in Hc;
        repeat (apply elem_of_cons in Hc as [Hc|Hc]; [done|]);
        by apply elem_of_nil in Hc.
    - lia.
    - destruct (Z.eqb_spec (get s y' x') 48);
        by apply list_elem_of_singleton in Hc.
    - lia. }
  rewrite Hr. simpl.
  destruct (Z.eqb_spec (get s y' x') 48); repeat split; lia.
Qed.

Lemma update_field_no_mine fuel hc s out :
  reachable s → lose s = false →
  update_field fuel hc s = Some out → ¬ shows_mine out.
Proof.
  intros Hs Hl.
  pose proof (reachable_inv _ Hs) as Hinv.
  pose proof (oo_safe _ (i2_outcome _ (reachable_inv2 _ Hs)) Hl) as Hsafe.
  unfold update_field. rewrite Hl.
  destruct (for_grid _ _ _ _) as [out1|] eqn:Hgrid; [|done].
  intros [= <-] (y & x & Hin).
  apply (for_grid_inv (λ o, mvwaddch y x MINE ∉ o)) in Hgrid;
    [|apply Hinv|apply not_elem_of_nil|].
  - apply elem_of_app in Hin as [?|Hin]; [done|].
    apply elem_of_cons in Hin as [?|Hin]; [done|].
    by apply list_elem_of_singleton in Hin.
  - clear Hin. intros y' x' out2 Hv Hout2 [?|Hc]%elem_of_app; [done|].
    by destruct (draw_cell_chars _ _ _ _ _ _ _ Hinv Hsafe Hv Hc)
      as (_ & _ & _ & ? & _).
Qed.

(** X15. In a reachable state that is not lost every character
    [update_field] writes goes to a cell of the grid and is the one that
    cell shows while playing: a flag, a digit, a blank or a dot.  No ['*']
    and no ['X'] is written, not even to be overwritten: the mines and the
    wrong flags come up only with the loss. *)
Theorem no_mine_shown_before_loss fuel hc s out :
  reachable s → lose s = false →
  update_field fuel hc s = Some out →
  (∀ y x ch, mvwaddch y x ch ∈ out →
             is_valid s y x = true ∧ ch = shown_playing s y x ∧
             ch ≠ MINE ∧ ch ≠ WRONG_FLAG) ∧
  ¬ shows_mine out.
Proof.
  intros Hs Hl.
  pose proof (reachable_inv _ Hs) as Hinv.
  pose proof (oo_safe _ (i2_outcome _ (reachable_inv2 _ Hs)) Hl) as Hsafe.
  unfold update_field. rewrite Hl.
  destruct (for_grid _ _ _ _) as [out1|] eqn:Hgrid; [|done].
  intros [= <-].
  assert (∀ y x ch, mvwaddch y x ch ∈ out1 →
                    is_valid s y x = true ∧ ch = shown_playing s y x ∧
                    ch ≠ MINE ∧ ch ≠ WRONG_FLAG) as Hall.
  { refine (for_grid_inv
              (λ o, ∀ y x ch, mvwaddch y x ch ∈ o →
                              is_valid s y x = true ∧ ch = shown_playing s y x ∧
                              ch ≠ MINE ∧ ch ≠ WRONG_FLAG)
              _ _ _ _ _ (inv_wf _ Hinv) _ _ Hgrid).
    - intros y x ch Hin. by apply elem_of_nil in Hin.
    - intros y' x' out2 Hv Hout2 y x ch [Hin|Hc]%elem_of_app; [by apply Hout2|].
      destruct (draw_cell_chars _ _ _ _ _ _ _ Hinv Hsafe Hv Hc)
        as (-> & -> & ? & ? & ?).
      done. }
  assert (∀ y x ch, mvwaddch y x ch ∈ out1 ++ [wmove (curY s) (curX s); wrefresh] →
                    mvwaddch y x ch ∈ out1) as Hcut.
  { intros y x ch [?|Hin]%elem_of_app; [done|].
    apply elem_of_cons in Hin as [?|Hin]; [done|].
    by apply list_elem_of_singleton in Hin. }
  split.
  - intros y x ch Hin. by apply Hall, Hcut.
  - intros (y & x & Hin). by destruct (Hall y x MINE (Hcut _ _ _ Hin)) as (_ & _ & ? & _).
Qed.

Lemma no_mine_shown_before_loss_witness :
  ∃ s out,
    game 10 1 3 1 [0; 1] [CFlag; CMove 0 2; CReveal] = Some (s, []) ∧
    update_field 128 false s = Some out ∧
    (∀ y x ch, mvwaddch y x ch ∈ out →
               is_valid s y x = true ∧ ch = shown_playing s y x ∧
               ch ≠ MINE ∧ ch ≠ WRONG_FLAG) ∧
    ¬ shows_mine out.
Proof.
  eexists _, _. split; [vm_compute; reflexivity|].
  split; [vm_compute; reflexivity|].
  eapply (no_mine_shown_before_loss 128 false).
  - apply (game_reachable 10 1 3 1 [0; 1] [CFlag; CMove 0 2; CReveal] _ []);
      [unfold valid_config; lia|reflexivity|vm_compute; reflexivity].
  - vm_compute; reflexivity.
  - vm_compute; reflexivity.
Defined.

(** * The main loop and the command line *)

Lemma key_cmd_moves key dy dx :
  key_cmd key = Some (CMove dy dx) → int8 dy ∧ int8 dx.
Proof.
  unfold key_cmd.
  do 4 (destruct (_ || _); [intros [= <- <-]; unfold int8; lia|]).
  destruct (key =? SPACE); [done|]. destruct (key =? CHAR_f); [done|].
  by destruct (key =? CHAR_q).
Qed.

Lemma key_step_reachable fuel key s rs s' rs' :
  reachable s → key_step fuel key s rs = Some (s', rs') → reachable s'.
Proof.
  intros Hs. unfold key_step.
  destruct (key_cmd key) as [c|] eqn:Hk; [|by intros [= <- <-]].
  intros Hexec. eapply reach_exec; [done| |done].
  intros dy dx ->. by eapply key_cmd_moves.
Qed.

(** An invariant of the state and the frames that every round of the loop
    keeps holds when the loop ends.  The loop leaves keys unread only when
    the game is done, and has drawn one frame for each key it read. *)
Lemma main_loop_inv (P : SBoard → list (list Call) → Prop) fuel hc :
  (∀ key s rs s' rs' out frames,
     P s frames → is_done s = false →
     key_step fuel key s rs = Some (s', rs') →
     update_field fuel hc s' = Some out →
     P s' (frames ++ [out])) →
  ∀ keys s rs frames s' rs' frames' unread,
    P s frames →
    main_loop fuel hc keys s rs frames = Some (s', rs', frames', unread) →
    P s' frames' ∧
    (unread ≠ [] → is_done s' = true) ∧
    (length frames' + length unread = length frames + length keys)%nat ∧
    ∃ read, keys = read ++ unread.
Proof.
  intros Hstep. induction keys as [|key keys IH];
    intros s rs frames s' rs' frames' unread HP; simpl.
  - intros [= <- <- <- <-]. split; [done|]. split; [done|].
    split; [done|by exists []].
  - destruct (is_done s) eqn:Hd.
    + intros [= <- <- <- <-]. split; [done|]. split; [done|].
      split; [done|by exists []].
    + destruct (key_step fuel key s rs) as [[s1 rs1]|] eqn:Hk; [|done].
      unfold update.
      destruct (update_field fuel hc s1) as [out|] eqn:Hu; [|done].
      intros Hloop. apply IH in Hloop as (HP' & Hun & Hlen & read & ->);
        [|by eapply Hstep].
      split; [done|]. split; [done|]. split.
      * rewrite length_app in Hlen. simpl in Hlen. lia.
      * by exists (key :: read).
Qed.

(** X16. Every state [minesweeper] ends in, on any keys, is a reachable
    state of the engine, so all that holds of those holds in play.  The loop
    stops reading at the first key after the game is done: keys are left
    unread only then, they are a suffix of the input, and one frame is drawn
    per key read, after the first one. *)
Theorem minesweeper_end_state fuel hc h w m rs keys s rs' frames unread :
  valid_config h w m →
  minesweeper fuel hc h w m rs keys = Some (s, rs', frames, unread) →
  reachable s ∧
  (unread ≠ [] → is_done s = true) ∧
  (∃ read, keys = read ++ unread ∧ length frames = S (length read)).
Proof.
  intros Hcfg. unfold minesweeper.
  destruct (SBoard_new fuel h w m rs) as [[s0 rs0]|] eqn:Hnew; [|done].
  unfold update. destruct (update_field fuel hc s0) as [out|]; [|done].
  intros Hloop.
  apply (main_loop_inv (λ s _, reachable s)) in Hloop
    as (Hs & Hun & Hlen & read & ->).
  - split; [done|]. split; [done|]. exists read. split; [done|].
    rewrite !length_app in Hlen. simpl in Hlen. lia.
  - intros key s1 rs1 s2 rs2 out2 frames2 Hs1 _ Hk _.
    by eapply key_step_reachable.
  - by eapply reach_new.
Qed.

Lemma minesweeper_end_state_witness :
  ∃ s frames,
    minesweeper 128 true 1 3 1 [0; 1] [SPACE; CHAR_l; SPACE; CHAR_f; CHAR_q]
      = Some (s, [], frames, [CHAR_f; CHAR_q]) ∧
    status s = Lost ∧ reachable s ∧ length frames = 4%nat.
Proof.
  eexists _, _. split; [vm_compute; reflexivity|].
  split; [vm_compute; reflexivity|].
  match goal with
  | |- reachable ?s ∧ length ?fr = _ =>
      destruct (minesweeper_end_state 128 true 1 3 1 [0; 1]
                  [SPACE; CHAR_l; SPACE; CHAR_f; CHAR_q]
                  s [] fr [CHAR_f; CHAR_q]) as (Hs & _ & _)
  end.
  - unfold valid_config; lia.
  - vm_compute; reflexivity.
  - split; [exact Hs|vm_compute; reflexivity].
Defined.

(** X17. No frame of a game shows a mine before the game is lost: if
    [minesweeper] ends in a state that is not lost, none of the frames it has
    drawn puts a ['*'] on the window. *)
Theorem minesweeper_shows_no_mine fuel hc h w m rs keys s rs' frames unread :
  valid_config h w m →
  minesweeper fuel hc h w m rs keys = Some (s, rs', frames, unread) →
  lose s = false →
  ∀ out, out ∈ frames → ¬ shows_mine out.
Proof.
  intros Hcfg. unfold minesweeper.
  destruct (SBoard_new fuel h w m rs) as [[s0 rs0]|] eqn:Hnew; [|done].
  unfold update. destruct (update_field fuel hc s0) as [out0|] eqn:Hu0; [|done].
  intros Hloop.
  assert (reachable s0) as Hs0 by (by eapply reach_new).
  apply (main_loop_inv
           (λ s frames, reachable s ∧
                        (lose s = false → ∀ out, out ∈ frames → ¬ shows_mine out)))
    in Hloop as ((_ & Hclean) & _); [done| |].
  - intros key s1 rs1 s2 rs2 out2 frames2 [Hs1 Hcl1] Hd Hk Hu.
    pose proof (key_step_reachable _ _ _ _ _ _ Hs1 Hk) as Hs2.
    split; [done|]. intros Hl2 out [Hin|Hin]%elem_of_app.
    + apply Hcl1; [|done].
      destruct (lose s1) eqn:Hl1; [|done].
      destruct (co_outcome _ (inv_counters _ (reachable_inv _ Hs1)));
        [by right|]. unfold is_done in Hd. congruence.
    + apply list_elem_of_singleton in Hin as ->.
      by eapply update_field_no_mine.
  - split; [done|]. intros Hl0 out Hin.
    apply list_elem_of_singleton in Hin as ->.
    by eapply update_field_no_mine.
Qed.

Lemma minesweeper_shows_no_mine_witness :
  ∃ s frames,
    minesweeper 128 true 1 3 1 [0; 1] [CHAR_f; CHAR_l; CHAR_l; SPACE]
      = Some (s, [], frames, []) ∧
    ∀ out, out ∈ frames → ¬ shows_mine out.
Proof.
  eexists _, _. split; [vm_compute; reflexivity|].
  eapply (minesweeper_shows_no_mine 128 true 1 3 1 [0; 1]
            [CHAR_f; CHAR_l; CHAR_l; SPACE] _ [] _ []).
  - unfold valid_config; lia.
  - vm_compute; reflexivity.
  - vm_compute; reflexivity.
Defined.

Lemma main_loop_app fuel hc keys1 keys2 :
  ∀ s rs frames s1 rs1 frames1,
    main_loop fuel hc keys1 s rs frames = Some (s1, rs1, frames1, []) →
    main_loop fuel hc (keys1 ++ keys2) s rs frames =
      main_loop fuel hc keys2 s1 rs1 frames1.
Proof.
  induction keys1 as [|key keys1 IH]; intros s rs frames s1 rs1 frames1; simpl.
  - by intros [= <- <- <-].
  - destruct (is_done s); [done|].
    destruct (key_step fuel key s rs) as [[s2 rs2]|]; [|done].
    destruct (update fuel hc s2 frames) as [frames2|]; [|done].
    apply IH.
Qed.

(** X18. The key [q] ends a game that is on: the state is the one before
    with [done] set, its status is [Aborted], one last frame is drawn, and
    whatever is typed after the [q] is not read. *)
Theorem quit_key_aborts fuel hc h w m rs keys1 keys2 s1 rs1 frames1 :
  valid_config h w m → (128 ≤ fuel)%nat →
  minesweeper fuel hc h w m rs keys1 = Some (s1, rs1, frames1, []) →
  status s1 = Playing →
  ∃ out,
    minesweeper fuel hc h w m rs (keys1 ++ CHAR_q :: keys2) =
      Some (quit s1, rs1, frames1 ++ [out], keys2) ∧
    update_field fuel hc (quit s1) = Some out ∧
    status (quit s1) = Aborted.
Proof.
  intros Hcfg Hfuel Hrun Hst.
  assert (wf s1) as Hwf.
  { apply reachable_inv.
    unfold minesweeper in Hrun.
    destruct (SBoard_new fuel h w m rs) as [[s0 rs0]|] eqn:Hnew; [|done].
    unfold update in Hrun.
    destruct (update_field fuel hc s0) as [out|]; [|done].
    apply (main_loop_inv (λ s _, reachable s)) in Hrun as (Hs & _); [done| |].
    - intros key s2 rs2 s3 rs3 out3 frames3 Hs2 _ Hk _.
      by eapply key_step_reachable.
    - by eapply reach_new. }
  assert (wf (quit s1)) as Hwfq by (by apply wf_set_outcome).
  assert (∃ out, update_field fuel hc (quit s1) = Some out) as [out Hu]
    by (rewrite update_field_spec by done; eauto).
  exists out. split; [|split; [done|]].
  - unfold minesweeper in *.
    destruct (SBoard_new fuel h w m rs) as [[s0 rs0]|]; [|done].
    destruct (update fuel hc s0 []) as [frames0|]; [|done].
    rewrite (main_loop_app _ _ _ _ _ _ _ _ _ _ Hrun). simpl.
    unfold is_done at 1. rewrite (status_playing _ Hst).
    unfold update. rewrite Hu. by destruct keys2.
  - unfold status in *. simpl.
    destruct (lose s1); [done|]. by destruct (win s1).
Qed.

Lemma quit_key_aborts_witness :
  ∃ s1 frames1,
    minesweeper 128 false 1 3 1 [0; 1] [SPACE] = Some (s1, [], frames1, []) ∧
    ∃ out,
      minesweeper 128 false 1 3 1 [0; 1] ([SPACE] ++ CHAR_q :: [CHAR_f]) =
        Some (quit s1, [], frames1 ++ [out], [CHAR_f]) ∧
      update_field 128 false (quit s1) = Some out ∧
      status (quit s1) = Aborted.
Proof.
  eexists _, _. split; [vm_compute; reflexivity|].
  apply (quit_key_aborts 128 false 1 3 1 [0; 1] [SPACE] [CHAR_f]).
  - unfold valid_config; lia.
  - lia.
  - vm_compute; reflexivity.
  - vm_compute; reflexivity.
Defined.

(** The option loop sets [flagErr] for good, and counts every option it
    accepts. *)
Lemma parse_opts_count opts :
  ∀ st,
    (st.1.2 = true → (foldl parse_opt st opts).1.2 = true) ∧
    ((foldl parse_opt st opts).1.2 = true ∨
     (foldl parse_opt st opts).2 = st.2 + Z.of_nat (length opts)).
Proof.
  induction opts as [|o opts IH]; intros st.
  { simpl. split; [done|right; lia]. }
  cbn [foldl length]. destruct (IH (parse_opt st o)) as [IH1 IH2].
  assert ((st.1.2 = true → (parse_opt st o).1.2 = true) ∧
          ((parse_opt st o).1.2 = true ∨ (parse_opt st o).2 = st.2 + 1))
    as [H1 H2].
  { destruct st as [[[[b i] e] err] c]. unfold parse_opt.
    destruct (o =? CHAR_b); [|destruct (o =? CHAR_i); [|destruct (o =? CHAR_e)]];
      cbn [fst snd]; auto. }
  split; [by intros He; apply IH1, H1|].
  destruct IH2 as [?|IH2]; [by left|].
  destruct H2 as [H2|H2]; [by left; apply IH1|].
  right. rewrite IH2, H2. lia.
Qed.

Lemma main_mode_spec opts :
  main_mode opts =
    match opts with
    | [] => Play 8 8 10
    | [o] => if o =? CHAR_b then Play 8 8 10
             else if o =? CHAR_i then Play 16 16 40
             else if o =? CHAR_e then Play 16 30 99
             else Usage
    | _ => Usage
    end.
Proof.
  destruct opts as [|o1 [|o2 opts]].
  - done.
  - unfold main_mode. simpl.
    destruct (o1 =? CHAR_b); [done|]. destruct (o1 =? CHAR_i); [done|].
    by destruct (o1 =? CHAR_e).
  - unfold main_mode.
    destruct (parse_opts_count (o1 :: o2 :: opts) (false, false, false, false, 0))
      as [_ Hc].
    destruct (foldl parse_opt _ _) as [[[[b i] e] err] c].
    cbn [fst snd length] in Hc.
    destruct Hc as [-> | ->]; [done|].
    rewrite orb_true_intro; [done|]. right. apply Z.gtb_lt. lia.
Qed.

Lemma main_mode_valid opts h w m :
  main_mode opts = Play h w m → valid_config h w m.
Proof.
  rewrite main_mode_spec.
  destruct opts as [|o1 [|o2 opts]]; [| |done].
  - intros [= <- <- <-]. unfold valid_config. lia.
  - destruct (o1 =? CHAR_b); [intros [= <- <- <-]; unfold valid_config; lia|].
    destruct (o1 =? CHAR_i); [intros [= <- <- <-]; unfold valid_config; lia|].
    destruct (o1 =? CHAR_e); [intros [= <- <- <-]; unfold valid_config; lia|].
    done.
Qed.

Lemma main_mode_plays opts : main_mode opts ≠ NoGame.
Proof.
  rewrite main_mode_spec.
  destruct opts as [|o1 [|o2 opts]]; [done| |done].
  destruct (o1 =? CHAR_b); [done|]. destruct (o1 =? CHAR_i); [done|].
  by destruct (o1 =? CHAR_e).
Qed.

(** X19. What [main] does is settled by the options alone: without any
    option it plays the beginner game, with one of [-b], [-i], [-e] the game
    of that name, and with an option it does not know or with two or more
    options (also the same one twice) it prints the usage text and fails.
    The [if] chain never falls through without a game, and each of the three
    presets is a valid configuration. *)
Theorem main_mode_cases opts :
  main_mode opts =
    match opts with
    | [] => Play 8 8 10
    | [o] => if o =? CHAR_b then Play 8 8 10
             else if o =? CHAR_i then Play 16 16 40
             else if o =? CHAR_e then Play 16 30 99
             else Usage
    | _ => Usage
    end ∧
  main_mode opts ≠ NoGame ∧
  ∀ h w m, main_mode opts = Play h w m → valid_config h w m.
Proof.
  split; [apply main_mode_spec|]. split; [apply main_mode_plays|].
  intros h w m. apply main_mode_valid.
Qed.

(** X20. [main] fails exactly on the usage error, and then draws nothing;
    in every other case it plays a game from a valid preset to its end
    state, a reachable state, and has drawn at least the first frame. *)
Theorem main_exit_code fuel hc opts rs keys code frames :
  main fuel hc opts rs keys = Some (code, frames) →
  (code = EXIT_FAILURE ∧ main_mode opts = Usage ∧ frames = []) ∨
  (code = EXIT_SUCCESS ∧
   ∃ h w m s rs' unread,
     main_mode opts = Play h w m ∧ valid_config h w m ∧
     minesweeper fuel hc h w m rs keys = Some (s, rs', frames, unread) ∧
     reachable s ∧ frames ≠ []).
Proof.
  unfold main.
  pose proof (main_mode_plays opts) as Hng.
  pose proof (main_mode_valid opts) as Hcfg.
  destruct (main_mode opts) as [|h w m|] eqn:Hmode; [|clear Hng|done].
  - intros [= <- <-]. by left.
  - destruct (minesweeper fuel hc h w m rs keys) as [[[[s rs'] fr] unread]|]
      eqn:Hrun; [|done].
    intros [= <- <-]. right. split; [done|].
    exists h, w, m, s, rs', unread.
    split; [done|]. split; [by apply Hcfg|]. split; [done|].
    unfold minesweeper in Hrun.
    destruct (SBoard_new fuel h w m rs) as [[s0 rs0]|] eqn:Hnew; [|done].
    unfold update in Hrun.
    destruct (update_field fuel hc s0) as [out|]; [|done].
    apply (main_loop_inv (λ s _, reachable s)) in Hrun
      as (Hs & _ & Hlen & read & ->).
    + split; [done|]. intros ->. rewrite !length_app in Hlen.
      simpl in Hlen. lia.
    + intros key s2 rs2 s3 rs3 out3 frames3 Hs2 _ Hk _.
      by eapply key_step_reachable.
    + eapply reach_new; [by apply Hcfg|done].
Qed.

Lemma main_exit_code_witness :
  ∃ frames,
    main 128 true [CHAR_b] (column_oracle 8 10) [CHAR_l; CHAR_l; SPACE; CHAR_q]
      = Some (EXIT_SUCCESS, frames) ∧
    frames ≠ [].
Proof.
  eexists. split; [vm_compute; reflexivity|].
  match goal with
  | |- ?fr ≠ [] =>
      destruct (main_exit_code 128 true [CHAR_b] (column_oracle 8 10)
                  [CHAR_l; CHAR_l; SPACE; CHAR_q] EXIT_SUCCESS fr) as [(Hc & _)|(_ & Hplay)]
  end.
  - vm_compute; reflexivity.
  - discriminate Hc.
  - destruct Hplay as (h & w & m & s & rs' & unread & _ & _ & _ & _ & Hne).
    exact Hne.
Defined.

(** Once a cell is revealed every key is answered: the step returns,
    draws nothing from the oracle and keeps a cell revealed. *)
Lemma key_step_returns fuel key s rs :
  reachable s → revealCount s ≠ 0 →
  (Z.to_nat (height s * width s) + 5 ≤ fuel)%nat →
  ∃ s', key_step fuel key s rs = Some (s', rs) ∧
        revealCount s' ≠ 0 ∧ height s' = height s ∧ width s' = width s.
Proof.
  intros Hs Hnz Hfuel. pose proof (reachable_inv _ Hs) as Hinv.
  pose proof (inv_wf _ Hinv) as Hwf. pose proof (inv_cursor _ Hinv) as Hc.
  unfold key_step. destruct (key_cmd key) as [[dy dx| | |]|]; simpl.
  - eexists. split; [done|]. unfold move_cur.
    destruct (is_valid s (wrap8 _) (wrap8 _)); [|done]. by simpl.
  - unfold reveal. destruct fuel as [|fuel]; [lia|].
    assert (first_safe (S fuel) s rs = Some (s, rs)) as ->.
    { simpl. by destruct (Z.eqb_spec (revealCount s) 0). }
    destruct (r_reveal_returns (S fuel) (curY s) (curX s) s [] Hinv Hfuel)
      as [[s' log] Hr].
    rewrite Hr. exists s'. split; [done|].
    pose proof (r_reveal_grows _ _ _ (s, []) (s', log) Hwf Hr) as Hg.
    pose proof (r_reveal_revealed _ _ _ (s, []) (s', log) Hwf Hr) as Hrev.
    cbn [fst] in *.
    split; [|split; [apply Hg|apply Hg]].
    assert (reachable s') as Hs'.
    { eapply (reach_exec (S fuel) CReveal s rs s' rs); [done..|].
      simpl. unfold reveal.
      assert (first_safe (S fuel) s rs = Some (s, rs)) as ->.
      { simpl. by destruct (Z.eqb_spec (revealCount s) 0). }
      by rewrite Hr. }
    rewrite (reachable_count _ Hs'). rewrite (reachable_count _ Hs) in Hnz.
    pose proof (occurrences_bounds REVEAL (input_board s)) as Hb.
    unfold revealed in *. lia.
  - eexists. split; [done|]. unfold flag, seti. rewrite Hc.
    destruct (geti s (curY s) (curX s) =? BLANK); [by simpl|].
    destruct (geti s (curY s) (curX s) =? FLAGGED); by simpl.
  - by eexists.
  - by eexists.
Qed.

(** X21. After the first reveal the game answers every key: from a reachable
    state with a revealed cell the main loop returns on any list of keys,
    given fuel for one redraw and one fill, and it draws no further value
    from [rand()]. *)
Theorem main_loop_returns fuel hc keys s rs frames :
  reachable s → revealCount s ≠ 0 →
  (128 ≤ fuel)%nat → (Z.to_nat (height s * width s) + 5 ≤ fuel)%nat →
  ∃ s' frames' unread,
    main_loop fuel hc keys s rs frames = Some (s', rs, frames', unread) ∧
    reachable s'.
Proof.
  intros Hs Hnz Hf1. revert s frames Hs Hnz.
  induction keys as [|key keys IH]; intros s frames Hs Hnz Hf2; simpl.
  { by exists s, frames, []. }
  destruct (is_done s); [by exists s, frames, (key :: keys)|].
  destruct (key_step_returns fuel key s rs Hs Hnz Hf2)
    as (s1 & Hk & Hnz1 & Eh & Ew).
  rewrite Hk.
  pose proof (key_step_reachable _ _ _ _ _ _ Hs Hk) as Hs1.
  unfold update.
  rewrite update_field_spec by (by try apply reachable_inv).
  apply IH; [done..|]. by rewrite Eh, Ew.
Qed.

Lemma main_loop_returns_witness :
  ∃ s, game 10 3 3 1 [2; 2] [CMove 2 0; CReveal] = Some (s, []) ∧
       ∃ s' frames' unread,
         main_loop 128 true [CHAR_k; CHAR_f; SPACE; 0; CHAR_l; SPACE] s [7] []
           = Some (s', [7], frames', unread) ∧
         reachable s'.
Proof.
  eexists. split; [vm_compute; reflexivity|].
  apply main_loop_returns.
  - apply (game_reachable 10 3 3 1 [2; 2] [CMove 2 0; CReveal] _ []);
      [unfold valid_config; lia|reflexivity|vm_compute; reflexivity].
  - vm_compute. discriminate.
  - lia.
  - vm_compute. lia.
Defined.

(** * The game after the first reveal *)

(** Once a cell is revealed a command keeps the mine layer and the oracle,
    and keeps revealed what is revealed. *)
Lemma exec_after_first_reveal fuel c s rs s' rs' :
  reachable s → revealCount s ≠ 0 →
  exec fuel c s rs = Some (s', rs') →
  board s' = board s ∧ rs' = rs ∧ revealCount s ≤ revealCount s' ∧
  ∀ y x, geti s y x = REVEAL → geti s' y x = REVEAL.
Proof.
  intros Hs Hnz Hexec. pose proof (reachable_inv _ Hs) as Hinv.
  pose proof (inv_wf _ Hinv) as Hwf. pose proof (inv_cursor _ Hinv) as Hc.
  destruct c as [dy dx| | |]; simpl in Hexec.
  - injection Hexec as <- <-. unfold move_cur.
    destruct (is_valid s (wrap8 _) (wrap8 _)); [|by repeat split; try lia].
    by repeat split; try lia.
  - unfold reveal in Hexec. destruct fuel as [|fuel]; [done|].
    assert (first_safe (S fuel) s rs = Some (s, rs)) as Hfs.
    { simpl. by destruct (Z.eqb_spec (revealCount s) 0). }
    rewrite Hfs in Hexec.
    destruct (r_reveal _ _ _ _) as [[s2 log2]|] eqn:Hr; [|done].
    injection Hexec as <- <-.
    pose proof (r_reveal_grows _ _ _ (s, []) (s2, log2) Hwf Hr) as Hg.
    pose proof (r_reveal_revealed _ _ _ (s, []) (s2, log2) Hwf Hr) as Hrev.
    cbn [fst] in *.
    assert (reachable s2) as Hs2.
    { eapply (reach_exec (S fuel) CReveal s rs s2 rs); [done..|].
      simpl. unfold reveal. by rewrite Hfs, Hr. }
    split; [apply Hg|]. split; [done|]. split.
    + by rewrite (reachable_count _ Hs), (reachable_count _ Hs2).
    + intros y x. by apply grows_revealed.
  - injection Hexec as <- <-.
    destruct (flag_cases s Hwf Hc) as [(Hb & E & _)|[(Hf & E & _)|(_ & _ & E)]];
      rewrite E; [| |by repeat split; try lia].
    + split; [by unfold seti; rewrite Hc|]. split; [done|].
      split; [by unfold seti; rewrite Hc; simpl; lia|].
      intros y x Hr.
      change (geti (set_flagCount ?t _) y x) with (geti t y x).
      rewrite geti_seti by done. rewrite Hc. simpl.
      destruct (Z.eqb_spec (curY s) y) as [<-|?]; simpl; [|done].
      destruct (Z.eqb_spec (curX s) x) as [<-|?]; simpl; [|done].
      by rewrite Hb in Hr.
    + split; [by unfold seti; rewrite Hc|]. split; [done|].
      split; [by unfold seti; rewrite Hc; simpl; lia|].
      intros y x Hr.
      change (geti (set_flagCount ?t _) y x) with (geti t y x).
      rewrite geti_seti by done. rewrite Hc. simpl.
      destruct (Z.eqb_spec (curY s) y) as [<-|?]; simpl; [|done].
      destruct (Z.eqb_spec (curX s) x) as [<-|?]; simpl; [|done].
      by rewrite Hf in Hr.
  - injection Hexec as <- <-. by repeat split; try lia.
Qed.

(** X22. Once a cell is revealed the mines stay where they are for the rest
    of the game: whatever commands follow, the mine layer is unchanged, no
    value of [rand()] is drawn, [revealCount] does not go down and every
    revealed cell stays revealed. *)
Theorem mines_fixed_after_first_reveal fuel cs :
  ∀ s rs s' rs',
    reachable s → revealCount s ≠ 0 →
    forallb cmd_ok cs = true →
    run fuel cs s rs = Some (s', rs') →
    board s' = board s ∧ rs' = rs ∧ revealCount s ≤ revealCount s' ∧
    ∀ y x, geti s y x = REVEAL → geti s' y x = REVEAL.
Proof.
  induction cs as [|c cs IH]; intros s rs s' rs' Hs Hnz Hok; simpl.
  { intros [= <- <-]. by repeat split; try lia. }
  simpl in Hok. apply andb_true_iff in Hok as [Hc Hok].
  destruct (exec fuel c s rs) as [[s1 rs1]|] eqn:Hexec; [|done].
  intros Hrun.
  assert (reachable s1) as Hs1.
  { eapply reach_exec; [done| |done].
    intros dy dx ->. simpl in Hc. unfold int8. lia. }
  destruct (exec_after_first_reveal _ _ _ _ _ _ Hs Hnz Hexec)
    as (Eb & -> & Hle & Hkeep).
  pose proof (co_range _ (inv_counters _ (reachable_inv _ Hs))) as Hrange.
  destruct (IH s1 rs s' rs' Hs1 ltac:(lia) Hok Hrun) as (Eb' & -> & Hle' & Hkeep').
  split; [congruence|]. split; [done|]. split; [lia|].
  intros y x Hr. by apply Hkeep', Hkeep.
Qed.

Lemma mines_fixed_after_first_reveal_witness :
  ∃ s s',
    game 10 3 3 1 [2; 2] [CMove 2 0; CReveal] = Some (s, []) ∧
    run 20 [CMove (-2) 2; CFlag; CReveal; CFlag; CMove 2 0; CReveal; CQuit]
        s [5] = Some (s', [5]) ∧
    board s' = board s ∧ revealCount s ≤ revealCount s'.
Proof.
  eexists _, _. split; [vm_compute; reflexivity|].
  split; [vm_compute; reflexivity|].
  match goal with
  | |- board ?t' = board ?t ∧ _ =>
      destruct (mines_fixed_after_first_reveal 20
                  [CMove (-2) 2; CFlag; CReveal; CFlag; CMove 2 0; CReveal; CQuit]
                  t [5] t' [5]) as (Eb & _ & Hle & _)
  end.
  - apply (game_reachable 10 3 3 1 [2; 2] [CMove 2 0; CReveal] _ []);
      [unfold valid_config; lia|reflexivity|vm_compute; reflexivity].
  - vm_compute. discriminate.
  - reflexivity.
  - vm_compute; reflexivity.
  - split; [exact Eb|exact Hle].
Defined.
